(** * NTAG424 DNA Secure Dynamic Messaging verification: a shallow embedding

    The development follows the TypeScript sources of the library:
    - [utils/crypto.ts]  : [xor], [shiftLeft], [generateSubkeys],
                           [calculateCmac], [truncateCmac];
    - [utils/ntag424.ts] : [decryptPiccData], [extractUidAndCounter],
                           [generateSdmSessionVector], [generateSdmSessionKey];
    - [index.ts]         : [verifySdmAuth];
    - [cli/index.ts]     : [parseArgs], [showHelp], [validateHexString], [main].

    A Node [Buffer] is a list of bytes, each byte an integer in [0, 256).
    Indexed reads are list lookups (an index past the end reads [undefined],
    here [None]); indexed writes are list inserts, which like a typed-array
    store do nothing past the end and keep only the low eight bits of the
    stored number.  Functions that can throw return an [outcome]; a [null]
    result is [None].  The diagnostics the library writes with
    [console.error] are left out; the console of the command-line tool is
    part of its model.

    The first part embeds the sources, the AES-128 cipher they call, and the
    algorithms as the documentation words them; the second part states and
    proves the properties. *)

From Stdlib Require Import ZArith QArith Lia Ascii String.
From stdpp Require Import base option list strings pretty.

Local Open Scope Z_scope.
Local Open Scope list_scope.

(** ** Exceptions and the outcome monad *)

(** The exceptions the Node runtime raises on the paths of this library.
    The text of an ERR_OUT_OF_RANGE error ends with the value received; the
    model keeps the text before that value. *)
Inductive exn : Type :=
  | RangeError (msg : string)   (* ERR_OUT_OF_RANGE of Buffer.writeUIntBE / readUIntLE *)
  | CryptoError (msg : string). (* thrown by crypto.createCipheriv / final *)

Definition message (e : exn) : string :=
  match e with
  | RangeError m => m
  | CryptoError m => m
  end.

(** The double quote. *)
Definition quote : string := String (ascii_of_nat 34) EmptyString.

(** The message of ERR_OUT_OF_RANGE for the argument [name] and the allowed
    [range], up to the received value. *)
Definition outOfRange (name range : string) : string :=
  ("The value of " ++ quote ++ name ++ quote ++ " is out of range. It must be "
   ++ range ++ ". Received ")%string.

Inductive outcome (A : Type) : Type :=
  | Return (a : A)
  | Throw (e : exn).
Arguments Return {A} a.
Arguments Throw {A} e.

#[global] Instance outcome_ret : MRet outcome := fun A a => Return a.
#[global] Instance outcome_bind : MBind outcome := fun A B f m =>
  match m with
  | Return a => f a
  | Throw e => Throw e
  end.

(** The call returns normally. *)
Definition returns {A} (m : outcome A) : Prop := ∃ a, m = Return a.

(** ** Buffers *)

Abbreviation Buffer := (list Z).

(** A well-formed buffer holds bytes. *)
Definition is_byte (b : Z) : Prop := 0 ≤ b < 256.
Definition wf_buffer (b : Buffer) : Prop := Forall is_byte b.

(** Conversion of a number stored into a [Uint8Array] slot. *)
Definition to_uint8 (v : Z) : Z := v `mod` 256.

(** [Buffer.alloc(n)]: [n] zero bytes. *)
Definition alloc (n : nat) : Buffer := replicate n 0.

(** [buf[i] = v]. *)
Definition store (buf : Buffer) (i : nat) (v : Z) : Buffer :=
  <[i := to_uint8 v]> buf.

(** [buf.slice(start, end)] for non-negative indices. *)
Definition slice (buf : Buffer) (start end_ : nat) : Buffer :=
  take (end_ - start) (drop start buf).

(** [source.copy(target, targetStart, sourceStart, sourceEnd)]; returns the
    updated target.  A [sourceStart] past the end of the source is a
    RangeError; otherwise the number of bytes copied is bounded by the source
    range and by the room left in the target. *)
Definition copy (source target : Buffer)
    (targetStart sourceStart sourceEnd : nat) : outcome Buffer :=
  if decide (length source < sourceStart)%nat
  then Throw (RangeError "The value of sourceStart is out of range")
  else
    let chunk :=
      take (length target - targetStart) (slice source sourceStart sourceEnd) in
    Return (take targetStart target ++ chunk ++ drop (targetStart + length chunk) target).

(** A counted [for (let i = 0; i < n; i++)] loop threading a state. *)
Definition for_upto {S} (n : nat) (body : S → nat → S) (init : S) : S :=
  foldl body init (seq 0 n).

(** A counted [for (let i = n - 1; i >= 0; i--)] loop threading a state. *)
Definition for_downfrom {S} (n : nat) (body : S → nat → S) (init : S) : S :=
  foldl body init (rev (seq 0 n)).

(** The same loops when the body can throw. *)
Fixpoint for_each_m {S} (idx : list nat) (body : S → nat → outcome S) (st : S)
    : outcome S :=
  match idx with
  | [] => Return st
  | i :: rest => st' ← body st i; for_each_m rest body st'
  end.

(** ** Byte-algebra helpers (utils/crypto.ts) *)

(** [xor(bytes1, bytes2)] *)
Definition xor (bytes1 bytes2 : Buffer) : Buffer :=
  let result := alloc (Nat.max (length bytes1) (length bytes2)) in
  for_upto (length result)
    (fun result i =>
       store result i (Z.lxor (default 0 (bytes1 !! i)) (default 0 (bytes2 !! i))))
    result.

(** [shiftLeft(buffer)] *)
Definition shiftLeft (buffer : Buffer) : Buffer :=
  let result := alloc (length buffer) in
  fst (for_downfrom (length buffer)
    (fun '(result, overflow) i =>
       match buffer !! i with
       | Some byte =>
           (store result i (Z.land (Z.lor (Z.shiftl byte 1) overflow) 255),
            Z.shiftr (Z.land byte 128) 7)
       | None => (result, overflow)
       end)
    (result, 0)).

(** ** The block cipher (Node's [crypto] module, 'aes-128-ecb')

    The cipher itself is an external collaborator: the library only relies on
    it mapping a 16-byte block to a 16-byte block of bytes under a 16-byte
    key.  [aes128] below instantiates the interface with AES-128. *)

Class BlockCipher : Type := {
  encryptBlock : Buffer → Buffer → Buffer;   (* key, block *)
  decryptBlock : Buffer → Buffer → Buffer;
  encryptBlock_length key blk :
    length key = 16%nat → length blk = 16%nat →
    length (encryptBlock key blk) = 16%nat;
  decryptBlock_length key blk :
    length key = 16%nat → length blk = 16%nat →
    length (decryptBlock key blk) = 16%nat;
  encryptBlock_bytes key blk :
    length key = 16%nat → length blk = 16%nat →
    wf_buffer (encryptBlock key blk);
  decryptBlock_bytes key blk :
    length key = 16%nat → length blk = 16%nat →
    wf_buffer (decryptBlock key blk);
}.

(** ECB mode: [m] consecutive 16-byte blocks, each through [f]. *)
Fixpoint ecb (f : Buffer → Buffer) (m : nat) (data : Buffer) : Buffer :=
  match m with
  | O => []
  | S m' => f (take 16 data) ++ ecb f m' (drop 16 data)
  end.

(** [crypto.createCipheriv('aes-128-ecb', key, null)] (and
    [createDecipheriv]) throw unless the key has 16 bytes. *)
Definition createCipheriv (key : Buffer) : outcome unit :=
  if decide (length key = 16%nat) then Return ()
  else Throw (CryptoError "Invalid key length").

(** With [setAutoPadding(false)], [Buffer.concat([c.update(data), c.final()])]
    is the block-wise image of [data]; [final] throws unless [data] is a
    whole number of blocks (zero blocks included). *)
Definition cipherRun (f : Buffer → Buffer) (data : Buffer) : outcome Buffer :=
  if decide ((length data `mod` 16)%nat = 0%nat)
  then Return (ecb f (length data / 16)%nat data)
  else Throw (CryptoError "wrong final block length").

Section Library.
Context `{cipher : BlockCipher}.

Definition aesEcbEncrypt (key data : Buffer) : outcome Buffer :=
  _ ← createCipheriv key; cipherRun (encryptBlock key) data.

Definition aesEcbDecrypt (key data : Buffer) : outcome Buffer :=
  _ ← createCipheriv key; cipherRun (decryptBlock key) data.

(** ** CMAC engine (utils/crypto.ts) *)

Record Subkeys : Type := { k1 : Buffer; k2 : Buffer }.

(** [b[0] !== undefined && (b[0] & 0x80)] as a condition. *)
Definition topBitSet (b : Buffer) : bool :=
  match b !! 0%nat with
  | Some b0 => negb (Z.land b0 128 =? 0)
  | None => false
  end.

(** [const rb = Buffer.alloc(16); rb[15] = 0x87;] *)
Definition rb : Buffer := store (alloc 16) 15 135.

(** [generateSubkeys(key)] *)
Definition generateSubkeys (key : Buffer) : outcome Subkeys :=
  l ← aesEcbEncrypt key (alloc 16);
  let k1 := shiftLeft l in
  let k1 := if topBitSet l then xor k1 rb else k1 in
  let k2 := shiftLeft k1 in
  let k2 := if topBitSet k1 then xor k2 rb else k2 in
  mret {| k1 := k1; k2 := k2 |}.

(** [Math.ceil(a / b)] on lengths. *)
Definition ceilDiv (a b : nat) : nat := ((a + b - 1) / b)%nat.

(** [calculateCmac(key, data)] *)
Definition calculateCmac (key data : Buffer) : outcome Buffer :=
  sk ← generateSubkeys key;
  _ ← createCipheriv key;
  let blockSize := 16%nat in
  let n := if (length data =? 0)%nat then 1%nat else ceilDiv (length data) blockSize in
  let lastBlockComplete :=
    negb (length data =? 0)%nat && (length data `mod` blockSize =? 0)%nat in
  let lastBlock := alloc blockSize in
  lastBlock ←
    (if lastBlockComplete then
       let startIndex := ((n - 1) * blockSize)%nat in
       copy data lastBlock 0 startIndex (startIndex + blockSize)
     else
       let startIndex :=
         if (length data =? 0)%nat then 0%nat else ((n - 1) * blockSize)%nat in
       let rem :=
         if (length data =? 0)%nat then 0%nat else (length data - startIndex)%nat in
       lastBlock ←
         (if (0 <? rem)%nat then copy data lastBlock 0 startIndex (startIndex + rem)
          else mret lastBlock);
       mret (store lastBlock rem 128));
  let subkey := if lastBlockComplete then k1 sk else k2 sk in
  let mLast := xor lastBlock subkey in
  let x := alloc blockSize in
  let fullBlocks := (n - 1)%nat in
  x ← for_each_m (seq 0 fullBlocks)
        (fun x i =>
           let block := slice data (i * blockSize) ((i + 1) * blockSize) in
           let y := xor x block in
           aesEcbEncrypt key y)
        x;
  let y := xor x mLast in
  aesEcbEncrypt key y.

(** [truncateCmac(cmac)] *)
Definition truncateCmac (cmac : Buffer) : Buffer :=
  for_upto 8
    (fun result i =>
       match cmac !! (i * 2 + 1)%nat with
       | Some byte => store result i byte
       | None => result
       end)
    (alloc 8).

End Library.

(** ** Strings and hexadecimal text

    JavaScript strings are modelled as strings of 8-bit characters, which
    covers every hexadecimal text; [toUpperCase] is the ASCII case mapping.
    The model is exact on ASCII text ([isAscii]): beyond it JavaScript's
    [toUpperCase] follows the Unicode case mapping, which can change the
    length of a text, and [Buffer.from(s, 'hex')] reads the low byte of a
    16-bit character. *)

(** Value of a hexadecimal digit, [None] for any other character. *)
Definition unhex (c : ascii) : option Z :=
  let n := Z.of_nat (nat_of_ascii c) in
  if (48 <=? n) && (n <=? 57) then Some (n - 48)
  else if (97 <=? n) && (n <=? 102) then Some (n - 87)
  else if (65 <=? n) && (n <=? 70) then Some (n - 55)
  else None.

(** [Buffer.from(s, 'hex')]: pairs of hexadecimal digits are decoded from the
    left; decoding stops, without any error, at the first pair that is not
    two hexadecimal digits, and an odd trailing character is dropped. *)
Fixpoint hexDecode (s : string) : Buffer :=
  match s with
  | String a (String b rest) =>
      match unhex a, unhex b with
      | Some hi, Some lo => (hi * 16 + lo) :: hexDecode rest
      | _, _ => []
      end
  | _ => []
  end.

Definition hexDigit (d : Z) : ascii :=
  default "0"%char (String.get (Z.to_nat d) "0123456789abcdef").

(** [buf.toString('hex')]: two lower-case digits per byte. *)
Fixpoint hexEncode (buf : Buffer) : string :=
  match buf with
  | [] => EmptyString
  | b :: rest =>
      String (hexDigit (Z.shiftr b 4)) (String (hexDigit (Z.land b 15)) (hexEncode rest))
  end.

Definition upperChar (c : ascii) : ascii :=
  let n := nat_of_ascii c in
  if (97 <=? n)%nat && (n <=? 122)%nat then ascii_of_nat (n - 32) else c.

(** [s.toUpperCase()] *)
Fixpoint toUpperCase (s : string) : string :=
  match s with
  | EmptyString => EmptyString
  | String c rest => String (upperChar c) (toUpperCase rest)
  end.

(** A character of upper-case hexadecimal text: a digit or one of A..F. *)
Definition isUpperHexChar (c : ascii) : bool :=
  let n := nat_of_ascii c in
  ((48 <=? n)%nat && (n <=? 57)%nat) || ((65 <=? n)%nat && (n <=? 70)%nat).

Fixpoint isUpperHex (s : string) : bool :=
  match s with
  | EmptyString => true
  | String c rest => isUpperHexChar c && isUpperHex rest
  end.

(** A well-formed hex byte string: an even number of hexadecimal digits and
    nothing else. *)
Fixpoint wellFormedHex (s : string) : bool :=
  match s with
  | EmptyString => true
  | String a (String b rest) =>
      match unhex a, unhex b with
      | Some _, Some _ => wellFormedHex rest
      | _, _ => false
      end
  | String _ EmptyString => false
  end.

(** ** Fixed-width integer accessors of [Buffer] *)

(** [buf.readUIntLE(0, 3)] *)
Definition readUIntLE3 (buf : Buffer) : outcome Z :=
  match buf !! 0%nat, buf !! 1%nat, buf !! 2%nat with
  | Some first, Some mid, Some last => Return (first + mid * 2 ^ 8 + last * 2 ^ 16)
  | _, _, _ => Throw (RangeError "Attempt to access memory outside buffer bounds")
  end.

(** A JavaScript [number]: a finite value, here a rational (every finite
    double is one), NaN, or one of the two infinities.  The counter
    [counterInt] that the library reads with [readUIntLE] is always an
    integer and stays in [Z]. *)
Inductive number : Type :=
  | Finite (q : Q)
  | NaN
  | PosInfinity
  | NegInfinity.

Coercion Finite : Q >-> number.

(** [a < b] and [a > b] on numbers: false as soon as one side is NaN. *)
Definition number_lt (a b : number) : bool :=
  match a, b with
  | NaN, _ => false
  | _, NaN => false
  | Finite x, Finite y => negb (Qle_bool y x)
  | Finite _, PosInfinity => true
  | Finite _, NegInfinity => false
  | PosInfinity, _ => false
  | NegInfinity, NegInfinity => false
  | NegInfinity, _ => true
  end.

Definition number_gt (a b : number) : bool := number_lt b a.

(** The integer part of a finite number, rounded toward zero. *)
Definition truncate (value : Q) : Z := Z.quot (Qnum value) (Z.pos (Qden value)).

(** The integer that the conversions to [Uint8] and [Uint32] start from:
    the integer part of a finite number, and 0 for NaN and the infinities. *)
Definition toInteger (value : number) : Z :=
  match value with
  | Finite q => truncate q
  | _ => 0
  end.

(** [buf.writeUIntBE(value, 0, 3)]; returns the updated buffer.  Node
    checks the value against the range [0, 0xffffff] ([value > max || value
    < min] raises ERR_OUT_OF_RANGE) and nothing else: NaN passes both
    comparisons, and Node documents the behaviour on a non-integer as
    undefined.  What passes is stored through the integer conversions of
    [buf[i] = value] and [value >>> 8]. *)
Definition writeUIntBE3 (buf : Buffer) (value : number) : outcome Buffer :=
  if number_gt value (inject_Z 16777215) || number_lt value (inject_Z 0)
  then Throw (RangeError (outOfRange "value" ">= 0 and <= 16777215"))
  else
    let buf := store buf 2 (toInteger value) in
    let value := Z.shiftr (toInteger value `mod` 2 ^ 32) 8 in
    let buf := store buf 1 value in
    let value := Z.shiftr (value `mod` 2 ^ 32) 8 in
    Return (store buf 0 value).

(** ** Records of types/index.ts *)

Record UidAndCounter : Type := {
  uid : Buffer;
  counter : Buffer;
  uidHex : string;
  counterInt : Z;
}.

(** Both fields are optional in the source. *)
Record SdmSessionVectorOptions : Type := {
  uidMirroring : option bool;
  readCounter : option bool;
}.

(** [SdmAuthResult]; an optional field that is not set is [None].  [method]
    can also be set to [null], here [Some None]. *)
Module SdmAuthResult.
Record t : Type := {
  success : bool;
  uid : option string;
  counter : option Z;
  method : option (option string);
  calculatedCmac : option string;
  providedCmac : option string;
  error : option string;
}.
End SdmAuthResult.

Definition failure (msg : string) : SdmAuthResult.t :=
  {| SdmAuthResult.success := false;
     SdmAuthResult.uid := None;
     SdmAuthResult.counter := None;
     SdmAuthResult.method := None;
     SdmAuthResult.calculatedCmac := None;
     SdmAuthResult.providedCmac := None;
     SdmAuthResult.error := Some msg |}.

(** ** PICC decoder and session keys (utils/ntag424.ts) *)

(** [extractUidAndCounter(decrypted)]; [null] is [None].  A [Buffer] object
    is never falsy, so the [!decrypted] test only passes on the length. *)
Definition extractUidAndCounter (decrypted : Buffer) : outcome (option UidAndCounter) :=
  if (length decrypted <? 10)%nat then mret None
  else
    let slices :=
      if (11 <=? length decrypted)%nat then
        Some (slice decrypted 1 8, slice decrypted 8 11)
      else if (10 <=? length decrypted)%nat then
        Some (slice decrypted 0 7, slice decrypted 7 10)
      else None in
    match slices with
    | None => mret None
    | Some (decryptedUid, decryptedCounter) =>
        let decryptedUidHex := toUpperCase (hexEncode decryptedUid) in
        decryptedCounterInt ← readUIntLE3 decryptedCounter;
        mret (Some {| uid := decryptedUid;
                      counter := decryptedCounter;
                      uidHex := decryptedUidHex;
                      counterInt := decryptedCounterInt |})
    end.

(** The default value of the [options] parameter. *)
Definition defaultOptions : SdmSessionVectorOptions :=
  {| uidMirroring := Some true; readCounter := Some true |}.

(** [generateSdmSessionVector(purpose, uid, readCtr, options)]; an omitted
    [options] argument is [None]. *)
Definition generateSdmSessionVector (purpose uid : Buffer) (readCtr : number)
    (options : option SdmSessionVectorOptions) : outcome Buffer :=
  let options := default defaultOptions options in
  let uidMirroring := default true (uidMirroring options) in
  let readCounter := default true (readCounter options) in
  rc ← writeUIntBE3 (alloc 3) readCtr;
  let rc := rev rc in
  let vec := purpose ++ [0; 1; 0; 128] in
  let vec :=
    if bool_decide (purpose = [195; 60]) then vec ++ uid ++ rc
    else if bool_decide (purpose = [60; 195]) then
      let vec := if uidMirroring then vec ++ uid else vec in
      let vec := if readCounter then vec ++ rc else vec in
      vec
    else vec in
  mret vec.

Section Ntag424.
Context `{cipher : BlockCipher}.

(** [decryptPiccData(piccData, sdmKey)]: any exception of the cipher is
    caught (and logged) and turned into [null]. *)
Definition decryptPiccData (piccData sdmKey : Buffer) : option Buffer :=
  match aesEcbDecrypt sdmKey piccData with
  | Return decrypted => Some decrypted
  | Throw _ => None
  end.

(** [generateSdmSessionKey(fileReadKey, purpose, uid, readCtr, options)] *)
Definition generateSdmSessionKey (fileReadKey purpose uid : Buffer) (readCtr : number)
    (options : option SdmSessionVectorOptions) : outcome Buffer :=
  sessionVector ← generateSdmSessionVector purpose uid readCtr options;
  if (length sessionVector <? 16)%nat then
    let padding := alloc (16 - length sessionVector) in
    calculateCmac fileReadKey (sessionVector ++ padding)
  else calculateCmac fileReadKey sessionVector.

(** ** The verifier (index.ts) *)

(** Truthiness of an optional string: [undefined] and [''] are falsy. *)
Definition truthy (s : option string) : bool :=
  match s with
  | Some s => negb (String.eqb s "")
  | None => false
  end.

(** The body of the [try] block of [verifySdmAuth]; [env] is the value of
    [process.env['NTAG424_SDM_KEY']]. *)
Definition verifySdmAuth_body (env : option string)
    (piccDataHex providedCmacHex : string) (sdmKeyHex : option string)
    : outcome SdmAuthResult.t :=
  let sdmKeyHex := if truthy sdmKeyHex then sdmKeyHex else env in
  if negb (truthy sdmKeyHex) then mret (failure "SDM key not configured")
  else
    let piccData := hexDecode piccDataHex in
    let providedCmac := toUpperCase providedCmacHex in
    let sdmKey := hexDecode (default "" sdmKeyHex) in
    match decryptPiccData piccData sdmKey with
    | None => mret (failure "PICC data decryption failed")
    | Some decrypted =>
        cmacData ← extractUidAndCounter decrypted;
        match cmacData with
        | None => mret (failure "Failed to extract UID and counter")
        | Some cmacData =>
            let SESSION_MAC_KEY_PURPOSE := [60; 195] in
            sessionMacKey ← generateSdmSessionKey sdmKey SESSION_MAC_KEY_PURPOSE
                               (uid cmacData) (inject_Z (counterInt cmacData))
                               (Some {| uidMirroring := Some true; readCounter := Some true |});
            fullCmac ← calculateCmac sessionMacKey (alloc 0);
            let truncCmac := truncateCmac fullCmac in
            let calculatedCmac := toUpperCase (hexEncode truncCmac) in
            let isValid := String.eqb calculatedCmac providedCmac in
            mret {| SdmAuthResult.success := isValid;
                    SdmAuthResult.uid := Some (uidHex cmacData);
                    SdmAuthResult.counter := Some (counterInt cmacData);
                    SdmAuthResult.method :=
                      Some (if isValid then Some "Full mirroring with empty data" else None);
                    SdmAuthResult.calculatedCmac := Some calculatedCmac;
                    SdmAuthResult.providedCmac := Some providedCmac;
                    SdmAuthResult.error := None |}
        end
    end.

(** [verifySdmAuth(piccDataHex, providedCmacHex, sdmKeyHex?)]: an exception
    escaping the body is caught and reported in the [error] field. *)
Definition verifySdmAuth (env : option string)
    (piccDataHex providedCmacHex : string) (sdmKeyHex : option string)
    : SdmAuthResult.t :=
  match verifySdmAuth_body env piccDataHex providedCmacHex sdmKeyHex with
  | Return result => result
  | Throw e => failure (message e)
  end.

End Ntag424.

(** ** AES-128 (FIPS 197), the cipher behind 'aes-128-ecb'

    The state is the 16-byte block in input order: byte [r + 4c] is row [r]
    of column [c]. *)

Module AES128.

Definition byteAt (s : Buffer) (i : nat) : Z := default 0 (s !! i).

(** XOR of two bytes. *)
Definition bxor (a b : Z) : Z := Z.land (Z.lxor a b) 255.

(** Multiplication by x in GF(2^8) modulo x^8 + x^4 + x^3 + x + 1. *)
Definition xtime (a : Z) : Z :=
  bxor (Z.shiftl a 1) (if Z.testbit a 7 then 27 else 0).

Fixpoint gmulAux (bits : nat) (a b : Z) : Z :=
  match bits with
  | O => 0
  | S bits' =>
      bxor (if Z.odd b then a else 0) (gmulAux bits' (xtime a) (Z.shiftr b 1))
  end.

(** Multiplication in GF(2^8). *)
Definition gmul (a b : Z) : Z := gmulAux 8 a b.

Fixpoint gpow (a : Z) (e : nat) : Z :=
  match e with
  | O => 1
  | S e' => gmul a (gpow a e')
  end.

(** Rotation of a byte to the left. *)
Definition rotl8 (a : Z) (k : Z) : Z :=
  Z.land (Z.lor (Z.shiftl a k) (Z.shiftr a (8 - k))) 255.

(** An S-box entry: the inverse in GF(2^8), then the affine map. *)
Definition sboxEntry (a : Z) : Z :=
  let b := gpow a 254 in
  bxor (bxor (bxor (bxor (bxor b (rotl8 b 1)) (rotl8 b 2)) (rotl8 b 3)) (rotl8 b 4)) 99.

Definition sbox : list Z :=
  Eval vm_compute in map (fun i => sboxEntry (Z.of_nat i)) (seq 0 256).

Definition invSboxEntry (y : Z) : Z :=
  default 0 ((fun p => Z.of_nat (fst p)) <$> list_find (fun v => v = y) sbox).

Definition invSbox : list Z :=
  Eval vm_compute in map (fun i => invSboxEntry (Z.of_nat i)) (seq 0 256).

Definition subByte (a : Z) : Z := default 0 (sbox !! Z.to_nat a).
Definition invSubByte (a : Z) : Z := default 0 (invSbox !! Z.to_nat a).

(** A state transformation given byte by byte. *)
Definition build (f : nat → Z) : Buffer := map f (seq 0 16).

Definition subBytes (s : Buffer) : Buffer := build (fun i => subByte (byteAt s i)).
Definition invSubBytes (s : Buffer) : Buffer := build (fun i => invSubByte (byteAt s i)).

(** Row [r] is rotated left by [r] columns. *)
Definition shiftRows (s : Buffer) : Buffer :=
  build (fun i => let r := (i mod 4)%nat in let c := (i / 4)%nat in
                  byteAt s (r + 4 * ((c + r) mod 4))).

Definition invShiftRows (s : Buffer) : Buffer :=
  build (fun i => let r := (i mod 4)%nat in let c := (i / 4)%nat in
                  byteAt s (r + 4 * ((c + 4 - r) mod 4))).

(** Each column is multiplied by the circulant matrix of [coef]. *)
Definition mixWith (coef : list Z) (s : Buffer) : Buffer :=
  build (fun i => let r := (i mod 4)%nat in let c := (i / 4)%nat in
    foldr bxor 0
      (map (fun j => gmul (byteAt coef ((j + 4 - r) mod 4)) (byteAt s (j + 4 * c)))
           (seq 0 4))).

Definition mixColumns : Buffer → Buffer := mixWith [2; 3; 1; 1].
Definition invMixColumns : Buffer → Buffer := mixWith [14; 11; 13; 9].

Definition addRoundKey (s rk : Buffer) : Buffer :=
  build (fun i => bxor (byteAt s i) (byteAt rk i)).

(** The next round key from the previous one and the round constant. *)
Definition nextRoundKey (rk : Buffer) (rcon : Z) : Buffer :=
  let t := [bxor (subByte (byteAt rk 13)) rcon; subByte (byteAt rk 14);
            subByte (byteAt rk 15); subByte (byteAt rk 12)] in
  let w0 := map (fun i => bxor (byteAt rk i) (byteAt t i)) (seq 0 4) in
  let w1 := map (fun i => bxor (byteAt rk (4 + i)) (byteAt w0 i)) (seq 0 4) in
  let w2 := map (fun i => bxor (byteAt rk (8 + i)) (byteAt w1 i)) (seq 0 4) in
  let w3 := map (fun i => bxor (byteAt rk (12 + i)) (byteAt w2 i)) (seq 0 4) in
  w0 ++ w1 ++ w2 ++ w3.

Definition rcons : list Z := [1; 2; 4; 8; 16; 32; 64; 128; 27; 54].

(** The eleven round keys, first to last. *)
Definition keySchedule (key : Buffer) : list Buffer :=
  rev (foldl (fun acc rcon =>
                match acc with
                | rk :: _ => nextRoundKey rk rcon :: acc
                | [] => acc
                end) [key] rcons).

Definition roundKey (ks : list Buffer) (r : nat) : Buffer := default [] (ks !! r).

Definition encryptBlock (key blk : Buffer) : Buffer :=
  let ks := keySchedule key in
  let s := addRoundKey blk (roundKey ks 0) in
  let s := foldl (fun s r =>
                    addRoundKey (mixColumns (shiftRows (subBytes s))) (roundKey ks r))
                 s (seq 1 9) in
  addRoundKey (shiftRows (subBytes s)) (roundKey ks 10).

Definition decryptBlock (key blk : Buffer) : Buffer :=
  let ks := keySchedule key in
  let s := addRoundKey blk (roundKey ks 10) in
  let s := foldl (fun s r =>
                    invMixColumns (addRoundKey (invSubBytes (invShiftRows s)) (roundKey ks r)))
                 s (rev (seq 1 9)) in
  addRoundKey (invSubBytes (invShiftRows s)) (roundKey ks 0).

End AES128.

(** ** The documented algorithms

    The definitions of this part follow the wording of the documentation;
    the properties below compare them with the code. *)

(** The 16-byte all-zero block. *)
Definition zeroBlock : Buffer := replicate 16 0.

(** The constant 0x00...0087: fifteen zero bytes, then 0x87. *)
Definition Rb : Buffer := replicate 15 0 ++ [135].

(** The top bit of a block: bit 7 of its first byte. *)
Definition topBit (b : Buffer) : bool := Z.testbit (default 0 (b !! 0%nat)) 7.

(** The final partial block, one 0x80 byte, then zero-fill to 16 bytes. *)
Definition padBlock (partial : Buffer) : Buffer :=
  partial ++ [128] ++ replicate (15 - length partial) 0.

(** The first [m] 16-byte blocks of [data]. *)
Fixpoint splitBlocks (m : nat) (data : Buffer) : list Buffer :=
  match m with
  | O => []
  | S m' => take 16 data :: splitBlocks m' (drop 16 data)
  end.

Section Documented.
Context `{cipher : BlockCipher}.

(** K1 and K2 of the documentation, from L = Encrypt(0^128). *)
Definition subkeysSpec (key : Buffer) : Buffer * Buffer :=
  let L := encryptBlock key zeroBlock in
  let K1 := if topBit L then xor (shiftLeft L) Rb else shiftLeft L in
  let K2 := if topBit K1 then xor (shiftLeft K1) Rb else shiftLeft K1 in
  (K1, K2).

(** The CMAC of the documentation: the adjusted last block, the chain over
    the [n - 1] blocks before it, and the final encryption. *)
Definition cmacSpec (key data : Buffer) : Buffer :=
  let '(K1, K2) := subkeysSpec key in
  let n := match data with [] => 1%nat | _ => ceilDiv (length data) 16 end in
  let lastBlock :=
    if bool_decide (data ≠ [] ∧ (length data `mod` 16 = 0)%nat)
    then xor (drop (length data - 16) data) K1
    else xor (padBlock (drop ((n - 1) * 16) data)) K2 in
  let X := foldl (fun X block => encryptBlock key (xor X block))
                 zeroBlock (splitBlocks (n - 1) data) in
  encryptBlock key (xor X lastBlock).

End Documented.

(** The 3-byte big-endian encoding of a counter. *)
Definition bigEndian3 (v : Z) : Buffer :=
  [(v / 65536) `mod` 256; (v / 256) `mod` 256; v `mod` 256].

(** The flags [generateSdmSessionVector] works with: an omitted [options]
    argument and an omitted field both mean [true]. *)
Definition mirrorsUid (options : option SdmSessionVectorOptions) : bool :=
  default true (uidMirroring (default defaultOptions options)).
Definition mirrorsCounter (options : option SdmSessionVectorOptions) : bool :=
  default true (readCounter (default defaultOptions options)).

(** The numbers inside the range of three bytes. *)
Definition inCounterRange (value : number) : Prop :=
  match value with
  | Finite q => (inject_Z 0 <= q)%Q ∧ (q <= inject_Z 16777215)%Q
  | _ => False
  end.

(** The numbers outside of it, below or above: NaN is neither. *)
Definition outsideCounterRange (value : number) : Prop :=
  match value with
  | Finite q => (q < inject_Z 0)%Q ∨ (inject_Z 16777215 < q)%Q
  | NaN => False
  | PosInfinity | NegInfinity => True
  end.

(** The numbers [writeUIntBE] lets through for three bytes: those in range,
    and NaN, which no comparison rejects. *)
Definition passesRangeCheck (value : number) : Prop :=
  value = NaN ∨ inCounterRange value.

#[global] Instance Qle_decision (x y : Q) : Decision (x <= y)%Q.
Proof.
  destruct (Qlt_le_dec y x) as [Hlt|Hle]; [right; by apply Qlt_not_le|by left].
Defined.

#[global] Instance inCounterRange_dec value : Decision (inCounterRange value).
Proof. destruct value; unfold inCounterRange; apply _. Defined.

#[global] Instance passesRangeCheck_dec value : Decision (passesRangeCheck value).
Proof.
  destruct value as [q| | |];
    [destruct (decide (inCounterRange q)) as [H|H];
       [left; by right|right; by intros [?|?]]
    |left; by left
    |right; by intros [?|?]
    |right; by intros [?|?]].
Defined.

(** Text within ASCII. *)
Definition isAsciiChar (c : ascii) : bool := (nat_of_ascii c <? 128)%nat.

Fixpoint isAscii (s : string) : bool :=
  match s with
  | EmptyString => true
  | String c rest => isAsciiChar c && isAscii rest
  end.

(** What [extractUidAndCounter] returns once the UID is the seven bytes from
    [from] and the counter the next three. *)
Definition extracted (decrypted : Buffer) (from : nat) (r : UidAndCounter) : Prop :=
  uid r = take 7 (drop from decrypted)
  ∧ counter r = take 3 (drop (from + 7) decrypted)
  ∧ (∃ c0 c1 c2, counter r = [c0; c1; c2] ∧ counterInt r = c0 + c1 * 256 + c2 * 65536)
  ∧ uidHex r = toUpperCase (hexEncode (uid r))
  ∧ isUpperHex (uidHex r) = true
  ∧ String.length (uidHex r) = 14%nat.

(** The key the verifier works with: the argument, or else the environment
    variable. *)
Definition resolvedKey (env sdmKeyHex : option string) : option string :=
  if truthy sdmKeyHex then sdmKeyHex else env.

(** The inputs on which the verifier gets as far as comparing CMACs. *)
Definition comparisonReached (env : option string) (piccDataHex : string)
    (sdmKeyHex : option string) : Prop :=
  truthy (resolvedKey env sdmKeyHex) = true
  ∧ length (hexDecode (default "" (resolvedKey env sdmKeyHex))) = 16%nat
  ∧ (length (hexDecode piccDataHex) `mod` 16 = 0)%nat
  ∧ (10 ≤ length (hexDecode piccDataHex))%nat.

#[global] Instance comparisonReached_dec env piccDataHex sdmKeyHex :
  Decision (comparisonReached env piccDataHex sdmKeyHex).
Proof. unfold comparisonReached. apply _. Defined.

(** ** Parts of [calculateCmac]

    The block count, the completeness test and the last block that
    [calculateCmac] computes before it looks at the subkeys, under names of
    their own. *)

Definition blockCount (data : Buffer) : nat :=
  if (length data =? 0)%nat then 1%nat else ceilDiv (length data) 16.

Definition isComplete (data : Buffer) : bool :=
  negb (length data =? 0)%nat && (length data `mod` 16 =? 0)%nat.

Definition lastBlockOf (data : Buffer) : outcome Buffer :=
  let n := blockCount data in
  if isComplete data then
    copy data (alloc 16) 0 ((n - 1) * 16) ((n - 1) * 16 + 16)
  else
    let startIndex := if (length data =? 0)%nat then 0%nat else ((n - 1) * 16)%nat in
    let rem := if (length data =? 0)%nat then 0%nat else (length data - startIndex)%nat in
    lastBlock ←
      (if (0 <? rem)%nat then copy data (alloc 16) 0 startIndex (startIndex + rem)
       else mret (alloc 16));
    mret (store lastBlock rem 128).

(** ** Buffers as integers

    Auxiliary readings of a buffer, used to state what the byte helpers of
    utils/crypto.ts compute. *)

(** The big-endian integer a buffer spells. *)
Definition beValue (buf : Buffer) : Z := foldl (fun acc b => acc * 256 + b) 0 buf.

(** [shiftLeft] by recursion on the buffer: the shifted tail and the bit
    carried out of its first byte. *)
Fixpoint shiftLeftCarry (buf : Buffer) : Buffer * Z :=
  match buf with
  | [] => ([], 0)
  | byte :: rest =>
      let '(shifted, overflow) := shiftLeftCarry rest in
      (to_uint8 (Z.land (Z.lor (Z.shiftl byte 1) overflow) 255) :: shifted,
       Z.shiftr (Z.land byte 128) 7)
  end.

(** Doubling in GF(2^128) with the reduction constant 0x87. *)
Definition gfDouble (v : Z) : Z :=
  Z.lxor ((2 * v) `mod` 2 ^ 128) (if 2 ^ 127 <=? v then 135 else 0).

(** The 256 bytes. *)
Definition allBytes : list Z := map Z.of_nat (seq 0 256).

(** * The command-line tool (cli/index.ts)

    The tool writes to the console and ends the process with an exit code.
    A computation of the tool takes the console so far and gives the console
    afterwards together with either a value or the exit code the process
    ended with; nothing runs after [process.exit]. *)

Module Cli.

Record CliOptions : Type := {
  piccData : string;
  cmac : string;
  sdmKey : option string;   (* [undefined] is [None] *)
  verbose : bool;
  help : bool
}.

(** The texts the tool writes with [console.log] and with [console.error],
    one entry per call, oldest first.  What the library functions it calls
    write to stderr on their own ([decryptPiccData] reports a failed
    decryption there) is not part of [stderr]. *)
Record Console : Type := { stdout : list string; stderr : list string }.

Inductive step (A : Type) : Type :=
  | Next (a : A)
  | Exited (code : Z).
Arguments Next {A} a.
Arguments Exited {A} code.

Definition proc (A : Type) : Type := Console → Console * step A.

#[global] Instance proc_ret : MRet proc := fun A a c => (c, Next a).
#[global] Instance proc_bind : MBind proc := fun A B f m c =>
  match m c with
  | (c', Next a) => f a c'
  | (c', Exited code) => (c', Exited code)
  end.

Definition console_log (text : string) : proc unit :=
  fun c => ({| stdout := stdout c ++ [text]; stderr := stderr c |}, Next ()).

Definition console_error (text : string) : proc unit :=
  fun c => ({| stdout := stdout c; stderr := stderr c ++ [text] |}, Next ()).

Definition process_exit {A : Type} (code : Z) : proc A :=
  fun c => (c, Exited code).

(** [if (b) { m }] *)
Definition when (b : bool) (m : proc unit) : proc unit :=
  if b then m else mret ().

(** Truthiness of a string: only [''] is falsy. *)
Definition nonEmpty (s : string) : bool := negb (String.eqb s "").

(** [parseArgs()]: the loop over [args = process.argv.slice(2)].  The index
    [i] of the source is the position of the list that is left; [args[++i]]
    takes the next element, [undefined] when there is none. *)
Fixpoint parseArgs_loop (options : CliOptions) (args : list string) : proc CliOptions :=
  match args with
  | [] => mret options
  | arg :: rest =>
      if String.eqb arg "--picc-data" || String.eqb arg "-p" then
        match rest with
        | value :: rest' =>
            parseArgs_loop {| piccData := value; cmac := cmac options;
                              sdmKey := sdmKey options; verbose := verbose options;
                              help := help options |} rest'
        | [] => mret {| piccData := ""; cmac := cmac options;
                        sdmKey := sdmKey options; verbose := verbose options;
                        help := help options |}
        end
      else if String.eqb arg "--cmac" || String.eqb arg "-c" then
        match rest with
        | value :: rest' =>
            parseArgs_loop {| piccData := piccData options; cmac := value;
                              sdmKey := sdmKey options; verbose := verbose options;
                              help := help options |} rest'
        | [] => mret {| piccData := piccData options; cmac := "";
                        sdmKey := sdmKey options; verbose := verbose options;
                        help := help options |}
        end
      else if String.eqb arg "--sdm-key" || String.eqb arg "-k" then
        match rest with
        | value :: rest' =>
            parseArgs_loop {| piccData := piccData options; cmac := cmac options;
                              sdmKey := Some value; verbose := verbose options;
                              help := help options |} rest'
        | [] => mret {| piccData := piccData options; cmac := cmac options;
                        sdmKey := None; verbose := verbose options;
                        help := help options |}
        end
      else if String.eqb arg "--verbose" || String.eqb arg "-v" then
        parseArgs_loop {| piccData := piccData options; cmac := cmac options;
                          sdmKey := sdmKey options; verbose := true;
                          help := help options |} rest
      else if String.eqb arg "--help" || String.eqb arg "-h" then
        parseArgs_loop {| piccData := piccData options; cmac := cmac options;
                          sdmKey := sdmKey options; verbose := verbose options;
                          help := true |} rest
      else if nonEmpty arg && String.prefix "-" arg then
        _ ← console_error ("Unknown option: " ++ arg)%string;
        process_exit 1
      else parseArgs_loop options rest
  end.

Definition parseArgs (args : list string) : proc CliOptions :=
  parseArgs_loop {| piccData := ""; cmac := ""; sdmKey := None;
                    verbose := false; help := false |} args.

Definition helpText : string :=
"
NTAG424 SDM Authentication CLI

Usage: ntag424-cli [options]

Options:
  -p, --picc-data <hex>    PICC data as hex string (required)
  -c, --cmac <hex>         CMAC as hex string (required)
  -k, --sdm-key <hex>      SDM key as hex string (optional, uses NTAG424_SDM_KEY env var)
  -v, --verbose            Show detailed output
  -h, --help               Show this help message

Environment Variables:
  NTAG424_SDM_KEY          Default SDM key (32-character hex string)

Examples:
  ntag424-cli -p 1234567890ABCDEF1234567890ABCDEF -c 1234567890ABCDEF
  ntag424-cli --picc-data 1234567890ABCDEF1234567890ABCDEF --cmac 1234567890ABCDEF --verbose
  NTAG424_SDM_KEY=00000000000000000000000000000000 ntag424-cli -p 1234567890ABCDEF1234567890ABCDEF -c 1234567890ABCDEF

Exit Codes:
  0  Authentication successful
  1  Authentication failed or error occurred
".

Definition showHelp : proc unit := console_log helpText.

(** The character classes of [/^[0-9A-Fa-f]+$/]. *)
Definition isHexChar (c : ascii) : bool :=
  let n := nat_of_ascii c in
  ((48 <=? n)%nat && (n <=? 57)%nat) || ((65 <=? n)%nat && (n <=? 70)%nat)
  || ((97 <=? n)%nat && (n <=? 102)%nat).

Fixpoint allHexChars (s : string) : bool :=
  match s with
  | EmptyString => true
  | String c rest => isHexChar c && allHexChars rest
  end.

(** [/^[0-9A-Fa-f]+$/.test(value)]: one hexadecimal digit or more, and
    nothing else. *)
Definition isHexText (value : string) : bool := nonEmpty value && allHexChars value.

Definition validateHexString (value name : string) : proc bool :=
  if negb (isHexText value) then
    _ ← console_error ("Error: " ++ name ++ " must be a valid hex string")%string;
    mret false
  else mret true.

(** Template literals: how [${v}] prints a value that may be [undefined] or
    [null]. *)
Definition showString (v : option string) : string := default "undefined" v.
Definition showNumber (v : option Z) : string := from_option pretty "undefined" v.
Definition showNullable (v : option (option string)) : string :=
  match v with
  | None => "undefined"
  | Some None => "null"
  | Some (Some s) => s
  end.
Definition showBool (b : bool) : string := if b then "true" else "false".

Section Main.
Context `{cipher : BlockCipher}.

(** [main()], given the value of the environment variable NTAG424_SDM_KEY
    and the command-line arguments. *)
Definition main (env : option string) (args : list string) : proc unit :=
  options ← parseArgs args;
  _ ← when (help options) (_ ← showHelp; process_exit 0);
  _ ← when (negb (nonEmpty (piccData options)))
        (_ ← console_error "Error: --picc-data is required";
         _ ← console_error "Use --help for usage information";
         process_exit 1);
  _ ← when (negb (nonEmpty (cmac options)))
        (_ ← console_error "Error: --cmac is required";
         _ ← console_error "Use --help for usage information";
         process_exit 1);
  valid ← validateHexString (piccData options) "PICC data";
  _ ← when (negb valid) (process_exit 1);
  valid ← validateHexString (cmac options) "CMAC";
  _ ← when (negb valid) (process_exit 1);
  invalid ← match sdmKey options with
            | Some key =>
                if nonEmpty key then
                  valid ← validateHexString key "SDM key"; mret (negb valid)
                else mret false
            | None => mret false
            end;
  _ ← when invalid (process_exit 1);
  _ ← when (negb (truthy (sdmKey options)) && negb (truthy env))
        (_ ← console_error
               "Error: SDM key not provided and NTAG424_SDM_KEY environment variable not set";
         _ ← console_error
               "Use --sdm-key option or set NTAG424_SDM_KEY environment variable";
         process_exit 1);
  _ ← when (verbose options)
        (_ ← console_log "NTAG424 SDM Authentication";
         _ ← console_log "==========================";
         _ ← console_log "";
         _ ← console_log "Input:";
         _ ← console_log ("  PICC Data: " ++ toUpperCase (piccData options))%string;
         _ ← console_log ("  CMAC:      " ++ toUpperCase (cmac options))%string;
         _ ← console_log ("  SDM Key:   " ++
                           (if truthy (sdmKey options) then default "" (sdmKey options)
                            else if truthy env then default "" env
                            else "Not set"))%string;
         console_log "");
  let result := verifySdmAuth env (piccData options) (cmac options) (sdmKey options) in
  _ ← (if verbose options then
         _ ← console_log "Result:";
         _ ← console_log ("  Success: " ++ showBool (SdmAuthResult.success result))%string;
         _ ← (if SdmAuthResult.success result then
                _ ← console_log ("  UID: " ++ showString (SdmAuthResult.uid result))%string;
                _ ← console_log
                      ("  Counter: " ++ showNumber (SdmAuthResult.counter result))%string;
                console_log ("  Method: " ++ showNullable (SdmAuthResult.method result))%string
              else
                console_log ("  Error: " ++ showString (SdmAuthResult.error result))%string);
         _ ← console_log "";
         _ ← console_log "CMAC Comparison:";
         _ ← console_log
               ("  Calculated: " ++ showString (SdmAuthResult.calculatedCmac result))%string;
         _ ← console_log
               ("  Provided:   " ++ showString (SdmAuthResult.providedCmac result))%string;
         console_log
           ("  Match:      " ++
            showBool (bool_decide (SdmAuthResult.calculatedCmac result
                                   = SdmAuthResult.providedCmac result)))%string
       else if SdmAuthResult.success result then
         _ ← console_log "✓ Authentication successful";
         console_log ("UID: " ++ showString (SdmAuthResult.uid result) ++ ", Counter: "
                        ++ showNumber (SdmAuthResult.counter result))%string
       else
         _ ← console_log "✗ Authentication failed";
         console_log ("Error: " ++ showString (SdmAuthResult.error result))%string);
  process_exit (if SdmAuthResult.success result then 0 else 1).

End Main.

Definition console0 : Console := {| stdout := []; stderr := [] |}.

(** A whole run, from an empty console: what was written, and the exit code
    (0 when the program ends without calling [process.exit]). *)
Definition run (m : proc unit) : Console * Z :=
  let '(c, r) := m console0 in
  (c, match r with Exited code => code | Next _ => 0 end).

(** The console after further texts on stdout, or on stderr. *)
Definition logged (c : Console) (texts : list string) : Console :=
  {| stdout := stdout c ++ texts; stderr := stderr c |}.
Definition complained (c : Console) (texts : list string) : Console :=
  {| stdout := stdout c; stderr := stderr c ++ texts |}.

(** The options of the [switch] of [parseArgs]. *)
Definition knownOptions : list string :=
  ["--picc-data"; "-p"; "--cmac"; "-c"; "--sdm-key"; "-k";
   "--verbose"; "-v"; "--help"; "-h"].

End Cli.

(** * Properties *)

(** ** The AES-128 instance of the cipher *)

Lemma build_length f : length (AES128.build f) = 16%nat.
Proof. reflexivity. Qed.

Lemma bxor_byte a b : is_byte (AES128.bxor a b).
Proof.
  unfold is_byte, AES128.bxor. change 255 with (Z.ones 8).
  rewrite Z.land_ones by lia. pose proof (Z.mod_pos_bound (Z.lxor a b) (2 ^ 8)). lia.
Qed.

Lemma addRoundKey_bytes s rk : wf_buffer (AES128.addRoundKey s rk).
Proof.
  unfold wf_buffer, AES128.addRoundKey, AES128.build. apply Forall_forall. intros x Hx.
  apply list_elem_of_In, in_map_iff in Hx. destruct Hx as (i & <- & _). apply bxor_byte.
Qed.

#[global] Program Instance aes128 : BlockCipher := {|
  encryptBlock := AES128.encryptBlock;
  decryptBlock := AES128.decryptBlock;
|}.
Next Obligation. intros. apply build_length. Qed.
Next Obligation. intros. apply build_length. Qed.
Next Obligation. intros. apply addRoundKey_bytes. Qed.
Next Obligation. intros. apply addRoundKey_bytes. Qed.

Example xor_equal_length : xor [1; 2; 3] [4; 5; 6] = [5; 7; 5].
Proof. reflexivity. Qed.
Example xor_different_length : xor [1; 2] [4; 5; 6] = [5; 7; 6].
Proof. reflexivity. Qed.
Example shiftLeft_ex1 : shiftLeft [128; 1; 2] = [0; 2; 4].
Proof. reflexivity. Qed.
Example shiftLeft_ex2 : shiftLeft [255; 128] = [255; 0].
Proof. reflexivity. Qed.
Example shiftLeft_empty : shiftLeft [] = [].
Proof. reflexivity. Qed.
Example truncateCmac_ex :
  truncateCmac [18;52;86;120;144;171;205;239;18;52;86;120;144;171;205;239]
  = [52;120;171;239;52;120;171;239].
Proof. reflexivity. Qed.

(** FIPS 197, Appendix C.1. *)
Example aes128_fips197 :
  AES128.encryptBlock (map Z.of_nat (seq 0 16))
    (hexDecode "00112233445566778899aabbccddeeff")
  = hexDecode "69c4e0d86a7b0430d8cdb78070b4c55a".
Proof. vm_compute. reflexivity. Qed.

Example aes128_fips197_inverse :
  AES128.decryptBlock (map Z.of_nat (seq 0 16))
    (hexDecode "69c4e0d86a7b0430d8cdb78070b4c55a")
  = hexDecode "00112233445566778899aabbccddeeff".
Proof. vm_compute. reflexivity. Qed.

(** ** Loops and buffers *)

Lemma foldl_invariant {S I} (P : S → Prop) (body : S → I → S) (idx : list I) (init : S) :
  P init → (∀ s i, P s → P (body s i)) → P (foldl body init idx).
Proof.
  intros Hinit Hstep. revert init Hinit.
  induction idx as [|i idx IH]; intros init Hinit; simpl; auto.
Qed.

Lemma alloc_length n : length (alloc n) = n.
Proof. apply length_replicate. Qed.

Lemma store_length buf i v : length (store buf i v) = length buf.
Proof. apply length_insert. Qed.

Lemma slice_take_drop buf start len :
  slice buf start (start + len) = take len (drop start buf).
Proof. unfold slice. f_equal. lia. Qed.

Lemma to_uint8_byte v : is_byte v → to_uint8 v = v.
Proof. unfold is_byte, to_uint8. intros. apply Z.mod_small. lia. Qed.

Lemma to_uint8_is_byte v : is_byte (to_uint8 v).
Proof. unfold is_byte, to_uint8. pose proof (Z.mod_pos_bound v 256). lia. Qed.

(** A loop that writes [g i] at every index [i] of [idx]. *)
Lemma foldl_store_lookup (g : nat → Z) (idx : list nat) (init : Buffer) (j : nat) :
  foldl (fun r i => store r i (g i)) init idx !! j =
  if decide (j ∈ idx ∧ (j < length init)%nat) then Some (to_uint8 (g j)) else init !! j.
Proof.
  revert init. induction idx as [|i idx IH]; intros init; cbn [foldl].
  - destruct (decide _) as [[H _]|_]; [|done]. by apply elem_of_nil in H.
  - rewrite IH, store_length. unfold store.
    destruct (decide (j = i)) as [->|Hne].
    + destruct (decide (i < length init)%nat) as [Hlt|Hge].
      * rewrite list_lookup_insert_eq by done.
        destruct (decide (i ∈ idx ∧ _)) as [Ha|Ha], (decide (i ∈ i :: idx ∧ _)) as [Hb|Hb];
          try done; exfalso; apply Hb; (split; [apply list_elem_of_here|done]).
      * rewrite list_insert_ge by lia.
        destruct (decide (i ∈ idx ∧ _)) as [Ha|Ha], (decide (i ∈ i :: idx ∧ _)) as [Hb|Hb];
          try done; lia.
    + rewrite list_lookup_insert_ne by done.
      destruct (decide (j ∈ idx ∧ _)) as [Ha|Ha], (decide (j ∈ i :: idx ∧ _)) as [Hb|Hb];
        try done; exfalso.
      * apply Hb. destruct Ha. split; [by apply list_elem_of_further|done].
      * apply Ha. destruct Hb as [Hb ?]. apply elem_of_cons in Hb as [?|?]; done.
Qed.

Lemma xor_length a b : length (xor a b) = Nat.max (length a) (length b).
Proof.
  unfold xor, for_upto.
  apply (foldl_invariant (fun r : Buffer => length r = Nat.max (length a) (length b))).
  - apply alloc_length.
  - intros s i Hs. by rewrite store_length.
Qed.

(** Byte [i] of [xor a b] is the XOR of the bytes at [i], a missing byte
    counting as zero. *)
Lemma xor_lookup a b i :
  (i < Nat.max (length a) (length b))%nat →
  xor a b !! i = Some (to_uint8 (Z.lxor (default 0 (a !! i)) (default 0 (b !! i)))).
Proof.
  intros Hi. unfold xor, for_upto.
  rewrite (foldl_store_lookup (fun i => Z.lxor (default 0 (a !! i)) (default 0 (b !! i)))).
  rewrite !alloc_length. case_decide as H; [done|].
  exfalso. apply H. split; [|done]. apply elem_of_seq. lia.
Qed.

Lemma xor_bytes a b : wf_buffer (xor a b).
Proof.
  apply Forall_lookup. intros i x Hx.
  assert (i < Nat.max (length a) (length b))%nat as Hi.
  { rewrite <- xor_length. by eapply lookup_lt_Some. }
  rewrite xor_lookup in Hx by done. injection Hx as <-. apply to_uint8_is_byte.
Qed.

(** [xor] of a buffer with itself is all zero. *)
Lemma xor_self a : xor a a = replicate (length a) 0.
Proof.
  apply list_eq. intros i. destruct (decide (i < length a)%nat) as [Hi|Hi].
  - rewrite xor_lookup by lia. rewrite Z.lxor_nilpotent.
    by rewrite lookup_replicate_2.
  - rewrite !lookup_ge_None_2; [done| |].
    + rewrite length_replicate. lia.
    + rewrite xor_length. lia.
Qed.

Lemma shiftLeft_length buf : length (shiftLeft buf) = length buf.
Proof.
  unfold shiftLeft, for_downfrom.
  apply (foldl_invariant (fun st : Buffer * Z => length (fst st) = length buf)).
  - apply alloc_length.
  - intros [r o] i Hs. destruct (buf !! i); simpl in *; [by rewrite store_length|done].
Qed.

(** [x & 0x80] is non-zero exactly when bit 7 of [x] is set. *)
Lemma land_128_testbit x : negb (Z.land x 128 =? 0) = Z.testbit x 7.
Proof.
  assert (Z.land x 128 = if Z.testbit x 7 then 128 else 0) as ->.
  { apply Z.bits_inj'. intros n Hn. rewrite Z.land_spec.
    change 128 with (2 ^ 7). rewrite Z.pow2_bits_eqb by lia.
    destruct (Z.eqb_spec 7 n) as [Heq|Hne].
    - subst n. rewrite andb_true_r. destruct (Z.testbit x 7); [|by rewrite Z.bits_0].
      by rewrite Z.pow2_bits_eqb by lia.
    - rewrite andb_false_r. destruct (Z.testbit x 7); [|by rewrite Z.bits_0].
      rewrite Z.pow2_bits_eqb by lia. symmetry. by apply Z.eqb_neq. }
  by destruct (Z.testbit x 7).
Qed.

(** [ceilDiv a b] is the least [m] with [a ≤ m * b]: the value of
    [Math.ceil(a / b)]. *)
Lemma ceilDiv_least a b :
  (0 < b)%nat →
  (a ≤ ceilDiv a b * b)%nat ∧ ∀ m, (a ≤ m * b)%nat → (ceilDiv a b ≤ m)%nat.
Proof.
  intros Hb. unfold ceilDiv. split.
  - pose proof (Nat.div_mod_eq (a + b - 1) b) as Hd.
    pose proof (Nat.mod_upper_bound (a + b - 1) b ltac:(lia)) as Hr.
    revert Hd Hr.
    generalize ((a + b - 1) / b)%nat, ((a + b - 1) `mod` b)%nat.
    intros q r Hd Hr. nia.
  - intros m Hm.
    assert ((a + b - 1) / b < S m)%nat; [|lia].
    apply Nat.Div0.div_lt_upper_bound. nia.
Qed.

Lemma ceilDiv_exact len :
  (len `mod` 16 = 0)%nat → ceilDiv len 16 = (len / 16)%nat.
Proof.
  intros Hm. unfold ceilDiv. pose proof (Nat.div_mod_eq len 16) as Hd.
  symmetry. apply (Nat.div_unique _ _ _ 15); lia.
Qed.

Lemma ceilDiv_partial len :
  (len `mod` 16 ≠ 0)%nat → ceilDiv len 16 = (len / 16 + 1)%nat.
Proof.
  intros Hm. unfold ceilDiv. pose proof (Nat.div_mod_eq len 16) as Hd.
  pose proof (Nat.mod_upper_bound len 16).
  symmetry. apply (Nat.div_unique _ _ _ (len `mod` 16 - 1)); lia.
Qed.

(** ** The CMAC engine, as the documentation states it *)

Section Engine.
Context `{cipher : BlockCipher}.

Lemma createCipheriv_ok key : length key = 16%nat → createCipheriv key = Return ().
Proof. intros H. unfold createCipheriv. by rewrite decide_True. Qed.

Lemma createCipheriv_bad key :
  length key ≠ 16%nat → createCipheriv key = Throw (CryptoError "Invalid key length").
Proof. intros H. unfold createCipheriv. by rewrite decide_False. Qed.

(** One whole block goes through the cipher once. *)
Lemma aesEcbEncrypt_block key blk :
  length key = 16%nat → length blk = 16%nat →
  aesEcbEncrypt key blk = Return (encryptBlock key blk).
Proof.
  intros Hk Hb. unfold aesEcbEncrypt, cipherRun.
  rewrite createCipheriv_ok by done. rewrite Hb. simpl.
  rewrite take_ge by lia. by rewrite app_nil_r.
Qed.

Lemma topBitSet_topBit b : topBitSet b = topBit b.
Proof.
  unfold topBitSet, topBit. destruct (b !! 0%nat) as [b0|]; simpl.
  - apply land_128_testbit.
  - done.
Qed.

Lemma Rb_rb : rb = Rb.
Proof. reflexivity. Qed.

Lemma generateSubkeys_spec key :
  length key = 16%nat →
  generateSubkeys key =
    Return {| k1 := fst (subkeysSpec key); k2 := snd (subkeysSpec key) |}.
Proof.
  intros Hk. unfold generateSubkeys, subkeysSpec.
  rewrite aesEcbEncrypt_block by (done || apply alloc_length).
  simpl. by rewrite !topBitSet_topBit, Rb_rb.
Qed.

Lemma subkeysSpec_length key :
  length key = 16%nat →
  length (fst (subkeysSpec key)) = 16%nat ∧ length (snd (subkeysSpec key)) = 16%nat.
Proof.
  intros Hk. unfold subkeysSpec.
  assert (length (encryptBlock key zeroBlock) = 16%nat) as HL
    by (by apply encryptBlock_length).
  assert (length (if topBit (encryptBlock key zeroBlock)
                  then xor (shiftLeft (encryptBlock key zeroBlock)) Rb
                  else shiftLeft (encryptBlock key zeroBlock)) = 16%nat) as H1.
  { destruct (topBit _); rewrite ?xor_length, shiftLeft_length, HL; done. }
  split; simpl; [done|].
  destruct (topBit (if topBit _ then _ else _));
    rewrite ?xor_length, shiftLeft_length, H1; done.
Qed.

End Engine.

(** ** [calculateCmac] against the documented algorithm *)

(** Copying [len] bytes of [data] to the front of a fresh zero block. *)
Lemma copy_to_fresh data start len :
  (start + len ≤ length data)%nat → (len ≤ 16)%nat →
  copy data (alloc 16) 0 start (start + len)
  = Return (take len (drop start data) ++ replicate (16 - len) 0).
Proof.
  intros Hd Hl. unfold copy. rewrite decide_False by lia.
  rewrite slice_take_drop, alloc_length.
  rewrite Nat.sub_0_r, take_take, Nat.min_r by lia.
  rewrite length_take, length_drop, Nat.min_l by lia.
  simpl. unfold alloc. by rewrite drop_replicate.
Qed.

Lemma blockCount_positions data :
  data ≠ [] →
  if isComplete data
  then ((blockCount data - 1) * 16 = length data - 16)%nat ∧ (16 ≤ length data)%nat
  else ((blockCount data - 1) * 16 = 16 * (length data / 16))%nat
       ∧ (0 < length data `mod` 16 < 16)%nat.
Proof.
  intros Hne. unfold isComplete, blockCount.
  assert (length data ≠ 0)%nat as Hlen by (by destruct data).
  pose proof (Nat.div_mod_eq (length data) 16) as Hd.
  pose proof (Nat.mod_upper_bound (length data) 16 ltac:(lia)) as Hr.
  destruct (Nat.eqb_spec (length data) 0) as [?|_]; [done|]. cbn [negb andb].
  destruct (Nat.eqb_spec (length data `mod` 16) 0) as [Hz|Hnz].
  - rewrite ceilDiv_exact by done. lia.
  - rewrite ceilDiv_partial by done. lia.
Qed.

(** A complete message: the last block is its final 16 bytes. *)
Lemma lastBlockOf_complete data :
  isComplete data = true → lastBlockOf data = Return (drop (length data - 16) data).
Proof.
  intros Hc. assert (data ≠ []) as Hne by (by intros ->).
  pose proof (blockCount_positions data Hne) as Hp.
  unfold lastBlockOf. rewrite Hc in *. destruct Hp as [Hp Hlen].
  rewrite copy_to_fresh by lia. rewrite Hp. simpl.
  rewrite app_nil_r. f_equal. apply take_ge. rewrite length_drop. lia.
Qed.

(** Otherwise: the bytes after the last full block, 0x80, zero-fill. *)
Lemma lastBlockOf_partial data :
  isComplete data = false →
  lastBlockOf data = Return (padBlock (drop ((blockCount data - 1) * 16) data)).
Proof.
  intros Hc. destruct (decide (data = [])) as [->|Hne]; [reflexivity|].
  pose proof (blockCount_positions data Hne) as Hp.
  assert (length data ≠ 0)%nat as Hlen by (by destruct data).
  pose proof (Nat.div_mod_eq (length data) 16) as Hd.
  unfold lastBlockOf. rewrite Hc in *. destruct Hp as [Hp Hr].
  destruct (Nat.eqb_spec (length data) 0) as [?|_]; [done|].
  rewrite Hp.
  replace (length data - 16 * (length data / 16))%nat with (length data `mod` 16)%nat by lia.
  destruct (Nat.ltb_spec 0 (length data `mod` 16)) as [_|?]; [|lia].
  rewrite copy_to_fresh by lia. cbn [mbind outcome_bind mret outcome_ret]. f_equal.
  set (start := (16 * (length data / 16))%nat) in *.
  set (r := (length data `mod` 16)%nat) in *.
  assert (length (drop start data) = r) as Hdl by (rewrite length_drop; lia).
  rewrite take_ge by lia. unfold padBlock, store. rewrite Hdl.
  rewrite <- Hdl at 1. rewrite <- (Nat.add_0_r (length (drop start data))).
  rewrite insert_app_r. f_equal.
  replace (16 - r)%nat with (S (15 - r)) by lia. reflexivity.
Qed.

Lemma padBlock_length partial :
  (length partial < 16)%nat → length (padBlock partial) = 16%nat.
Proof. intros H. unfold padBlock. rewrite !length_app, length_replicate. simpl. lia. Qed.

Lemma splitBlocks_slices data m :
  splitBlocks m data = map (fun i => slice data (i * 16) ((i + 1) * 16)) (seq 0 m).
Proof.
  revert data. induction m as [|m IH]; intros data; [done|].
  simpl. f_equal.
  rewrite IH, <- seq_shift, map_map. apply map_ext. intros i.
  unfold slice. rewrite drop_drop.
  replace ((S i + 1) * 16 - S i * 16)%nat with ((i + 1) * 16 - i * 16)%nat by lia.
  reflexivity.
Qed.

Lemma isComplete_spec data :
  isComplete data = bool_decide (data ≠ [] ∧ (length data `mod` 16 = 0)%nat).
Proof.
  unfold isComplete. destruct data as [|b data]; simpl length.
  - symmetry. apply bool_decide_eq_false. by intros [? _].
  - cbn [Nat.eqb negb andb].
    destruct (Nat.eqb_spec (S (length data) `mod` 16) 0) as [Hz|Hnz]; symmetry.
    + by apply bool_decide_eq_true.
    + apply bool_decide_eq_false. by intros [_ ?].
Qed.

Lemma blockCount_spec data :
  blockCount data = match data with [] => 1%nat | _ => ceilDiv (length data) 16 end.
Proof. by destruct data. Qed.

Section Chain.
Context `{cipher : BlockCipher}.

Lemma calculateCmac_unfold key data :
  calculateCmac key data =
    (sk ← generateSubkeys key;
     _ ← createCipheriv key;
     lastBlock ← lastBlockOf data;
     x ← for_each_m (seq 0 (blockCount data - 1))
           (fun x i => aesEcbEncrypt key (xor x (slice data (i * 16) ((i + 1) * 16))))
           (alloc 16);
     aesEcbEncrypt key
       (xor x (xor lastBlock (if isComplete data then k1 sk else k2 sk)))).
Proof. reflexivity. Qed.

(** The chaining loop never throws and computes a fold over the blocks it
    slices; the accumulator stays one block long. *)
Lemma chain_loop key data idx x :
  length key = 16%nat → length x = 16%nat →
  let step := fun X block => encryptBlock key (xor X block) in
  let blocks := map (fun i => slice data (i * 16) ((i + 1) * 16)) idx in
  for_each_m idx
    (fun x i => aesEcbEncrypt key (xor x (slice data (i * 16) ((i + 1) * 16)))) x
  = Return (foldl step x blocks)
  ∧ length (foldl step x blocks) = 16%nat.
Proof.
  intros Hk. revert x. induction idx as [|i idx IH]; intros x Hx; simpl; [done|].
  assert (length (xor x (slice data (i * 16) ((i + 1) * 16))) = 16%nat) as Hy.
  { rewrite xor_length, Hx. unfold slice. rewrite length_take. lia. }
  rewrite aesEcbEncrypt_block by done. simpl.
  apply IH. by apply encryptBlock_length.
Qed.

(** The last block never fails to be built and is one block long. *)
Lemma lastBlockOf_returns data :
  ∃ lastBlock, lastBlockOf data = Return lastBlock ∧ length lastBlock = 16%nat.
Proof.
  destruct (isComplete data) eqn:Hc.
  - eexists. split; [by apply lastBlockOf_complete|].
    assert (data ≠ []) as Hne by (by intros ->).
    pose proof (blockCount_positions data Hne) as Hp. rewrite Hc in Hp.
    rewrite length_drop. lia.
  - eexists. split; [by apply lastBlockOf_partial|].
    apply padBlock_length. rewrite length_drop.
    destruct (decide (data = [])) as [->|Hne]; [simpl; lia|].
    pose proof (blockCount_positions data Hne) as Hp. rewrite Hc in Hp.
    pose proof (Nat.div_mod_eq (length data) 16). lia.
Qed.

(** [calculateCmac] in closed form: one encryption of a 16-byte block made
    of the chained accumulator, the last block and a subkey. *)
Lemma calculateCmac_closed_form key data :
  length key = 16%nat →
  ∃ lastBlock,
    lastBlockOf data = Return lastBlock
    ∧ let X := foldl (fun X block => encryptBlock key (xor X block)) (alloc 16)
                 (map (fun i => slice data (i * 16) ((i + 1) * 16))
                      (seq 0 (blockCount data - 1))) in
      let subkey := if isComplete data
                    then fst (subkeysSpec key) else snd (subkeysSpec key) in
      calculateCmac key data = Return (encryptBlock key (xor X (xor lastBlock subkey)))
      ∧ length (xor X (xor lastBlock subkey)) = 16%nat.
Proof.
  intros Hk. destruct (lastBlockOf_returns data) as (lastBlock & Hlast & Hlen).
  exists lastBlock. split; [done|]. intros X subkey.
  destruct (subkeysSpec_length key Hk) as [HK1 HK2].
  destruct (chain_loop key data (seq 0 (blockCount data - 1)) (alloc 16) Hk
              (alloc_length 16)) as [Hloop Hx].
  assert (length (xor X (xor lastBlock subkey)) = 16%nat) as Hy.
  { rewrite !xor_length. subst X subkey. rewrite Hx, Hlen.
    destruct (isComplete data); [rewrite HK1|rewrite HK2]; done. }
  split; [|done].
  rewrite calculateCmac_unfold, generateSubkeys_spec, createCipheriv_ok by done.
  cbn [mbind outcome_bind k1 k2]. rewrite Hlast. cbn [mbind outcome_bind].
  rewrite Hloop. cbn [mbind outcome_bind].
  rewrite aesEcbEncrypt_block by done.
  subst subkey. by destruct (isComplete data).
Qed.

(** [calculateCmac] under a 16-byte key returns a block of 16 bytes. *)
Lemma calculateCmac_returns key data :
  length key = 16%nat →
  ∃ mac, calculateCmac key data = Return mac ∧ length mac = 16%nat ∧ wf_buffer mac.
Proof.
  intros Hk. destruct (calculateCmac_closed_form key data Hk) as (last & _ & Hc & Hy).
  eexists. split; [exact Hc|].
  split; [by apply encryptBlock_length|by apply encryptBlock_bytes].
Qed.

End Chain.

(** C1.  For a 16-byte key and any data, [calculateCmac] returns (it does
    not throw) the value [cmacSpec] builds as documented: with n = 1 for
    empty data and ceil(len/16) otherwise, the last block is the final 16
    bytes XORed with K1 when the data is non-empty and a multiple of 16 long,
    else the final partial block, one 0x80 byte and zero-fill, XORed with K2;
    the zero accumulator is chained over the n-1 blocks before it and the
    result is the encryption of the accumulator XORed with that block.  The
    result has exactly 16 bytes.  For empty data the padded block is 0x80
    followed by fifteen zero bytes. *)
Theorem calculateCmac_correct `{cipher : BlockCipher} (key data : Buffer) :
  length key = 16%nat →
  calculateCmac key data = Return (cmacSpec key data)
  ∧ length (cmacSpec key data) = 16%nat
  ∧ padBlock [] = 128 :: replicate 15 0.
Proof.
  intros Hk.
  destruct (calculateCmac_closed_form key data Hk) as (lastBlock & Hlast & Hc & Hy).
  assert (cmacSpec key data =
          encryptBlock key
            (xor (foldl (fun X block => encryptBlock key (xor X block)) (alloc 16)
                    (map (fun i => slice data (i * 16) ((i + 1) * 16))
                       (seq 0 (blockCount data - 1))))
               (xor lastBlock
                  (if isComplete data
                   then fst (subkeysSpec key) else snd (subkeysSpec key))))) as ->.
  { unfold cmacSpec. destruct (subkeysSpec key) as [K1 K2]. cbn [fst snd].
    rewrite <- blockCount_spec, <- isComplete_spec, splitBlocks_slices.
    destruct (isComplete data) eqn:Hcomplete.
    - rewrite lastBlockOf_complete in Hlast by done. by injection Hlast as <-.
    - rewrite lastBlockOf_partial in Hlast by done. by injection Hlast as <-. }
  split; [exact Hc|]. split; [by apply encryptBlock_length|reflexivity].
Qed.

Lemma calculateCmac_correct_witness :
  let key := hexDecode "2b7e151628aed2a6abf7158809cf4f3c" in
  let data := hexDecode "6bc1bee22e409f96e93d7e117393172aae2d8a571e03ac9c9eb76fac45af8e5130c81c46a35ce411" in
  length key = 16%nat
  ∧ calculateCmac (cipher := aes128) key data = Return (cmacSpec key data)
  ∧ length (cmacSpec (cipher := aes128) key data) = 16%nat.
Proof.
  split; [reflexivity|].
  destruct (calculateCmac_correct (cipher := aes128)
              (hexDecode "2b7e151628aed2a6abf7158809cf4f3c")
              (hexDecode "6bc1bee22e409f96e93d7e117393172aae2d8a571e03ac9c9eb76fac45af8e5130c81c46a35ce411")
              eq_refl) as (Hc & Hl & _).
  split; [exact Hc|exact Hl].
Defined.

(** The four AES-128 examples of RFC 4493, section 4. *)
Example calculateCmac_rfc4493 :
  let key := hexDecode "2b7e151628aed2a6abf7158809cf4f3c" in
  calculateCmac (cipher := aes128) key [] =
    Return (hexDecode "bb1d6929e95937287fa37d129b756746")
  ∧ calculateCmac (cipher := aes128) key (hexDecode "6bc1bee22e409f96e93d7e117393172a") =
    Return (hexDecode "070a16b46b4d4144f79bdd9dd04a287c")
  ∧ calculateCmac (cipher := aes128) key
      (hexDecode "6bc1bee22e409f96e93d7e117393172aae2d8a571e03ac9c9eb76fac45af8e5130c81c46a35ce411") =
    Return (hexDecode "dfa66747de9ae63030ca32611497c827")
  ∧ calculateCmac (cipher := aes128) key
      (hexDecode "6bc1bee22e409f96e93d7e117393172aae2d8a571e03ac9c9eb76fac45af8e5130c81c46a35ce411e5fbc1191a0a52eff69f2445df4f9b17ad2b417be66c3710") =
    Return (hexDecode "51f0bebf7e3b9d92fc49741779363cfe").
Proof. vm_compute. repeat split; reflexivity. Qed.

(** C4.  For a 16-byte key, [generateSubkeys] returns (K1, K2) with
    L = Encrypt(sixteen zero bytes), K1 = shiftLeft(L) XORed with the constant
    00..0087 exactly when the top bit of L is set, and K2 = shiftLeft(K1)
    XORed with the same constant exactly when the top bit of K1 is set; both
    have 16 bytes, and equal keys give equal subkeys. *)
Theorem generateSubkeys_correct `{cipher : BlockCipher} (key : Buffer) :
  length key = 16%nat →
  let L := encryptBlock key (replicate 16 0) in
  let R := [0; 0; 0; 0; 0; 0; 0; 0; 0; 0; 0; 0; 0; 0; 0; 135] in
  let K1 := if Z.testbit (default 0 (L !! 0%nat)) 7
            then xor (shiftLeft L) R else shiftLeft L in
  let K2 := if Z.testbit (default 0 (K1 !! 0%nat)) 7
            then xor (shiftLeft K1) R else shiftLeft K1 in
  generateSubkeys key = Return {| k1 := K1; k2 := K2 |}
  ∧ length K1 = 16%nat ∧ length K2 = 16%nat
  ∧ ∀ key', key' = key → generateSubkeys key' = generateSubkeys key.
Proof.
  intros Hk. cbv zeta. split; [|split; [|split]].
  - by rewrite generateSubkeys_spec.
  - apply (subkeysSpec_length key Hk).
  - apply (subkeysSpec_length key Hk).
  - by intros key' ->.
Qed.

Lemma generateSubkeys_correct_witness :
  let key := hexDecode "2b7e151628aed2a6abf7158809cf4f3c" in
  length key = 16%nat ∧ returns (generateSubkeys (cipher := aes128) key).
Proof.
  split; [reflexivity|].
  destruct (generateSubkeys_correct (cipher := aes128)
              (hexDecode "2b7e151628aed2a6abf7158809cf4f3c") eq_refl)
    as (Hsk & _).
  eexists. exact Hsk.
Defined.

(** The subkeys of RFC 4493, section 4, and those of the all-zero key, which
    differ from each other. *)
Example generateSubkeys_rfc4493 :
  generateSubkeys (cipher := aes128) (hexDecode "2b7e151628aed2a6abf7158809cf4f3c")
  = Return {| k1 := hexDecode "fbeed618357133667c85e08f7236a8de";
              k2 := hexDecode "f7ddac306ae266ccf90bc11ee46d513b" |}.
Proof. vm_compute. reflexivity. Qed.

Example generateSubkeys_zero_key :
  ∃ sk, generateSubkeys (cipher := aes128) (replicate 16 0) = Return sk ∧ k1 sk ≠ k2 sk.
Proof. eexists. split; [vm_compute; reflexivity|]. vm_compute. discriminate. Qed.

(** C3.  For a 16-byte buffer, [truncateCmac] returns 8 bytes, byte [i] of
    the output being byte [2*i+1] of the input; on 1234567890ABCDEF1234567890ABCDEF
    this is 3478ABEF3478ABEF, which is not the first 8 bytes. *)
Theorem truncateCmac_correct (cmac16 : Buffer) :
  length cmac16 = 16%nat → wf_buffer cmac16 →
  length (truncateCmac cmac16) = 8%nat
  ∧ (∀ i, (i < 8)%nat → truncateCmac cmac16 !! i = cmac16 !! (2 * i + 1)%nat)
  ∧ truncateCmac (hexDecode "1234567890ABCDEF1234567890ABCDEF")
    = hexDecode "3478ABEF3478ABEF"
  ∧ truncateCmac (hexDecode "1234567890ABCDEF1234567890ABCDEF")
    ≠ take 8 (hexDecode "1234567890ABCDEF1234567890ABCDEF").
Proof.
  intros Hlen Hwf.
  do 16 (destruct cmac16 as [|? cmac16]; [discriminate|]).
  destruct cmac16; [|discriminate].
  repeat (apply Forall_cons in Hwf as [? Hwf]).
  unfold truncateCmac, for_upto, store. cbn -[to_uint8].
  rewrite !to_uint8_byte by done.
  split; [done|]. split; [|split; [reflexivity|discriminate]].
  intros i Hi. do 8 (destruct i as [|i]; [reflexivity|]). lia.
Qed.

Lemma truncateCmac_correct_witness :
  let cmac16 := hexDecode "1234567890ABCDEF1234567890ABCDEF" in
  length cmac16 = 16%nat
  ∧ truncateCmac cmac16 !! 3%nat = cmac16 !! 7%nat.
Proof.
  split; [reflexivity|].
  apply (truncateCmac_correct (hexDecode "1234567890ABCDEF1234567890ABCDEF")).
  - reflexivity.
  - vm_compute. repeat constructor; discriminate.
  - lia.
Defined.

(** ** The PICC decoder *)

Lemma hexDigit_upper n :
  isUpperHexChar (upperChar (default "0"%char (String.get n "0123456789abcdef"))) = true.
Proof. do 16 (destruct n as [|n]; [reflexivity|]). reflexivity. Qed.

(** Upper-cased hexadecimal text of a buffer only has digits and A..F, two
    characters per byte. *)
Lemma hexEncode_upper buf :
  isUpperHex (toUpperCase (hexEncode buf)) = true
  ∧ String.length (toUpperCase (hexEncode buf)) = (2 * length buf)%nat.
Proof.
  induction buf as [|b buf [IH1 IH2]]; [done|].
  cbn [hexEncode toUpperCase isUpperHex String.length length].
  unfold hexDigit. rewrite !hexDigit_upper, IH1, IH2. split; [done|lia].
Qed.

Lemma readUIntLE3_three c0 c1 c2 :
  readUIntLE3 [c0; c1; c2] = Return (c0 + c1 * 256 + c2 * 65536).
Proof. reflexivity. Qed.

(** A slice that lies inside the buffer has its full length. *)
Lemma slice_length buf start end_ :
  (start ≤ end_ ≤ length buf)%nat → length (slice buf start end_) = (end_ - start)%nat.
Proof. intros H. unfold slice. rewrite length_take, length_drop. lia. Qed.

Lemma three_bytes (buf : Buffer) :
  length buf = 3%nat → ∃ c0 c1 c2, buf = [c0; c1; c2].
Proof.
  intros H. destruct buf as [|c0 [|c1 [|c2 [|]]]]; try discriminate. by eexists _, _, _.
Qed.

Lemma extracted_intro decrypted from :
  (from + 10 ≤ length decrypted)%nat →
  ∃ c0 c1 c2,
    slice decrypted (from + 7) (from + 10) = [c0; c1; c2]
    ∧ extracted decrypted from
        {| uid := slice decrypted from (from + 7);
           counter := slice decrypted (from + 7) (from + 10);
           uidHex := toUpperCase (hexEncode (slice decrypted from (from + 7)));
           counterInt := c0 + c1 * 256 + c2 * 65536 |}.
Proof.
  intros Hlen.
  destruct (three_bytes (slice decrypted (from + 7) (from + 10))) as (c0 & c1 & c2 & Hc).
  { rewrite slice_length; lia. }
  exists c0, c1, c2. split; [done|]. unfold extracted. cbn [uid counter uidHex counterInt].
  destruct (hexEncode_upper (slice decrypted from (from + 7))) as [Hup Hl].
  rewrite slice_length in Hl by lia.
  repeat split.
  - apply slice_take_drop.
  - unfold slice. f_equal. lia.
  - exists c0, c1, c2. by rewrite Hc.
  - done.
  - rewrite Hl. lia.
Qed.

Lemma extractUidAndCounter_short decrypted :
  (length decrypted < 10)%nat → extractUidAndCounter decrypted = Return None.
Proof.
  intros Hlt. unfold extractUidAndCounter.
  by destruct (Nat.ltb_spec (length decrypted) 10) as [_|?]; [|lia].
Qed.

Lemma extractUidAndCounter_tagged decrypted :
  (11 ≤ length decrypted)%nat →
  ∃ r, extractUidAndCounter decrypted = Return (Some r) ∧ extracted decrypted 1 r.
Proof.
  intros Hge. unfold extractUidAndCounter.
  destruct (Nat.ltb_spec (length decrypted) 10) as [?|_]; [lia|].
  destruct (Nat.leb_spec 11 (length decrypted)) as [_|?]; [|lia].
  destruct (extracted_intro decrypted 1 ltac:(lia)) as (c0 & c1 & c2 & Hc & Hex).
  cbn [Nat.add] in Hc, Hex. rewrite Hc, readUIntLE3_three.
  eexists. split; [reflexivity|]. rewrite <- Hc. exact Hex.
Qed.

Lemma extractUidAndCounter_untagged decrypted :
  length decrypted = 10%nat →
  ∃ r, extractUidAndCounter decrypted = Return (Some r) ∧ extracted decrypted 0 r.
Proof.
  intros Heq. unfold extractUidAndCounter.
  destruct (Nat.ltb_spec (length decrypted) 10) as [?|_]; [lia|].
  destruct (Nat.leb_spec 11 (length decrypted)) as [?|_]; [lia|].
  destruct (Nat.leb_spec 10 (length decrypted)) as [_|?]; [|lia].
  destruct (extracted_intro decrypted 0 ltac:(lia)) as (c0 & c1 & c2 & Hc & Hex).
  cbn [Nat.add] in Hc, Hex. rewrite Hc, readUIntLE3_three.
  eexists. split; [reflexivity|]. rewrite <- Hc. exact Hex.
Qed.

(** C5.  Fewer than 10 bytes give [null]; with at least 11 bytes the UID is
    bytes 1..8 and the counter bytes 8..11; with exactly 10 bytes the UID is
    bytes 0..7 and the counter bytes 7..10.  The counter integer is the
    little-endian value of the three counter bytes and the UID text is
    upper-case hexadecimal.  The two documented inputs give the documented
    UID text and counter. *)
Theorem extractUidAndCounter_correct (decrypted : Buffer) :
  ((length decrypted < 10)%nat → extractUidAndCounter decrypted = Return None)
  ∧ ((11 ≤ length decrypted)%nat →
       ∃ r, extractUidAndCounter decrypted = Return (Some r) ∧ extracted decrypted 1 r)
  ∧ (length decrypted = 10%nat →
       ∃ r, extractUidAndCounter decrypted = Return (Some r) ∧ extracted decrypted 0 r)
  ∧ (∃ r, extractUidAndCounter (hexDecode "041234567890ABCDEF123456") = Return (Some r)
          ∧ uidHex r = "1234567890ABCD" ∧ counterInt r = 0x3412EF)
  ∧ (∃ r, extractUidAndCounter (hexDecode "1234567890ABCDEF123456") = Return (Some r)
          ∧ uidHex r = "34567890ABCDEF" ∧ counterInt r = 0x563412).
Proof.
  split; [|split; [|split; [|split]]].
  - apply extractUidAndCounter_short.
  - apply extractUidAndCounter_tagged.
  - apply extractUidAndCounter_untagged.
  - eexists. split; [reflexivity|]. split; reflexivity.
  - eexists. split; [reflexivity|]. split; reflexivity.
Qed.

Lemma extractUidAndCounter_correct_witness :
  extractUidAndCounter (hexDecode "1234567890") = Return None
  ∧ (∃ r, extractUidAndCounter (hexDecode "041234567890ABCDEF123456") = Return (Some r)
          ∧ extracted (hexDecode "041234567890ABCDEF123456") 1 r)
  ∧ (∃ r, extractUidAndCounter (hexDecode "1234567890ABCDEF1234") = Return (Some r)
          ∧ extracted (hexDecode "1234567890ABCDEF1234") 0 r).
Proof.
  split; [|split].
  - apply (extractUidAndCounter_correct (hexDecode "1234567890")). simpl. lia.
  - apply (extractUidAndCounter_correct (hexDecode "041234567890ABCDEF123456")). simpl. lia.
  - apply (extractUidAndCounter_correct (hexDecode "1234567890ABCDEF1234")). reflexivity.
Defined.

(** ** Session vector and session key *)

(** Under a key that has not 16 bytes the CMAC engine throws at once. *)
Lemma calculateCmac_bad_key `{cipher : BlockCipher} (key data : Buffer) :
  length key ≠ 16%nat →
  generateSubkeys key = Throw (CryptoError "Invalid key length")
  ∧ calculateCmac key data = Throw (CryptoError "Invalid key length").
Proof.
  intros Hk.
  assert (generateSubkeys key = Throw (CryptoError "Invalid key length")) as Hsk.
  { unfold generateSubkeys, aesEcbEncrypt. by rewrite createCipheriv_bad. }
  split; [done|]. by rewrite calculateCmac_unfold, Hsk.
Qed.


Lemma inCounterRange_integer z : 0 ≤ z < 2 ^ 24 → inCounterRange (inject_Z z).
Proof. intros Hz. split; rewrite <- Zle_Qle; lia. Qed.

Lemma truncate_integer z : truncate (inject_Z z) = z.
Proof. unfold truncate. simpl. apply Z.quot_1_r. Qed.

Lemma writeUIntBE3_checks buf value :
  writeUIntBE3 buf value =
    if decide (passesRangeCheck value)
    then Return (store (store (store buf 2 (toInteger value))
                          1 (Z.shiftr (toInteger value `mod` 2 ^ 32) 8))
                   0 (Z.shiftr (Z.shiftr (toInteger value `mod` 2 ^ 32) 8 `mod` 2 ^ 32) 8))
    else Throw (RangeError (outOfRange "value" ">= 0 and <= 16777215")).
Proof.
  unfold writeUIntBE3.
  destruct value as [q| | |]; cbn [number_gt number_lt orb];
    [|by rewrite decide_True by (by left)
     |rewrite decide_False; [done|by intros [?|?]]
     |rewrite decide_False; [done|by intros [?|?]]].
  destruct (Qle_bool q (inject_Z 16777215)) eqn:Hmax;
    destruct (Qle_bool (inject_Z 0) q) eqn:Hmin; cbn [negb orb].
  - apply Qle_bool_iff in Hmax, Hmin. rewrite decide_True; [done|]. by right.
  - rewrite decide_False; [done|]. intros [?|[Hlo _]]; [done|].
    apply Qle_bool_iff in Hlo. congruence.
  - rewrite decide_False; [done|]. intros [?|[_ Hhi]]; [done|].
    apply Qle_bool_iff in Hhi. congruence.
  - rewrite decide_False; [done|]. intros [?|[_ Hhi]]; [done|].
    apply Qle_bool_iff in Hhi. congruence.
Qed.

Lemma writeUIntBE3_in_range readCtr :
  0 ≤ readCtr < 2 ^ 24 →
  writeUIntBE3 (alloc 3) (inject_Z readCtr) = Return (bigEndian3 readCtr).
Proof.
  intros Hr. rewrite writeUIntBE3_checks.
  rewrite decide_True by (right; by apply inCounterRange_integer).
  cbn [toInteger]. rewrite truncate_integer. unfold store, to_uint8, bigEndian3.
  cbn [alloc replicate insert list_insert].
  rewrite (Z.mod_small readCtr (2 ^ 32)) by lia.
  rewrite !Z.shiftr_div_pow2 by lia.
  rewrite (Z.mod_small (readCtr / 2 ^ 8) (2 ^ 32)).
  - rewrite Z.div_div by lia. reflexivity.
  - split; [apply Z.div_pos; lia|]. apply Z.div_lt_upper_bound; lia.
Qed.

Lemma generateSdmSessionVector_passes purpose uid readCtr options :
  passesRangeCheck readCtr →
  returns (generateSdmSessionVector purpose uid readCtr options).
Proof.
  intros Hr. unfold generateSdmSessionVector.
  rewrite writeUIntBE3_checks, decide_True by done. by eexists.
Qed.

Lemma generateSdmSessionVector_returns purpose uid readCtr options :
  inCounterRange readCtr → returns (generateSdmSessionVector purpose uid readCtr options).
Proof. intros Hr. apply generateSdmSessionVector_passes. by right. Qed.

Lemma generateSdmSessionVector_throws purpose uid readCtr options :
  ¬ passesRangeCheck readCtr →
  generateSdmSessionVector purpose uid readCtr options
  = Throw (RangeError (outOfRange "value" ">= 0 and <= 16777215")).
Proof.
  intros Hr. unfold generateSdmSessionVector.
  by rewrite writeUIntBE3_checks, decide_False by done.
Qed.

(** Every number is outside the range or passes the check, never both. *)
Lemma passesRangeCheck_outside value :
  (outsideCounterRange value ↔ ¬ passesRangeCheck value)
  ∧ (passesRangeCheck value ∨ outsideCounterRange value).
Proof.
  destruct value as [q| | |]; unfold passesRangeCheck; cbn.
  - destruct (Qlt_le_dec q (inject_Z 0)) as [Hneg|Hpos].
    { split; [|right; by left]. split; [|by left].
      intros _ [?|[Hlo _]]; [done|]. by apply Qlt_not_le in Hneg. }
    destruct (Qlt_le_dec (inject_Z 16777215) q) as [Hbig|Hsmall].
    { split; [|right; by right]. split; [|by right].
      intros _ [?|[_ Hhi]]; [done|]. by apply Qlt_not_le in Hbig. }
    split; [|left; by right]. split.
    + intros [H|H]; [by apply Qlt_not_le in H|by apply Qlt_not_le in H].
    + intros H. destruct H. by right.
  - split; [|left; by left]. split; [done|]. intros H. destruct H. by left.
  - split; [|by right]. split; [|done]. by intros _ [?|?].
  - split; [|by right]. split; [|done]. by intros _ [?|?].
Qed.





(** C6.  For a counter in range the session vector is [purpose], the
    constant 00 01 00 80, and then: the UID and the little-endian counter
    for purpose C3 3C whatever the options; the UID if [uidMirroring] and
    then the counter if [readCounter] for purpose 3C C3; nothing for any
    other purpose.  The counter bytes are the 3-byte big-endian encoding,
    reversed. *)
Theorem generateSdmSessionVector_correct
    (purpose uid : Buffer) (readCtr : Z) (options : option SdmSessionVectorOptions) :
  0 ≤ readCtr < 2 ^ 24 →
  let rc := rev (bigEndian3 readCtr) in
  generateSdmSessionVector purpose uid (inject_Z readCtr) options =
    Return (purpose ++ [0; 1; 0; 128] ++
            (if decide (purpose = [195; 60]) then uid ++ rc
             else if decide (purpose = [60; 195]) then
               (if mirrorsUid options then uid else [])
               ++ (if mirrorsCounter options then rc else [])
             else []))
  ∧ rc = [readCtr `mod` 256; (readCtr / 256) `mod` 256; (readCtr / 65536) `mod` 256].
Proof.
  intros Hr rc. split; [|reflexivity].
  unfold generateSdmSessionVector. rewrite writeUIntBE3_in_range by done.
  cbn [mbind outcome_bind mret outcome_ret]. fold rc.
  unfold mirrorsUid, mirrorsCounter.
  destruct (decide (purpose = [195; 60])) as [->|Hne1].
  - by rewrite bool_decide_eq_true_2, <- !app_assoc by done.
  - rewrite bool_decide_eq_false_2 by done.
    destruct (decide (purpose = [60; 195])) as [->|Hne2].
    + rewrite bool_decide_eq_true_2 by done.
      destruct (default true (uidMirroring _)), (default true (readCounter _));
        by rewrite <- ?app_assoc, ?app_nil_r.
    + rewrite bool_decide_eq_false_2 by done. by rewrite app_nil_r.
Qed.

Lemma generateSdmSessionVector_correct_witness :
  0 ≤ 0x123456 < 2 ^ 24
  ∧ generateSdmSessionVector [60; 195] (hexDecode "04AABBCCDDEEFF") (inject_Z 0x123456)
      (Some {| uidMirroring := Some true; readCounter := None |})
    = Return (hexDecode "3CC30001008004AABBCCDDEEFF563412").
Proof.
  split; [lia|].
  apply (generateSdmSessionVector_correct [60; 195] (hexDecode "04AABBCCDDEEFF") 0x123456
           (Some {| uidMirroring := Some true; readCounter := None |})).
  lia.
Defined.

Section SessionKey.
Context `{cipher : BlockCipher}.

Lemma generateSdmSessionKey_unfold key purpose uid readCtr options :
  generateSdmSessionKey key purpose uid readCtr options =
    (v ← generateSdmSessionVector purpose uid readCtr options;
     calculateCmac key
       (if decide (length v < 16)%nat then v ++ replicate (16 - length v) 0 else v)).
Proof.
  unfold generateSdmSessionKey.
  destruct (generateSdmSessionVector purpose uid readCtr options) as [v|e]; [|done].
  cbn [mbind outcome_bind].
  destruct (Nat.ltb_spec (length v) 16) as [Hlt|Hge].
  - by rewrite decide_True by done.
  - by rewrite decide_False by lia.
Qed.

End SessionKey.

(** C7.  For a 16-byte key and a counter in range, [generateSdmSessionKey]
    is [calculateCmac] of the session vector, right-padded with zero bytes to
    exactly 16 bytes when it is shorter and unpadded otherwise; it returns
    the 16-byte CMAC. *)
Theorem generateSdmSessionKey_correct `{cipher : BlockCipher}
    (fileReadKey purpose uid : Buffer) (readCtr : Z)
    (options : option SdmSessionVectorOptions) :
  length fileReadKey = 16%nat → 0 ≤ readCtr < 2 ^ 24 →
  ∃ v v' mac,
    generateSdmSessionVector purpose uid (inject_Z readCtr) options = Return v
    ∧ ((length v < 16)%nat → v' = v ++ replicate (16 - length v) 0 ∧ length v' = 16%nat)
    ∧ ((16 ≤ length v)%nat → v' = v)
    ∧ generateSdmSessionKey fileReadKey purpose uid (inject_Z readCtr) options
      = calculateCmac fileReadKey v'
    ∧ calculateCmac fileReadKey v' = Return mac
    ∧ length mac = 16%nat.
Proof.
  intros Hk Hr.
  destruct (generateSdmSessionVector_returns purpose uid (inject_Z readCtr) options
              (inCounterRange_integer _ Hr)) as [v Hv].
  set (v' := if decide (length v < 16)%nat then v ++ replicate (16 - length v) 0 else v).
  destruct (calculateCmac_returns fileReadKey v' Hk) as (mac & Hc & Hl & _).
  exists v, v', mac.
  split; [done|]. split; [|split; [|split; [|done]]].
  - intros Hlt. subst v'. rewrite decide_True by done. split; [done|].
    rewrite length_app, length_replicate. lia.
  - intros Hge. subst v'. by rewrite decide_False by lia.
  - by rewrite generateSdmSessionKey_unfold, Hv.
Qed.

Lemma generateSdmSessionKey_correct_witness :
  let key := replicate 16 0 in
  let uid := hexDecode "04AABBCCDDEEFF" in
  length key = 16%nat ∧ 0 ≤ 5 < 2 ^ 24
  ∧ ∃ mac, generateSdmSessionKey (cipher := aes128) key [60; 195] uid (inject_Z 5) None
           = Return mac
         ∧ length mac = 16%nat.
Proof.
  split; [reflexivity|]. split; [lia|].
  destruct (generateSdmSessionKey_correct (cipher := aes128) (replicate 16 0) [60; 195]
              (hexDecode "04AABBCCDDEEFF") 5 None eq_refl ltac:(lia))
    as (v & v' & mac & _ & _ & _ & Hkey & Hmac & Hlen).
  exists mac. split; [|exact Hlen]. etransitivity; [exact Hkey|exact Hmac].
Defined.




(** ** PICC decryption *)

Lemma ecb_length (f : Buffer → Buffer) m data :
  (∀ blk, length blk = 16%nat → length (f blk) = 16%nat) →
  length data = (16 * m)%nat → length (ecb f m data) = (16 * m)%nat.
Proof.
  intros Hf. revert data. induction m as [|m IH]; intros data Hd; [done|].
  cbn [ecb]. rewrite length_app, Hf, IH.
  - lia.
  - rewrite length_drop. lia.
  - rewrite length_take. lia.
Qed.

Lemma ecb_bytes (f : Buffer → Buffer) m data :
  (∀ blk, length blk = 16%nat → wf_buffer (f blk)) →
  length data = (16 * m)%nat → wf_buffer (ecb f m data).
Proof.
  intros Hf. revert data. induction m as [|m IH]; intros data Hd; [constructor|].
  cbn [ecb]. apply Forall_app. split.
  - apply Hf. rewrite length_take. lia.
  - apply IH. rewrite length_drop. lia.
Qed.

Section Decrypt.
Context `{cipher : BlockCipher}.

(** The three ways [decryptPiccData] can go. *)
Lemma decryptPiccData_cases piccData sdmKey :
  (length sdmKey ≠ 16%nat ∧ decryptPiccData piccData sdmKey = None)
  ∨ (length sdmKey = 16%nat ∧ (length piccData `mod` 16 ≠ 0)%nat
     ∧ decryptPiccData piccData sdmKey = None)
  ∨ (length sdmKey = 16%nat ∧ (length piccData `mod` 16 = 0)%nat
     ∧ decryptPiccData piccData sdmKey
       = Some (ecb (decryptBlock sdmKey) (length piccData / 16) piccData)).
Proof.
  unfold decryptPiccData, aesEcbDecrypt, cipherRun.
  destruct (decide (length sdmKey = 16%nat)) as [Hk|Hk].
  - rewrite createCipheriv_ok by done. cbn [mbind outcome_bind]. right.
    destruct (decide ((length piccData `mod` 16)%nat = 0%nat)) as [Hm|Hm]; auto.
  - rewrite createCipheriv_bad by done. auto.
Qed.

Lemma decryptPiccData_plain piccData sdmKey plain :
  decryptPiccData piccData sdmKey = Some plain →
  length sdmKey = 16%nat ∧ (length piccData `mod` 16 = 0)%nat
  ∧ length plain = length piccData ∧ wf_buffer plain.
Proof.
  intros Hd.
  destruct (decryptPiccData_cases piccData sdmKey)
    as [[_ H]|[(_ & _ & H)|(Hk & Hm & H)]]; rewrite H in Hd; try discriminate.
  assert (plain = ecb (decryptBlock sdmKey) (length piccData / 16) piccData) as ->
    by congruence.
  pose proof (Nat.div_mod_eq (length piccData) 16) as Hdiv.
  split; [done|]. split; [done|]. split.
  - rewrite ecb_length; [lia| |lia]. intros blk. by apply decryptBlock_length.
  - apply ecb_bytes; [|lia]. intros blk. by apply decryptBlock_bytes.
Qed.

End Decrypt.

(** C8, as the code has it.  [decryptPiccData] returns [null], and never
    throws, exactly when the length of [piccData] is not a multiple of 16 or
    the key does not have 16 bytes; an empty [piccData] is decrypted to an
    empty buffer.  On success the plaintext has the length of the input. *)
Theorem decryptPiccData_correct `{cipher : BlockCipher} (piccData sdmKey : Buffer) :
  (decryptPiccData piccData sdmKey = None
   ↔ (length piccData `mod` 16 ≠ 0)%nat ∨ length sdmKey ≠ 16%nat)
  ∧ (∀ plain, decryptPiccData piccData sdmKey = Some plain →
              length plain = length piccData)
  ∧ (length sdmKey = 16%nat → decryptPiccData [] sdmKey = Some []).
Proof.
  split; [|split].
  - destruct (decryptPiccData_cases piccData sdmKey)
      as [[Hk H]|[(Hk & Hm & H)|(Hk & Hm & H)]]; rewrite H.
    + split; auto.
    + split; auto.
    + split; [discriminate|]. intros [?|?]; done.
  - intros plain Hd. by destruct (decryptPiccData_plain _ _ _ Hd) as (_ & _ & ? & _).
  - intros Hk.
    destruct (decryptPiccData_cases [] sdmKey)
      as [[? _]|[(_ & Hm & _)|(_ & _ & H)]]; done.
Qed.

Lemma decryptPiccData_correct_witness :
  length (replicate 16 0) = 16%nat
  ∧ decryptPiccData (cipher := aes128) [] (replicate 16 0) = Some []
  ∧ decryptPiccData (cipher := aes128) (replicate 15 0) (replicate 16 0) = None.
Proof.
  split; [reflexivity|]. split.
  - apply (decryptPiccData_correct (cipher := aes128) [] (replicate 16 0)). reflexivity.
  - apply (decryptPiccData_correct (cipher := aes128) (replicate 15 0) (replicate 16 0)).
    left. simpl. lia.
Defined.

(** C8 as written fails on the empty input: its length is not a positive
    multiple of 16 and the key is valid, yet the result is not [null]. *)
Lemma decryptPiccData_empty_counterexample :
  let piccData : Buffer := [] in
  let sdmKey : Buffer := replicate 16 0 in
  ¬ (decryptPiccData (cipher := aes128) piccData sdmKey = None
     ↔ ¬ (0 < length piccData ∧ length piccData `mod` 16 = 0)%nat
       ∨ length sdmKey ≠ 16%nat).
Proof.
  intros piccData sdmKey [_ H].
  assert (decryptPiccData (cipher := aes128) piccData sdmKey = None) as Hnone.
  { apply H. left. subst piccData. simpl. intros [Hpos _]. lia. }
  discriminate Hnone.
Qed.

(** ** The verifier *)

Lemma truncateCmac_length cmac : length (truncateCmac cmac) = 8%nat.
Proof.
  unfold truncateCmac, for_upto.
  apply (foldl_invariant (fun r : Buffer => length r = 8%nat)); [done|].
  intros r i Hr. destruct (cmac !! _); [by rewrite store_length|done].
Qed.

(** The counter of a record extracted from a buffer of bytes fits three
    bytes. *)
Lemma extracted_counter_range decrypted from r :
  wf_buffer decrypted → extracted decrypted from r → 0 ≤ counterInt r < 2 ^ 24.
Proof.
  intros Hwf (_ & Hc & (c0 & c1 & c2 & Hc3 & ->) & _).
  assert (wf_buffer [c0; c1; c2]) as Hb.
  { rewrite <- Hc3, Hc. by apply Forall_take, Forall_drop. }
  apply Forall_cons in Hb as [H0 Hb]. apply Forall_cons in Hb as [H1 Hb].
  apply Forall_cons in Hb as [H2 _]. unfold is_byte in *. lia.
Qed.

Section Verifier.
Context `{cipher : BlockCipher}.

(** Every outcome of [verifySdmAuth]: one of the three early failures, or a
    comparison of the calculated CMAC with the upper-cased provided one. *)
Lemma verifySdmAuth_cases env piccDataHex providedCmacHex sdmKeyHex :
  let result := verifySdmAuth env piccDataHex providedCmacHex sdmKeyHex in
  (¬ comparisonReached env piccDataHex sdmKeyHex
   ∧ ∃ msg, result = failure msg
            ∧ msg ∈ ["SDM key not configured"; "PICC data decryption failed";
                     "Failed to extract UID and counter"])
  ∨ (comparisonReached env piccDataHex sdmKeyHex
     ∧ ∃ uidText ctr calculated,
         isUpperHex calculated = true ∧ String.length calculated = 16%nat
         ∧ result =
             let isValid := String.eqb calculated (toUpperCase providedCmacHex) in
             {| SdmAuthResult.success := isValid;
                SdmAuthResult.uid := Some uidText;
                SdmAuthResult.counter := Some ctr;
                SdmAuthResult.method :=
                  Some (if isValid then Some "Full mirroring with empty data" else None);
                SdmAuthResult.calculatedCmac := Some calculated;
                SdmAuthResult.providedCmac := Some (toUpperCase providedCmacHex);
                SdmAuthResult.error := None |}).
Proof.
  intros result. subst result.
  unfold verifySdmAuth, verifySdmAuth_body, comparisonReached.
  fold (resolvedKey env sdmKeyHex).
  destruct (truthy (resolvedKey env sdmKeyHex)) eqn:Hkey; cbn [negb].
  2:{ left. split; [by intros [? _]|]. eexists. split; [reflexivity|].
      apply list_elem_of_here. }
  set (key := hexDecode (default "" (resolvedKey env sdmKeyHex))).
  set (picc := hexDecode piccDataHex).
  destruct (decryptPiccData picc key) as [decrypted|] eqn:Hdec.
  2:{ left. split.
      - intros (_ & Hk & Hm & _).
        destruct (decryptPiccData_cases picc key)
          as [[? _]|[(_ & ? & _)|(_ & _ & H)]]; try done. congruence.
      - eexists. split; [reflexivity|].
        apply list_elem_of_further, list_elem_of_here. }
  destruct (decryptPiccData_plain _ _ _ Hdec) as (Hk & Hm & Hlen & Hwf).
  destruct (decide (length decrypted < 10)%nat) as [Hshort|Hlong].
  { rewrite extractUidAndCounter_short by done. cbn [mbind outcome_bind mret outcome_ret].
    left. split; [intros (_ & _ & _ & ?); lia|].
    eexists. split; [reflexivity|].
    apply list_elem_of_further, list_elem_of_further, list_elem_of_here. }
  right. split; [repeat split; try done; lia|].
  assert (∃ from r, extractUidAndCounter decrypted = Return (Some r)
                    ∧ extracted decrypted from r) as (from & r & Hex & Hr).
  { destruct (decide (length decrypted = 10%nat)) as [H10|H10].
    - destruct (extractUidAndCounter_untagged decrypted H10) as (r & ? & ?). eauto.
    - destruct (extractUidAndCounter_tagged decrypted ltac:(lia)) as (r & ? & ?). eauto. }
  rewrite Hex. cbn [mbind outcome_bind mret outcome_ret].
  pose proof (extracted_counter_range _ _ _ Hwf Hr) as Hctr.
  rewrite generateSdmSessionKey_unfold.
  destruct (generateSdmSessionVector_returns [60; 195] (uid r) (inject_Z (counterInt r))
              (Some {| uidMirroring := Some true; readCounter := Some true |})
              (inCounterRange_integer _ Hctr))
    as [v ->].
  cbn [mbind outcome_bind].
  destruct (calculateCmac_returns key
              (if decide (length v < 16)%nat then v ++ replicate (16 - length v) 0 else v)
              Hk) as (mac & -> & Hmac & _).
  cbn [mbind outcome_bind].
  destruct (calculateCmac_returns mac (alloc 0) Hmac) as (full & -> & Hfull & _).
  cbn [mbind outcome_bind mret outcome_ret].
  destruct (hexEncode_upper (truncateCmac full)) as [Hup Hl].
  rewrite truncateCmac_length in Hl.
  eexists _, _, _. split; [exact Hup|]. split; [exact Hl|]. reflexivity.
Qed.

End Verifier.

(** C2, as the code has it.  [verifySdmAuth] returns [calculatedCmac] and
    [providedCmac] exactly on the outcomes that reach the CMAC comparison (a
    key is resolved and decodes to 16 bytes, and the PICC text decodes to a
    positive multiple of 16 bytes): there, match or mismatch,
    [calculatedCmac] is 16 upper-case hexadecimal characters and
    [providedCmac] is the upper-cased form of the caller's text.  On every
    other outcome the result is a failure with an error text and without
    either field. *)
Theorem verifySdmAuth_cmac_fields `{cipher : BlockCipher}
    (env : option string) (piccDataHex providedCmacHex : string)
    (sdmKeyHex : option string) :
  let result := verifySdmAuth env piccDataHex providedCmacHex sdmKeyHex in
  (comparisonReached env piccDataHex sdmKeyHex →
     ∃ calculated,
       SdmAuthResult.calculatedCmac result = Some calculated
       ∧ isUpperHex calculated = true ∧ String.length calculated = 16%nat
       ∧ SdmAuthResult.providedCmac result = Some (toUpperCase providedCmacHex)
       ∧ SdmAuthResult.success result = String.eqb calculated (toUpperCase providedCmacHex)
       ∧ SdmAuthResult.error result = None)
  ∧ (¬ comparisonReached env piccDataHex sdmKeyHex →
       SdmAuthResult.success result = false
       ∧ SdmAuthResult.calculatedCmac result = None
       ∧ SdmAuthResult.providedCmac result = None
       ∧ ∃ msg, SdmAuthResult.error result = Some msg).
Proof.
  intros result.
  destruct (verifySdmAuth_cases env piccDataHex providedCmacHex sdmKeyHex)
    as [(Hno & msg & Hres & _)|(Hyes & uidText & ctr & calc & Hup & Hlen & Hres)];
    fold result in Hres; rewrite Hres.
  - split; [done|]. intros _. cbn. eauto.
  - split; [|done]. intros _. exists calc. cbn. done.
Qed.

Lemma verifySdmAuth_cmac_fields_witness :
  let env := Some "00000000000000000000000000000000" in
  let result :=
    verifySdmAuth (cipher := aes128) env "1234567890ABCDEF1234567890ABCDEF"
      "1234567890abcdef" None in
  comparisonReached env "1234567890ABCDEF1234567890ABCDEF" None
  ∧ SdmAuthResult.providedCmac result = Some "1234567890ABCDEF"
  ∧ ¬ comparisonReached None "1234567890ABCDEF1234567890ABCDEF" None
  ∧ SdmAuthResult.providedCmac
      (verifySdmAuth (cipher := aes128) None "1234567890ABCDEF1234567890ABCDEF"
         "1234567890abcdef" None) = None.
Proof.
  assert (comparisonReached (Some "00000000000000000000000000000000")
            "1234567890ABCDEF1234567890ABCDEF" None) as Hyes
    by (vm_compute; repeat split; lia).
  assert (¬ comparisonReached None "1234567890ABCDEF1234567890ABCDEF" None) as Hno
    by (intros [Hk _]; discriminate Hk).
  split; [exact Hyes|]. split; [|split; [exact Hno|]].
  - destruct (proj1 (verifySdmAuth_cmac_fields (cipher := aes128)
                       (Some "00000000000000000000000000000000")
                       "1234567890ABCDEF1234567890ABCDEF" "1234567890abcdef" None) Hyes)
      as (calc & _ & _ & _ & Hp & _).
    exact Hp.
  - destruct (proj2 (verifySdmAuth_cmac_fields (cipher := aes128) None
                       "1234567890ABCDEF1234567890ABCDEF" "1234567890abcdef" None) Hno)
      as (_ & _ & Hp & _).
    exact Hp.
Defined.

(** C2 as written fails on the failure outcomes: without a key, and with a
    PICC text that cannot be decrypted, the result carries neither CMAC. *)
Lemma verifySdmAuth_fields_counterexample :
  let noKey :=
    verifySdmAuth (cipher := aes128) None "1234567890ABCDEF1234567890ABCDEF"
      "1234567890ABCDEF" None in
  let badPicc :=
    verifySdmAuth (cipher := aes128) None "1234" "1234567890ABCDEF"
      (Some "00000000000000000000000000000000") in
  ¬ (is_Some (SdmAuthResult.calculatedCmac noKey)
     ∧ is_Some (SdmAuthResult.providedCmac noKey))
  ∧ ¬ (is_Some (SdmAuthResult.calculatedCmac badPicc)
       ∧ is_Some (SdmAuthResult.providedCmac badPicc))
  ∧ SdmAuthResult.error noKey = Some "SDM key not configured"
  ∧ SdmAuthResult.error badPicc = Some "PICC data decryption failed".
Proof.
  cbv zeta. split; [|split; [|split]]; [| |reflexivity|reflexivity].
  - intros [[c Hc] _]. discriminate Hc.
  - intros [[c Hc] _]. discriminate Hc.
Qed.

(** The outcomes the tests of the library look at. *)
Example verifySdmAuth_mismatch :
  verifySdmAuth (cipher := aes128) None "00000000000000000000000000000000"
    "1234567890ABCDEF" (Some "00000000000000000000000000000000")
  = {| SdmAuthResult.success := false;
       SdmAuthResult.uid := Some "0F0F1011B5223D";
       SdmAuthResult.counter := Some 7821433;
       SdmAuthResult.method := Some None;
       SdmAuthResult.calculatedCmac := Some "D152A28F99426AD2";
       SdmAuthResult.providedCmac := Some "1234567890ABCDEF";
       SdmAuthResult.error := None |}.
Proof. vm_compute. reflexivity. Qed.

Example verifySdmAuth_invalid_text :
  verifySdmAuth (cipher := aes128) (Some "00000000000000000000000000000000")
    "invalid" "invalid" None
  = failure "Failed to extract UID and counter".
Proof. vm_compute. reflexivity. Qed.

(** ** Malformed hexadecimal text *)

(** Text after a well-formed prefix is dropped by the decoder as soon as a
    pair starts with a character that is not a hexadecimal digit. *)
Lemma hexDecode_garbage (n : nat) (s : string) (c : ascii) (t : string) :
  (String.length s ≤ n)%nat → wellFormedHex s = true → unhex c = None →
  hexDecode (s ++ String c t) = hexDecode s.
Proof.
  revert s. induction n as [n IH] using lt_wf_ind.
  intros s Hn Hwf Hc. destruct s as [|a [|b rest]].
  - destruct t as [|b t]; [done|].
    change (hexDecode (String c (String b t)) = []).
    cbn [hexDecode]. by rewrite Hc.
  - discriminate Hwf.
  - change (hexDecode (String a (String b (rest ++ String c t)))
            = hexDecode (String a (String b rest))).
    cbn [hexDecode wellFormedHex] in Hwf |- *.
    destruct (unhex a), (unhex b); try discriminate.
    f_equal. cbn [String.length] in Hn. apply (IH (String.length rest)); try done; lia.
Qed.

(** C9.  The verifier has no hex-parsing failure: a PICC text made of 32
    hexadecimal digits followed by "zz" is not well-formed, yet it is decoded
    as its first 16 bytes and, with the matching CMAC, authenticates. *)
Theorem verifySdmAuth_accepts_malformed_hex :
  wellFormedHex "00000000000000000000000000000000zz" = false
  ∧ verifySdmAuth (cipher := aes128) None "00000000000000000000000000000000zz"
      "D152A28F99426AD2" (Some "00000000000000000000000000000000")
    = {| SdmAuthResult.success := true;
         SdmAuthResult.uid := Some "0F0F1011B5223D";
         SdmAuthResult.counter := Some 7821433;
         SdmAuthResult.method := Some (Some "Full mirroring with empty data");
         SdmAuthResult.calculatedCmac := Some "D152A28F99426AD2";
         SdmAuthResult.providedCmac := Some "D152A28F99426AD2";
         SdmAuthResult.error := None |}.
Proof. split; vm_compute; reflexivity. Qed.

(** More generally the verifier cannot tell a well-formed PICC text from the
    same text followed by anything that starts with a non-hexadecimal
    character. *)
Lemma verifySdmAuth_ignores_garbage `{cipher : BlockCipher}
    env piccDataHex providedCmacHex sdmKeyHex c t :
  wellFormedHex piccDataHex = true → unhex c = None →
  verifySdmAuth env (piccDataHex ++ String c t) providedCmacHex sdmKeyHex
  = verifySdmAuth env piccDataHex providedCmacHex sdmKeyHex.
Proof.
  intros Hwf Hc. unfold verifySdmAuth, verifySdmAuth_body.
  by rewrite (hexDecode_garbage (String.length piccDataHex)).
Qed.

(** * Further properties *)

(** ** Bytes *)

(** A property of bytes that holds on each of the 256 of them. *)
Lemma forall_byte (P : Z → bool) :
  forallb P allBytes = true → ∀ b, is_byte b → P b = true.
Proof.
  intros Hall b Hb. rewrite forallb_forall in Hall. apply Hall.
  unfold allBytes. apply in_map_iff. exists (Z.to_nat b).
  split; [unfold is_byte in Hb; lia|]. apply in_seq. unfold is_byte in Hb. lia.
Qed.

Lemma to_uint8_land v : to_uint8 v = Z.land v (Z.ones 8).
Proof. unfold to_uint8. by rewrite Z.land_ones by lia. Qed.

Lemma land_lxor_distr a b c :
  Z.land (Z.lxor a b) c = Z.lxor (Z.land a c) (Z.land b c).
Proof.
  apply Z.bits_inj'. intros n Hn.
  rewrite !Z.land_spec, !Z.lxor_spec, !Z.land_spec.
  by destruct (Z.testbit a n), (Z.testbit b n), (Z.testbit c n).
Qed.

Lemma lxor_byte x y : is_byte x → is_byte y → is_byte (Z.lxor x y).
Proof.
  intros Hx Hy.
  rewrite <- (to_uint8_byte x Hx), <- (to_uint8_byte y Hy), !to_uint8_land.
  rewrite <- land_lxor_distr, <- to_uint8_land. apply to_uint8_is_byte.
Qed.

(** XOR-ing the same byte in twice gives the byte back. *)
Lemma to_uint8_lxor_cancel x y :
  to_uint8 (Z.lxor (to_uint8 (Z.lxor x y)) y) = to_uint8 x.
Proof.
  rewrite !to_uint8_land, land_lxor_distr.
  rewrite <- Z.land_assoc, Z.land_diag, <- land_lxor_distr.
  by rewrite Z.lxor_assoc, Z.lxor_nilpotent, Z.lxor_0_r.
Qed.

(** ** [xor] *)

(** Byte [i] of [xor a b], for buffers of bytes. *)
Lemma xor_lookup_bytes (a b : Buffer) (i : nat) :
  wf_buffer a → wf_buffer b → (i < Nat.max (length a) (length b))%nat →
  xor a b !! i = Some (Z.lxor (default 0 (a !! i)) (default 0 (b !! i))).
Proof.
  intros Ha Hb Hi. rewrite xor_lookup by done. f_equal. apply to_uint8_byte.
  assert (∀ l : Buffer, wf_buffer l → is_byte (default 0 (l !! i))) as Hget.
  { intros l Hl. destruct (l !! i) as [x|] eqn:Hx; simpl.
    - by eapply (Forall_lookup_1 _ l).
    - unfold is_byte. lia. }
  apply lxor_byte; by apply Hget.
Qed.

(** X1.  [xor] returns as many bytes as the longer argument; on buffers of
    bytes, byte [i] of the result is the XOR of the two bytes at [i], a
    buffer that has ended counting as zero. *)
Theorem xor_pointwise (a b : Buffer) :
  wf_buffer a → wf_buffer b →
  length (xor a b) = Nat.max (length a) (length b)
  ∧ wf_buffer (xor a b)
  ∧ ∀ i, (i < Nat.max (length a) (length b))%nat →
      xor a b !! i = Some (Z.lxor (default 0 (a !! i)) (default 0 (b !! i))).
Proof.
  intros Ha Hb. split; [apply xor_length|]. split; [apply xor_bytes|].
  intros i Hi. by apply xor_lookup_bytes.
Qed.

Lemma xor_pointwise_witness :
  wf_buffer [1; 2] ∧ wf_buffer [4; 5; 6] ∧ xor [1; 2] [4; 5; 6] !! 2%nat = Some 6.
Proof.
  assert (wf_buffer [1; 2]) as Ha by (repeat constructor; unfold is_byte; lia).
  assert (wf_buffer [4; 5; 6]) as Hb by (repeat constructor; unfold is_byte; lia).
  split; [exact Ha|]. split; [exact Hb|].
  apply (xor_pointwise [1; 2] [4; 5; 6] Ha Hb). simpl. lia.
Defined.

Lemma xor_comm a b : xor a b = xor b a.
Proof.
  apply list_eq. intros i.
  destruct (decide (i < Nat.max (length a) (length b))%nat) as [Hi|Hi].
  - rewrite !xor_lookup by lia. by rewrite Z.lxor_comm.
  - rewrite !lookup_ge_None_2; [done| |]; rewrite xor_length; lia.
Qed.

(** X2.  [xor] is commutative, and XOR-ing a mask in twice gives the buffer
    of bytes back when the mask is not longer than the buffer. *)
Theorem xor_cancel (a b : Buffer) :
  wf_buffer a → (length b ≤ length a)%nat →
  xor a b = xor b a ∧ xor (xor a b) b = a.
Proof.
  intros Ha Hlen. split; [apply xor_comm|].
  apply list_eq. intros i.
  destruct (decide (i < length a)%nat) as [Hi|Hi].
  - rewrite xor_lookup by (rewrite xor_length; lia).
    rewrite (xor_lookup a b) by lia. cbn [default from_option id].
    destruct (lookup_lt_is_Some_2 a i Hi) as [x Hx]. rewrite Hx. cbn.
    rewrite to_uint8_lxor_cancel. f_equal. apply to_uint8_byte.
    by eapply (Forall_lookup_1 _ a).
  - rewrite !lookup_ge_None_2; [done|lia|]. rewrite !xor_length. lia.
Qed.

Lemma xor_cancel_witness :
  wf_buffer [18; 52; 86] ∧ (length [255; 1] ≤ length [18; 52; 86])%nat
  ∧ xor (xor [18; 52; 86] [255; 1]) [255; 1] = [18; 52; 86].
Proof.
  assert (wf_buffer [18; 52; 86]) as Ha by (repeat constructor; unfold is_byte; lia).
  split; [exact Ha|]. split; [simpl; lia|].
  apply (xor_cancel [18; 52; 86] [255; 1] Ha). simpl. lia.
Defined.

(** ** [shiftLeft] *)

(** The loop of [shiftLeft], run from the last index down to [k], has
    shifted the bytes from [k] on and holds the bit carried out of byte [k]. *)
Lemma shiftLeft_loop (buf : Buffer) (m : nat) :
  (m ≤ length buf)%nat →
  let k := (length buf - m)%nat in
  foldl (fun '(result, overflow) i =>
           match buf !! i with
           | Some byte =>
               (store result i (Z.land (Z.lor (Z.shiftl byte 1) overflow) 255),
                Z.shiftr (Z.land byte 128) 7)
           | None => (result, overflow)
           end)
        (alloc (length buf), 0) (rev (seq k m))
  = (alloc k ++ (shiftLeftCarry (drop k buf)).1, (shiftLeftCarry (drop k buf)).2).
Proof.
  induction m as [|m IH]; intros Hm k; subst k.
  - rewrite Nat.sub_0_r, drop_all. cbn. by rewrite app_nil_r.
  - cbn [seq rev]. rewrite foldl_app.
    replace (S (length buf - S m)) with (length buf - m)%nat by lia.
    rewrite IH by lia. cbn [foldl].
    set (k := (length buf - S m)%nat).
    replace (length buf - m)%nat with (S k) by lia.
    destruct (lookup_lt_is_Some_2 buf k ltac:(lia)) as [byte Hbyte].
    rewrite Hbyte. rewrite (drop_S buf byte k Hbyte). cbn [shiftLeftCarry].
    destruct (shiftLeftCarry (drop (S k) buf)) as [shifted overflow] eqn:Hrest.
    cbn [fst snd]. f_equal. unfold store, alloc.
    assert (length (shifted) = length (drop (S k) buf)) as Hlen.
    { clear -Hrest. revert shifted overflow Hrest.
      induction (drop (S k) buf) as [|b l IHl]; intros shifted overflow Hrest.
      - by injection Hrest as <- <-.
      - cbn [shiftLeftCarry] in Hrest. destruct (shiftLeftCarry l) as [s o].
        injection Hrest as <- <-. cbn. f_equal. by eapply IHl. }
    replace (replicate (S k) 0) with (replicate k 0 ++ [0])
      by (by rewrite <- replicate_S_end).
    rewrite <- app_assoc. cbn [app].
    rewrite <- (Nat.add_0_r k) at 1.
    rewrite <- (length_replicate k 0) at 1.
    by rewrite insert_app_r.
Qed.

(** The index loop and the recursion on the buffer agree. *)
Lemma shiftLeft_shiftLeftCarry buf : shiftLeft buf = (shiftLeftCarry buf).1.
Proof.
  unfold shiftLeft, for_downfrom.
  pose proof (shiftLeft_loop buf (length buf) ltac:(lia)) as H.
  cbn zeta in H. rewrite Nat.sub_diag in H. cbn [alloc replicate app drop] in H.
  by rewrite H.
Qed.

Lemma beValue_snoc buf b : beValue (buf ++ [b]) = beValue buf * 256 + b.
Proof. unfold beValue. by rewrite foldl_app. Qed.

Lemma beValue_cons b buf :
  beValue (b :: buf) = b * 256 ^ Z.of_nat (length buf) + beValue buf.
Proof.
  induction buf as [|x buf IH] using rev_ind; [cbn; lia|].
  rewrite app_comm_cons, !beValue_snoc, IH, length_app. cbn [length].
  replace (Z.of_nat (length buf + 1)) with (Z.of_nat (length buf) + 1) by lia.
  rewrite Z.pow_add_r by lia. lia.
Qed.

(** A buffer of [n] bytes spells an integer below 256^n. *)
Lemma beValue_bound buf :
  wf_buffer buf → 0 ≤ beValue buf < 256 ^ Z.of_nat (length buf).
Proof.
  induction buf as [|b buf IH]; intros Hwf; [cbn; lia|].
  apply Forall_cons in Hwf as [Hb Hwf]. specialize (IH Hwf).
  rewrite beValue_cons. cbn [length].
  replace (Z.of_nat (S (length buf))) with (Z.of_nat (length buf) + 1) by lia.
  rewrite Z.pow_add_r by lia. unfold is_byte in Hb. nia.
Qed.

(** One byte of the shift: the new byte and the carry make up twice the
    byte plus the carry that came in. *)
Lemma shift_byte b c :
  is_byte b → c = 0 ∨ c = 1 →
  to_uint8 (Z.land (Z.lor (Z.shiftl b 1) c) 255) + 256 * Z.shiftr (Z.land b 128) 7
  = 2 * b + c
  ∧ (Z.shiftr (Z.land b 128) 7 = 0 ∨ Z.shiftr (Z.land b 128) 7 = 1).
Proof.
  intros Hb Hc.
  pose proof (forall_byte
    (fun b => (to_uint8 (Z.land (Z.lor (Z.shiftl b 1) 0) 255)
               + 256 * Z.shiftr (Z.land b 128) 7 =? 2 * b + 0)
              && (to_uint8 (Z.land (Z.lor (Z.shiftl b 1) 1) 255)
                  + 256 * Z.shiftr (Z.land b 128) 7 =? 2 * b + 1)
              && ((Z.shiftr (Z.land b 128) 7 =? 0) || (Z.shiftr (Z.land b 128) 7 =? 1)))
    eq_refl b Hb) as H.
  cbv beta in H. apply andb_prop in H as [H H3]. apply andb_prop in H as [H1 H2].
  apply Z.eqb_eq in H1, H2. apply orb_prop in H3.
  split; [destruct Hc as [->| ->]; done|].
  destruct H3 as [H3|H3]; apply Z.eqb_eq in H3; auto.
Qed.

Lemma shiftLeftCarry_value buf :
  wf_buffer buf →
  let '(shifted, overflow) := shiftLeftCarry buf in
  beValue shifted + overflow * 256 ^ Z.of_nat (length buf) = 2 * beValue buf
  ∧ (overflow = 0 ∨ overflow = 1)
  ∧ wf_buffer shifted ∧ length shifted = length buf.
Proof.
  induction buf as [|b buf IH]; intros Hwf; [cbn; auto 10|].
  apply Forall_cons in Hwf as [Hb Hwf]. specialize (IH Hwf).
  cbn [shiftLeftCarry]. destruct (shiftLeftCarry buf) as [shifted overflow].
  destruct IH as (Hval & Hov & Hs & Hlen).
  destruct (shift_byte b overflow Hb Hov) as [Hbyte Hcarry].
  split; [|split; [done|split]].
  - rewrite !beValue_cons, Hlen. cbn [length].
    replace (Z.of_nat (S (length buf))) with (Z.of_nat (length buf) + 1) by lia.
    rewrite Z.pow_add_r by lia. nia.
  - constructor; [apply to_uint8_is_byte|done].
  - cbn. by rewrite Hlen.
Qed.

(** The value, length and bytes of [shiftLeft buf]. *)
Lemma shiftLeft_value (buf : Buffer) :
  wf_buffer buf →
  beValue (shiftLeft buf) = (2 * beValue buf) `mod` 256 ^ Z.of_nat (length buf)
  ∧ length (shiftLeft buf) = length buf
  ∧ wf_buffer (shiftLeft buf).
Proof.
  intros Hwf. rewrite shiftLeft_shiftLeftCarry.
  pose proof (shiftLeftCarry_value buf Hwf) as H.
  destruct (shiftLeftCarry buf) as [shifted overflow]. cbn [fst].
  destruct H as (Hval & Hov & Hs & Hlen).
  split; [|done].
  pose proof (beValue_bound shifted Hs) as Hb. rewrite Hlen in Hb.
  apply (Z.mod_unique_pos _ _ overflow); [done|]. rewrite <- Hval. ring.
Qed.

(** X3.  On a buffer of bytes [shiftLeft] doubles the big-endian integer the
    buffer spells, modulo 256^n for n bytes: the bit shifted out of the first
    byte is dropped.  The result has the same length and holds bytes. *)
Theorem shiftLeft_doubles (buf : Buffer) :
  wf_buffer buf →
  beValue (shiftLeft buf) = (2 * beValue buf) `mod` 256 ^ Z.of_nat (length buf)
  ∧ length (shiftLeft buf) = length buf
  ∧ wf_buffer (shiftLeft buf).
Proof. exact (shiftLeft_value buf). Qed.

Lemma shiftLeft_doubles_witness :
  wf_buffer [255; 128]
  ∧ beValue (shiftLeft [255; 128]) = (2 * beValue [255; 128]) `mod` 256 ^ 2.
Proof.
  assert (wf_buffer [255; 128]) as H by (repeat constructor; unfold is_byte; lia).
  split; [exact H|]. apply (shiftLeft_doubles [255; 128] H).
Defined.

(** ** The CMAC engine beyond the documented construction *)

(** X4.  [calculateCmac] and [generateSubkeys] return exactly under a
    16-byte key; under any other key both throw the cipher's
    "Invalid key length", whatever the data. *)
Theorem cmac_needs_16_byte_key `{cipher : BlockCipher} (key data : Buffer) :
  (returns (calculateCmac key data) ↔ length key = 16%nat)
  ∧ (returns (generateSubkeys key) ↔ length key = 16%nat)
  ∧ (length key ≠ 16%nat →
       generateSubkeys key = Throw (CryptoError "Invalid key length")
       ∧ calculateCmac key data = Throw (CryptoError "Invalid key length")).
Proof.
  pose proof (calculateCmac_bad_key key data) as Hbad.
  split; [|split; [|done]].
  - split.
    + intros [mac Hmac]. destruct (decide (length key = 16%nat)) as [?|Hk]; [done|].
      destruct (Hbad Hk) as [_ Hc]. congruence.
    + intros Hk. destruct (calculateCmac_returns key data Hk) as (mac & ? & _).
      by exists mac.
  - split.
    + intros [sk Hsk]. destruct (decide (length key = 16%nat)) as [?|Hk]; [done|].
      destruct (Hbad Hk) as [Hc _]. congruence.
    + intros Hk. eexists. by apply generateSubkeys_spec.
Qed.

Lemma cmac_needs_16_byte_key_witness :
  calculateCmac (cipher := aes128) (replicate 15 0) [1; 2; 3]
  = Throw (CryptoError "Invalid key length")
  ∧ returns (calculateCmac (cipher := aes128) (replicate 16 0) [1; 2; 3]).
Proof.
  split.
  - apply (cmac_needs_16_byte_key (cipher := aes128) (replicate 15 0) [1; 2; 3]).
    simpl. lia.
  - apply (cmac_needs_16_byte_key (cipher := aes128) (replicate 16 0) [1; 2; 3]).
    reflexivity.
Defined.

(** XOR with a byte only touches the low eight bits. *)
Lemma lxor_low h l m :
  is_byte l → is_byte m → Z.lxor (h * 256 + l) m = h * 256 + Z.lxor l m.
Proof.
  intros Hl Hm. pose proof (lxor_byte l m Hl Hm) as Hx. unfold is_byte in *.
  apply Z.bits_inj'. intros n Hn. rewrite Z.lxor_spec.
  destruct (decide (n < 8)) as [Hlow|Hhigh].
  - rewrite <- (Z.mod_pow2_bits_low (h * 256 + l) 8 n) by lia.
    rewrite <- (Z.mod_pow2_bits_low (h * 256 + Z.lxor l m) 8 n) by lia.
    change (2 ^ 8) with 256.
    rewrite !(Z.add_comm (h * 256)), !Z.mod_add, !Z.mod_small by lia.
    by rewrite Z.lxor_spec.
  - replace n with ((n - 8) + 8) by lia.
    rewrite <- !Z.div_pow2_bits by lia. change (2 ^ 8) with 256.
    rewrite !(Z.add_comm (h * 256)), !Z.div_add, !Z.div_small by lia.
    by rewrite Z.bits_0, xorb_false_r.
Qed.

(** XOR with the constant 00..0087 changes the last byte only. *)
Lemma xor_Rb (s : Buffer) :
  wf_buffer s → length s = 16%nat →
  ∃ front last, s = front ++ [last] ∧ is_byte last
                ∧ xor s Rb = front ++ [Z.lxor last 135].
Proof.
  intros Hwf Hlen.
  destruct (lookup_lt_is_Some_2 s 15 ltac:(lia)) as [last Hlast].
  assert (s = take 15 s ++ [last]) as Hs.
  { rewrite <- (take_drop 15 s) at 1. f_equal.
    rewrite (drop_S s last 15 Hlast), drop_ge by lia. done. }
  exists (take 15 s), last. split; [done|].
  assert (is_byte last) as Hb by (by eapply (Forall_lookup_1 _ s)).
  split; [done|].
  assert (wf_buffer Rb) as Hrb.
  { unfold Rb. apply Forall_app. split; [apply Forall_replicate|repeat constructor];
      unfold is_byte; lia. }
  pose proof (xor_length s Rb) as Hxl.
  pose proof (fun i => xor_lookup_bytes s Rb i Hwf Hrb) as Hx.
  apply list_eq. intros i.
  destruct (decide (i < 16)%nat) as [Hi|Hi].
  - rewrite Hx by (rewrite Hlen; simpl; lia).
    destruct (decide (i = 15%nat)) as [->|Hne].
    + rewrite Hlast. cbn [default from_option id].
      rewrite lookup_app_r by (rewrite length_take; lia).
      rewrite length_take, Hlen. reflexivity.
    + rewrite lookup_app_l by (rewrite length_take; lia).
      rewrite lookup_take_lt by lia.
      destruct (lookup_lt_is_Some_2 s i ltac:(lia)) as [x Hxi]. rewrite Hxi.
      unfold Rb. rewrite lookup_app_l by (rewrite length_replicate; lia).
      rewrite lookup_replicate_2 by lia. cbn. by rewrite Z.lxor_0_r.
  - rewrite !lookup_ge_None_2; [done| |].
    + rewrite length_app, length_take, Hlen. cbn [length]. lia.
    + rewrite Hxl, Hlen. unfold Rb. rewrite length_app, length_replicate.
      cbn [length]. lia.
Qed.

(** The top bit of a block of bytes is set when its integer is at least
    2^127. *)
Lemma topBit_value (b : Buffer) :
  wf_buffer b → length b = 16%nat → topBit b = (2 ^ 127 <=? beValue b).
Proof.
  intros Hwf Hlen. destruct b as [|b0 rest]; [discriminate|].
  apply Forall_cons in Hwf as [Hb0 Hrest]. cbn in Hlen.
  pose proof (beValue_bound rest Hrest) as Hbound.
  rewrite beValue_cons. replace (length rest) with 15%nat in * by lia.
  unfold topBit. cbn [lookup list_lookup default from_option id].
  pose proof (forall_byte (fun b => Bool.eqb (Z.testbit b 7) (128 <=? b)) eq_refl b0 Hb0)
    as H.
  apply Bool.eqb_prop in H. rewrite H.
  change (256 ^ Z.of_nat 15) with (2 ^ 120) in *. unfold is_byte in Hb0.
  destruct (Z.leb_spec 128 b0), (Z.leb_spec (2 ^ 127) (b0 * 2 ^ 120 + beValue rest));
    try done; lia.
Qed.

(** One step of the subkey derivation doubles the block in GF(2^128). *)
Lemma subkey_step (b : Buffer) :
  wf_buffer b → length b = 16%nat →
  let next := if topBit b then xor (shiftLeft b) Rb else shiftLeft b in
  beValue next = gfDouble (beValue b) ∧ wf_buffer next ∧ length next = 16%nat.
Proof.
  intros Hwf Hlen next.
  destruct (shiftLeft_value b Hwf) as (Hval & Hsl & Hsw).
  rewrite Hlen in Hval, Hsl. change (256 ^ Z.of_nat 16) with (2 ^ 128) in Hval.
  unfold gfDouble. rewrite <- (topBit_value b Hwf Hlen), <- Hval. subst next.
  destruct (topBit b).
  - destruct (xor_Rb (shiftLeft b) Hsw Hsl) as (front & last & Hs & Hlast & Hx).
    split; [|split; [apply xor_bytes|by rewrite xor_length, Hsl]].
    rewrite Hx, Hs, !beValue_snoc. symmetry. apply lxor_low; [done|].
    unfold is_byte. lia.
  - by rewrite Z.lxor_0_r.
Qed.

(** X5.  The subkeys are the GF(2^128) doublings of RFC 4493: under a 16-byte
    key, reading blocks as big-endian integers, K1 is the double of
    L = Encrypt(0^128) and K2 the double of K1, where doubling shifts left by
    one bit modulo 2^128 and XORs 0x87 in when the bit shifted out was set. *)
Theorem generateSubkeys_doubles `{cipher : BlockCipher} (key : Buffer) :
  length key = 16%nat →
  ∃ sk, generateSubkeys key = Return sk
        ∧ beValue (k1 sk) = gfDouble (beValue (encryptBlock key (replicate 16 0)))
        ∧ beValue (k2 sk) = gfDouble (beValue (k1 sk)).
Proof.
  intros Hk. eexists. split; [by apply generateSubkeys_spec|].
  cbn [k1 k2]. unfold subkeysSpec. cbn [fst snd].
  pose proof (encryptBlock_length key zeroBlock Hk eq_refl) as HL.
  pose proof (encryptBlock_bytes key zeroBlock Hk eq_refl) as HLw.
  destruct (subkey_step _ HLw HL) as (H1 & H1w & H1l).
  split; [exact H1|].
  by destruct (subkey_step _ H1w H1l) as (H2 & _).
Qed.

Lemma generateSubkeys_doubles_witness :
  let key := hexDecode "2b7e151628aed2a6abf7158809cf4f3c" in
  length key = 16%nat
  ∧ ∃ sk, generateSubkeys (cipher := aes128) key = Return sk
          ∧ beValue (k2 sk) = gfDouble (beValue (k1 sk)).
Proof.
  split; [reflexivity|].
  destruct (generateSubkeys_doubles (cipher := aes128)
              (hexDecode "2b7e151628aed2a6abf7158809cf4f3c") eq_refl)
    as (sk & Hsk & _ & H2).
  exists sk. split; [exact Hsk|exact H2].
Defined.

(** The padded block of a short message has 0x80 right after the message
    and zeros from there on. *)
Lemma padBlock_lookup (p : Buffer) (i : nat) :
  (length p < 16)%nat →
  padBlock p !! length p = Some 128
  ∧ ((length p < i < 16)%nat → padBlock p !! i = Some 0).
Proof.
  intros Hp. unfold padBlock. split.
  - by rewrite lookup_app_r, Nat.sub_diag by lia.
  - intros Hi. rewrite lookup_app_r by lia.
    replace (i - length p)%nat with (S (i - length p - 1)) by lia.
    cbn [app lookup list_lookup]. apply lookup_replicate_2. lia.
Qed.

Lemma padBlock_inj_le (p q : Buffer) :
  (length p ≤ length q < 16)%nat → padBlock p = padBlock q → p = q.
Proof.
  intros Hlen Heq. destruct (decide (length p = length q)) as [Hsame|Hdiff].
  - unfold padBlock in Heq. by apply app_inj_1 in Heq as [? _].
  - exfalso.
    destruct (padBlock_lookup q (length q) ltac:(lia)) as [Hq _].
    destruct (padBlock_lookup p (length q) ltac:(lia)) as [_ Hp].
    rewrite <- Heq, Hp in Hq by lia. discriminate Hq.
Qed.

(** X6.  The padding of [calculateCmac] is unambiguous: two messages of
    fewer than 16 bytes that get the same last block are the same message
    (so are of the same length). *)
Theorem padding_unambiguous (data1 data2 : Buffer) :
  (length data1 < 16)%nat → (length data2 < 16)%nat →
  lastBlockOf data1 = lastBlockOf data2 → data1 = data2.
Proof.
  intros H1 H2.
  assert (∀ d : Buffer, (length d < 16)%nat → lastBlockOf d = Return (padBlock d)) as Hpad.
  { intros d Hd. destruct (decide (d = [])) as [->|Hne]; [reflexivity|].
    assert (isComplete d = false) as Hc.
    { unfold isComplete. destruct d as [|b d]; [done|]. cbn [length Nat.eqb negb andb] in *.
      rewrite Nat.mod_small by lia. done. }
    rewrite lastBlockOf_partial by done.
    pose proof (blockCount_positions d Hne) as Hp. rewrite Hc in Hp.
    destruct Hp as [-> _]. by rewrite Nat.div_small, Nat.mul_0_r, drop_0 by lia. }
  rewrite !Hpad by done. intros Heq. injection Heq as Heq.
  destruct (decide (length data1 ≤ length data2)%nat).
  - apply padBlock_inj_le; [lia|done].
  - symmetry. apply padBlock_inj_le; [lia|done].
Qed.

Lemma padding_unambiguous_witness :
  (length [1; 128] < 16)%nat ∧ (length [1] < 16)%nat
  ∧ lastBlockOf [1; 128] ≠ lastBlockOf [1].
Proof.
  split; [simpl; lia|]. split; [simpl; lia|]. intros Heq.
  assert ([1; 128] = [1]) as Hbad; [|discriminate Hbad].
  apply (padding_unambiguous [1; 128] [1]); [simpl; lia|simpl; lia|exact Heq].
Defined.

(** ** [truncateCmac] on any buffer *)

(** A loop that skips the store when there is nothing to write leaves the
    zero that is already there. *)
Lemma foldl_guarded_store (g : nat → option Z) (idx : list nat) (r : Buffer) :
  NoDup idx → (∀ j, j ∈ idx → (j < length r)%nat → r !! j = Some 0) →
  foldl (fun r i => match g i with Some byte => store r i byte | None => r end) r idx
  = foldl (fun r i => store r i (default 0 (g i))) r idx.
Proof.
  revert r. induction idx as [|i idx IH]; intros r Hnd Hzero; [done|].
  apply NoDup_cons in Hnd as [Hi Hnd]. cbn [foldl].
  assert (match g i with Some byte => store r i byte | None => r end
          = store r i (default 0 (g i))) as ->.
  { destruct (g i) as [byte|]; [done|]. cbn. unfold store.
    destruct (decide (i < length r)%nat) as [Hlt|Hge].
    - symmetry. apply list_insert_id. apply Hzero; [apply list_elem_of_here|done].
    - by rewrite list_insert_ge by lia. }
  apply IH; [done|]. intros j Hj Hlt. rewrite store_length in Hlt.
  unfold store. rewrite list_lookup_insert_ne by (intros ->; done).
  apply Hzero; [by apply list_elem_of_further|done].
Qed.

(** X7.  On any buffer of bytes [truncateCmac] returns 8 bytes: byte [i] is
    input byte [2*i+1], or zero where the input is too short to have one. *)
Theorem truncateCmac_any_length (cmac : Buffer) :
  wf_buffer cmac →
  length (truncateCmac cmac) = 8%nat
  ∧ ∀ i, (i < 8)%nat → truncateCmac cmac !! i = Some (default 0 (cmac !! (2 * i + 1)%nat)).
Proof.
  intros Hwf. split; [apply truncateCmac_length|]. intros i Hi.
  unfold truncateCmac, for_upto.
  rewrite (foldl_guarded_store (fun i => cmac !! (i * 2 + 1)%nat)).
  - rewrite (foldl_store_lookup (fun i => default 0 (cmac !! (i * 2 + 1)%nat))).
    rewrite decide_True by (split; [apply elem_of_seq; lia|by rewrite alloc_length]).
    replace (i * 2 + 1)%nat with (2 * i + 1)%nat by lia. f_equal.
    apply to_uint8_byte.
    destruct (cmac !! (2 * i + 1)%nat) as [x|] eqn:Hx; cbn.
    + by eapply (Forall_lookup_1 _ cmac).
    + unfold is_byte. lia.
  - apply NoDup_seq.
  - intros j _ Hj. rewrite alloc_length in Hj. by apply lookup_replicate_2.
Qed.

Lemma truncateCmac_any_length_witness :
  wf_buffer [1; 2; 3; 4; 5] ∧ truncateCmac [1; 2; 3; 4; 5] = [2; 4; 0; 0; 0; 0; 0; 0].
Proof.
  assert (wf_buffer [1; 2; 3; 4; 5]) as H by (repeat constructor; unfold is_byte; lia).
  split; [exact H|].
  destruct (truncateCmac_any_length [1; 2; 3; 4; 5] H) as [Hl Hb].
  apply list_eq. intros i. destruct (decide (i < 8)%nat) as [Hi|Hi].
  - rewrite Hb by done. do 8 (destruct i as [|i]; [reflexivity|]). lia.
  - rewrite !lookup_ge_None_2; [done|simpl; lia|lia].
Defined.

(** ** Hexadecimal text *)

(** Induction on a string two characters at a time. *)
Lemma string_pair_ind (P : string → Prop) :
  P "" → (∀ a, P (String a "")) → (∀ a b s, P s → P (String a (String b s))) →
  ∀ s, P s.
Proof.
  intros H0 H1 H2. fix IH 1. intros [|a [|b s]]; [exact H0|apply H1|].
  apply H2, IH.
Qed.

Lemma unhex_upperChar c : unhex (upperChar c) = unhex c.
Proof. destruct c as [[] [] [] [] [] [] [] []]; reflexivity. Qed.

Lemma upperChar_idemp c : upperChar (upperChar c) = upperChar c.
Proof. destruct c as [[] [] [] [] [] [] [] []]; reflexivity. Qed.

(** Decoding does not look at the case of the digits. *)
Lemma hexDecode_toUpperCase s : hexDecode (toUpperCase s) = hexDecode s.
Proof.
  induction s as [|a|a b s IH] using string_pair_ind; [done..|].
  cbn [toUpperCase hexDecode]. by rewrite !unhex_upperChar, IH.
Qed.

Lemma toUpperCase_idemp s : toUpperCase (toUpperCase s) = toUpperCase s.
Proof. induction s as [|a s IH]; [done|]. cbn. by rewrite upperChar_idemp, IH. Qed.

Lemma toUpperCase_length s : String.length (toUpperCase s) = String.length s.
Proof. induction s as [|a s IH]; [done|]. cbn. by rewrite IH. Qed.

Lemma truthy_toUpperCase k : truthy (toUpperCase <$> k) = truthy k.
Proof. by destruct k as [[|a s]|]. Qed.

(** The two digits of a byte decode to the byte, in either case. *)
Lemma hex_byte_roundtrip b :
  is_byte b →
  hexDecode (hexEncode [b]) = [b] ∧ hexDecode (toUpperCase (hexEncode [b])) = [b].
Proof.
  intros Hb.
  assert (forallb (fun b => bool_decide (hexDecode (hexEncode [b]) = [b])
                            && bool_decide (hexDecode (toUpperCase (hexEncode [b])) = [b]))
            allBytes = true) as Hall by (vm_compute; reflexivity).
  pose proof (forall_byte _ Hall b Hb) as H. cbv beta in H.
  apply andb_prop in H as [H1 H2].
  by apply bool_decide_eq_true in H1, H2.
Qed.

(** Round trip: the text of a buffer of bytes decodes to the buffer, before
    and after upper-casing. *)
Lemma hexDecode_hexEncode buf :
  wf_buffer buf →
  hexDecode (hexEncode buf) = buf ∧ hexDecode (toUpperCase (hexEncode buf)) = buf.
Proof.
  induction buf as [|b buf IH]; intros Hwf; [done|].
  apply Forall_cons in Hwf as [Hb Hwf]. destruct (IH Hwf) as [IH1 IH2].
  destruct (hex_byte_roundtrip b Hb) as [H1 H2].
  cbn [hexEncode toUpperCase hexDecode] in *.
  destruct (unhex (hexDigit (Z.shiftr b 4))), (unhex (hexDigit (Z.land b 15)));
    try discriminate.
  destruct (unhex (upperChar (hexDigit (Z.shiftr b 4)))),
    (unhex (upperChar (hexDigit (Z.land b 15)))); try discriminate.
  injection H1 as H1. injection H2 as H2. split; f_equal; done.
Qed.

(** Well-formed text decodes piecewise. *)
Lemma hexDecode_app p q :
  wellFormedHex p = true → hexDecode (p ++ q) = hexDecode p ++ hexDecode q.
Proof.
  induction p as [|a|a b p IH] using string_pair_ind; intros Hwf; [done|done|].
  change (hexDecode (String a (String b (p ++ q)))
          = hexDecode (String a (String b p)) ++ hexDecode q).
  cbn [hexDecode wellFormedHex] in *.
  destruct (unhex a), (unhex b); try discriminate. cbn. f_equal. by apply IH.
Qed.

(** ** The PICC decoder, round trips *)

(** Three bytes read little-endian and written back big-endian, reversed,
    are the same three bytes. *)
Lemma bigEndian3_readback c0 c1 c2 :
  wf_buffer [c0; c1; c2] →
  rev (bigEndian3 (c0 + c1 * 256 + c2 * 65536)) = [c0; c1; c2].
Proof.
  intros Hwc. unfold bigEndian3. cbn [rev app].
  apply Forall_cons in Hwc as [H0 Hwc]. apply Forall_cons in Hwc as [H1 Hwc].
  apply Forall_cons in Hwc as [H2 _]. unfold is_byte in *.
  assert ((c0 + c1 * 256 + c2 * 65536) `mod` 256 = c0) as ->.
  { replace (c0 + c1 * 256 + c2 * 65536) with (c0 + (c1 + c2 * 256) * 256) by ring.
    rewrite Z.mod_add by lia. apply Z.mod_small. lia. }
  assert ((c0 + c1 * 256 + c2 * 65536) / 256 = c1 + c2 * 256) as ->.
  { replace (c0 + c1 * 256 + c2 * 65536) with (c0 + (c1 + c2 * 256) * 256) by ring.
    rewrite Z.div_add by lia. rewrite Z.div_small by lia. lia. }
  assert ((c0 + c1 * 256 + c2 * 65536) / 65536 = c2) as ->.
  { replace (c0 + c1 * 256 + c2 * 65536) with ((c0 + c1 * 256) + c2 * 65536) by ring.
    rewrite Z.div_add by lia. rewrite Z.div_small by lia. lia. }
  rewrite Z.mod_add by lia. rewrite !Z.mod_small by lia. reflexivity.
Qed.

(** X8.  What [extractUidAndCounter] returns from at least 10 bytes can be
    read back: the UID text decodes to the 7 UID bytes, and the counter
    integer, written big-endian and reversed as the session vector does,
    gives the 3 counter bytes again. *)
Theorem extractUidAndCounter_roundtrip (decrypted : Buffer) :
  wf_buffer decrypted → (10 ≤ length decrypted)%nat →
  ∃ r, extractUidAndCounter decrypted = Return (Some r)
       ∧ length (uid r) = 7%nat ∧ length (counter r) = 3%nat
       ∧ hexDecode (uidHex r) = uid r
       ∧ rev (bigEndian3 (counterInt r)) = counter r
       ∧ 0 ≤ counterInt r < 2 ^ 24.
Proof.
  intros Hwf Hlen.
  assert (∃ from r, extractUidAndCounter decrypted = Return (Some r)
                    ∧ extracted decrypted from r
                    ∧ (from + 10 ≤ length decrypted)%nat) as (from & r & Hex & Hr & Hfrom).
  { destruct (decide (length decrypted = 10%nat)) as [H10|H10].
    - destruct (extractUidAndCounter_untagged decrypted H10) as (r & ? & ?).
      exists 0%nat, r. split; [done|split; [done|lia]].
    - destruct (extractUidAndCounter_tagged decrypted ltac:(lia)) as (r & ? & ?).
      exists 1%nat, r. split; [done|split; [done|lia]]. }
  exists r. split; [done|].
  pose proof (extracted_counter_range _ _ _ Hwf Hr) as Hrange.
  destruct Hr as (Huid & Hctr & (c0 & c1 & c2 & Hc3 & Hint) & Hhex & _).
  assert (wf_buffer (uid r)) as Hwu by (rewrite Huid; by apply Forall_take, Forall_drop).
  assert (wf_buffer [c0; c1; c2]) as Hwc.
  { rewrite <- Hc3, Hctr. by apply Forall_take, Forall_drop. }
  split; [rewrite Huid, length_take, length_drop; lia|].
  split; [by rewrite Hc3|]. split; [|split; [|done]].
  - rewrite Hhex. by apply hexDecode_hexEncode.
  - rewrite Hc3, Hint. by apply bigEndian3_readback.
Qed.

Lemma extractUidAndCounter_roundtrip_witness :
  let decrypted := hexDecode "c704aabbccddeeff0a0b0c00000000ff" in
  wf_buffer decrypted ∧ (10 ≤ length decrypted)%nat
  ∧ ∃ r, extractUidAndCounter decrypted = Return (Some r)
         ∧ hexDecode (uidHex r) = uid r.
Proof.
  assert (wf_buffer (hexDecode "c704aabbccddeeff0a0b0c00000000ff")) as Hwf
    by (vm_compute; repeat constructor; discriminate).
  split; [exact Hwf|]. split; [simpl; lia|].
  destruct (extractUidAndCounter_roundtrip _ Hwf) as (r & Hr & _ & _ & Hhex & _);
    [simpl; lia|].
  exists r. split; [exact Hr|exact Hhex].
Defined.

(** ** The verifier, step by step *)

Lemma xor_zero_l (y : Buffer) :
  wf_buffer y → length y = 16%nat → xor (alloc 16) y = y.
Proof.
  intros Hwf Hlen. apply list_eq. intros i.
  destruct (decide (i < 16)%nat) as [Hi|Hi].
  - rewrite xor_lookup by (rewrite alloc_length, Hlen; lia).
    unfold alloc. rewrite lookup_replicate_2 by lia.
    destruct (lookup_lt_is_Some_2 y i ltac:(lia)) as [x Hx]. rewrite Hx. cbn.
    f_equal. apply to_uint8_byte. by eapply (Forall_lookup_1 _ y).
  - rewrite !lookup_ge_None_2; [done|lia|]. rewrite xor_length, alloc_length. lia.
Qed.

(** The session vector the verifier builds from an extracted record:
    purpose, four constant bytes, then ten consecutive plaintext bytes. *)
Lemma verifier_vector (decrypted : Buffer) (from : nat) (r : UidAndCounter) :
  wf_buffer decrypted → extracted decrypted from r →
  generateSdmSessionVector [60; 195] (uid r) (inject_Z (counterInt r))
      (Some {| uidMirroring := Some true; readCounter := Some true |})
    = Return ([60; 195; 0; 1; 0; 128] ++ take 10 (drop from decrypted)).
Proof.
  intros Hwf Hr. pose proof (extracted_counter_range _ _ _ Hwf Hr) as Hrange.
  destruct Hr as (Huid & Hctr & (c0 & c1 & c2 & Hc3 & Hint) & _).
  assert (wf_buffer [c0; c1; c2]) as Hwc.
  { rewrite <- Hc3, Hctr. by apply Forall_take, Forall_drop. }
  unfold generateSdmSessionVector. rewrite writeUIntBE3_in_range by done.
  cbn [mbind outcome_bind mret outcome_ret default from_option id
       uidMirroring readCounter].
  rewrite bool_decide_eq_false_2 by discriminate.
  rewrite bool_decide_eq_true_2 by done.
  rewrite Hint, bigEndian3_readback, <- Hc3 by done.
  assert (take 10 (drop from decrypted) = uid r ++ counter r) as ->.
  { rewrite Huid, Hctr.
    replace (drop (from + 7) decrypted) with (drop 7 (drop from decrypted))
      by (by rewrite drop_drop).
    by rewrite take_take_drop. }
  by rewrite <- !app_assoc.
Qed.

Section SingleBlock.
Context `{cipher : BlockCipher}.

(** The CMAC of exactly one block: no chaining, the block XORed with K1. *)
Lemma calculateCmac_one_block key data :
  length key = 16%nat → length data = 16%nat →
  calculateCmac key data = Return (encryptBlock key (xor data (subkeysSpec key).1)).
Proof.
  intros Hk Hd.
  destruct (calculateCmac_closed_form key data Hk) as (lastBlock & Hlast & Hc & Hy).
  assert (isComplete data = true) as Hcomplete by (unfold isComplete; by rewrite Hd).
  assert (blockCount data = 1%nat) as Hn by (unfold blockCount; by rewrite Hd).
  rewrite lastBlockOf_complete in Hlast by done. rewrite Hd in Hlast.
  cbn [Nat.sub] in Hlast. rewrite drop_0 in Hlast. injection Hlast as <-.
  rewrite Hcomplete, Hn in Hc, Hy. cbn [Nat.sub seq map foldl] in Hc, Hy.
  rewrite xor_zero_l in Hc; [done|apply xor_bytes|].
  rewrite xor_length, Hd. destruct (subkeysSpec_length key Hk) as [-> _]. done.
Qed.

(** The CMAC of the empty message: the padding block XORed with K2. *)
Lemma calculateCmac_empty key :
  length key = 16%nat →
  calculateCmac key [] =
    Return (encryptBlock key (xor (128 :: replicate 15 0) (subkeysSpec key).2)).
Proof.
  intros Hk.
  destruct (calculateCmac_closed_form key [] Hk) as (lastBlock & Hlast & Hc & Hy).
  cbn in Hlast. injection Hlast as <-.
  cbn [isComplete blockCount length Nat.eqb negb andb Nat.sub seq map foldl] in Hc, Hy.
  rewrite xor_zero_l in Hc; [done|apply xor_bytes|].
  rewrite xor_length. destruct (subkeysSpec_length key Hk) as [_ ->]. done.
Qed.

(** The verifier past its three checks, in terms of the whole plaintext. *)
Lemma verifySdmAuth_reached
    (env : option string) (piccDataHex providedCmacHex : string)
    (sdmKeyHex : option string) :
  comparisonReached env piccDataHex sdmKeyHex →
  let key := hexDecode (default "" (resolvedKey env sdmKeyHex)) in
  ∃ plain,
    decryptPiccData (hexDecode piccDataHex) key = Some plain
    ∧ take 16 plain = decryptBlock key (take 16 (hexDecode piccDataHex))
    ∧ let vector := [60; 195; 0; 1; 0; 128] ++ take 10 (drop 1 plain) in
      let sessionKey := encryptBlock key (xor vector (subkeysSpec key).1) in
      let fullCmac :=
        encryptBlock sessionKey (xor (128 :: replicate 15 0) (subkeysSpec sessionKey).2) in
      let calculated := toUpperCase (hexEncode (truncateCmac fullCmac)) in
      let isValid := String.eqb calculated (toUpperCase providedCmacHex) in
      length vector = 16%nat
      ∧ verifySdmAuth env piccDataHex providedCmacHex sdmKeyHex =
          {| SdmAuthResult.success := isValid;
             SdmAuthResult.uid := Some (toUpperCase (hexEncode (take 7 (drop 1 plain))));
             SdmAuthResult.counter := Some (beValue (rev (take 3 (drop 8 plain))));
             SdmAuthResult.method :=
               Some (if isValid then Some "Full mirroring with empty data" else None);
             SdmAuthResult.calculatedCmac := Some calculated;
             SdmAuthResult.providedCmac := Some (toUpperCase providedCmacHex);
             SdmAuthResult.error := None |}.
Proof.
  intros (Hkey & Hk & Hm & Hlen) key. fold key in Hk.
  set (picc := hexDecode piccDataHex) in *.
  destruct (decryptPiccData_cases picc key)
    as [[? _]|[(_ & ? & _)|(_ & _ & Hdec)]]; [done|done|].
  pose proof (Nat.div_mod_eq (length picc) 16) as Hdiv.
  destruct (length picc / 16)%nat as [|m] eqn:Hblocks; [lia|].
  set (plain := ecb (decryptBlock key) (S m) picc) in *.
  destruct (decryptPiccData_plain _ _ _ Hdec) as (_ & _ & Hpl & Hwf).
  exists plain. split; [done|]. split.
  { subst plain. cbn [ecb]. apply take_app_length'.
    symmetry. apply decryptBlock_length; [done|]. rewrite length_take. lia. }
  destruct (extractUidAndCounter_tagged plain ltac:(lia)) as (r & Hex & Hr).
  pose proof (verifier_vector _ _ _ Hwf Hr) as Hvec.
  destruct Hr as (Huid & Hctr & (c0 & c1 & c2 & Hc3 & Hint) & Hhex & _).
  cbn [Nat.add] in Hctr.
  assert (length ([60; 195; 0; 1; 0; 128] ++ take 10 (drop 1 plain)) = 16%nat) as Hvl.
  { rewrite length_app, length_take, length_drop. cbn [length]. lia. }
  cbv zeta. split; [exact Hvl|].
  unfold verifySdmAuth, verifySdmAuth_body. fold (resolvedKey env sdmKeyHex).
  rewrite Hkey. cbn [negb]. fold key. fold picc. rewrite Hdec, Hex.
  cbn [mbind outcome_bind mret outcome_ret].
  rewrite generateSdmSessionKey_unfold, Hvec. cbn [mbind outcome_bind].
  rewrite decide_False by lia.
  rewrite calculateCmac_one_block by done. cbn [mbind outcome_bind].
  change (alloc 0) with (@nil Z).
  rewrite calculateCmac_empty.
  2:{ apply encryptBlock_length; [done|].
      rewrite xor_length, Hvl. destruct (subkeysSpec_length key Hk) as [-> _]. done. }
  cbn [mbind outcome_bind mret outcome_ret]. rewrite Hhex, Huid.
  do 3 f_equal. rewrite <- Hctr, Hc3, Hint. cbn. lia.
Qed.

End SingleBlock.

(** ** The verifier: what its result depends on *)

Section Verifier.
Context `{cipher : BlockCipher}.

(** X9.  When the verifier reaches the comparison, everything it reports is
    a function of the key and of the first 16 bytes of the PICC data alone:
    with [block] the decryption of that first block, the UID text is the
    hex of bytes 1..8 of [block], the counter the little-endian value of
    bytes 8..11, the session vector is 3C C3 00 01 00 80 followed by bytes
    1..11 (16 bytes, so no zero padding is ever added), the session key is
    one encryption of that vector XORed with K1, and the calculated CMAC is
    the truncation of one encryption, under the session key, of the padding
    block XORed with the session key's K2.  Later blocks of the PICC data
    are decrypted and never looked at. *)
Theorem verifySdmAuth_closed_form
    (env : option string) (piccDataHex providedCmacHex : string)
    (sdmKeyHex : option string) :
  comparisonReached env piccDataHex sdmKeyHex →
  let key := hexDecode (default "" (resolvedKey env sdmKeyHex)) in
  let block := decryptBlock key (take 16 (hexDecode piccDataHex)) in
  let vector := [60; 195; 0; 1; 0; 128] ++ take 10 (drop 1 block) in
  let sessionKey := encryptBlock key (xor vector (subkeysSpec key).1) in
  let fullCmac :=
    encryptBlock sessionKey (xor (128 :: replicate 15 0) (subkeysSpec sessionKey).2) in
  let calculated := toUpperCase (hexEncode (truncateCmac fullCmac)) in
  let isValid := String.eqb calculated (toUpperCase providedCmacHex) in
  length vector = 16%nat
  ∧ verifySdmAuth env piccDataHex providedCmacHex sdmKeyHex =
      {| SdmAuthResult.success := isValid;
         SdmAuthResult.uid := Some (toUpperCase (hexEncode (take 7 (drop 1 block))));
         SdmAuthResult.counter := Some (beValue (rev (take 3 (drop 8 block))));
         SdmAuthResult.method :=
           Some (if isValid then Some "Full mirroring with empty data" else None);
         SdmAuthResult.calculatedCmac := Some calculated;
         SdmAuthResult.providedCmac := Some (toUpperCase providedCmacHex);
         SdmAuthResult.error := None |}.
Proof.
  intros Hreached key block.
  destruct (verifySdmAuth_reached env piccDataHex providedCmacHex sdmKeyHex Hreached)
    as (plain & _ & Hblock & Hvl & Hresult).
  fold key in Hblock, Hvl, Hresult. fold block in Hblock.
  assert (∀ n m, (m + n ≤ 16)%nat → take n (drop m plain) = take n (drop m block)) as Hin.
  { intros n m Hnm. rewrite <- Hblock, !take_drop_commute, take_take.
    by replace ((m + n) `min` 16)%nat with (m + n)%nat by lia. }
  rewrite (Hin 10 1)%nat in Hvl, Hresult by lia.
  rewrite (Hin 7 1)%nat, (Hin 3 8)%nat in Hresult by lia.
  cbv zeta. split; [exact Hvl|exact Hresult].
Qed.

(** The four ways a call of the verifier can go. *)
Lemma verifySdmAuth_outcomes
    (env : option string) (piccDataHex providedCmacHex : string)
    (sdmKeyHex : option string) :
  let key := hexDecode (default "" (resolvedKey env sdmKeyHex)) in
  let piccData := hexDecode piccDataHex in
  let result := verifySdmAuth env piccDataHex providedCmacHex sdmKeyHex in
  (truthy (resolvedKey env sdmKeyHex) = false
   ∧ result = failure "SDM key not configured")
  ∨ (truthy (resolvedKey env sdmKeyHex) = true
     ∧ (length key ≠ 16%nat ∨ (length piccData `mod` 16)%nat ≠ 0%nat)
     ∧ result = failure "PICC data decryption failed")
  ∨ (truthy (resolvedKey env sdmKeyHex) = true
     ∧ length key = 16%nat ∧ piccData = []
     ∧ result = failure "Failed to extract UID and counter")
  ∨ (truthy (resolvedKey env sdmKeyHex) = true
     ∧ length key = 16%nat ∧ (length piccData `mod` 16)%nat = 0%nat
     ∧ piccData ≠ [] ∧ comparisonReached env piccDataHex sdmKeyHex
     ∧ SdmAuthResult.error result = None).
Proof.
  intros key piccData result.
  destruct (truthy (resolvedKey env sdmKeyHex)) eqn:Hkey.
  2:{ left. split; [done|]. subst result.
      unfold verifySdmAuth, verifySdmAuth_body. fold (resolvedKey env sdmKeyHex).
      by rewrite Hkey. }
  right.
  assert (∀ decrypted, decryptPiccData piccData key = decrypted →
          result = match decrypted with
                   | None => failure "PICC data decryption failed"
                   | Some decrypted =>
                       match extractUidAndCounter decrypted with
                       | Return None => failure "Failed to extract UID and counter"
                       | _ => result
                       end
                   end) as Hstep.
  { intros decrypted Hd. destruct decrypted as [decrypted|].
    - destruct (extractUidAndCounter decrypted) as [[r|]|e] eqn:Hex; [done| |done].
      subst result. unfold verifySdmAuth, verifySdmAuth_body.
      fold (resolvedKey env sdmKeyHex). rewrite Hkey. cbn [negb].
      fold key. fold piccData. by rewrite Hd, Hex.
    - subst result. unfold verifySdmAuth, verifySdmAuth_body.
      fold (resolvedKey env sdmKeyHex). rewrite Hkey. cbn [negb].
      fold key. fold piccData. by rewrite Hd. }
  destruct (decryptPiccData_cases piccData key)
    as [[Hk Hd]|[(Hk & Hm & Hd)|(Hk & Hm & Hd)]]; pose proof (Hstep _ Hd) as Hres.
  - left. auto.
  - left. auto.
  - right. destruct (decryptPiccData_plain _ _ _ Hd) as (_ & _ & Hpl & _).
    destruct (decide (length piccData < 10)%nat) as [Hs|Hs].
    + left. cbv beta iota in Hres. rewrite extractUidAndCounter_short in Hres by lia.
      split; [done|]. split; [done|]. split; [|done].
      apply nil_length_inv.
      pose proof (Nat.div_mod_eq (length piccData) 16).
      destruct (length piccData `div` 16)%nat; lia.
    + right. assert (comparisonReached env piccDataHex sdmKeyHex) as Hr.
      { split; [done|]. split; [done|]. split; [done|]. fold piccData. lia. }
      split; [done|]. split; [done|]. split; [done|]. split; [|split; [done|]].
      * intros Hnil. rewrite Hnil in Hs. cbn in Hs. lia.
      * destruct (verifySdmAuth_reached env piccDataHex providedCmacHex sdmKeyHex Hr)
          as (plain & _ & _ & _ & Hfull). fold result in Hfull. by rewrite Hfull.
Qed.

(** X10.  The verifier's failures, classified exactly.  It reports "SDM key
    not configured" when neither the argument nor the environment gives a
    non-empty key; "PICC data decryption failed" when the key does not
    decode to 16 bytes or the PICC data does not decode to whole blocks;
    "Failed to extract UID and counter" only when the PICC data decodes to
    no byte at all; and no error otherwise.  A failing result carries
    nothing but the message, so the catch-all branch is never taken. *)
Theorem verifySdmAuth_error_classes
    (env : option string) (piccDataHex providedCmacHex : string)
    (sdmKeyHex : option string) :
  let key := hexDecode (default "" (resolvedKey env sdmKeyHex)) in
  let piccData := hexDecode piccDataHex in
  let result := verifySdmAuth env piccDataHex providedCmacHex sdmKeyHex in
  (result = failure "SDM key not configured"
     ↔ truthy (resolvedKey env sdmKeyHex) = false)
  ∧ (result = failure "PICC data decryption failed"
     ↔ truthy (resolvedKey env sdmKeyHex) = true
       ∧ (length key ≠ 16%nat ∨ (length piccData `mod` 16)%nat ≠ 0%nat))
  ∧ (result = failure "Failed to extract UID and counter"
     ↔ truthy (resolvedKey env sdmKeyHex) = true ∧ length key = 16%nat ∧ piccData = [])
  ∧ (SdmAuthResult.error result = None ↔ comparisonReached env piccDataHex sdmKeyHex)
  ∧ (∀ msg, SdmAuthResult.error result = Some msg → result = failure msg).
Proof.
  intros key piccData result.
  pose proof (verifySdmAuth_outcomes env piccDataHex providedCmacHex sdmKeyHex) as Hcases.
  cbv zeta in Hcases. fold key piccData result in Hcases.
  assert (∀ a b : string, failure a = failure b → a = b) as Hinj
    by (intros a b H; by injection H).
  assert (∀ a, SdmAuthResult.error (failure a) = Some a) as Herr by done.
  destruct Hcases as [[Hk H]|[(Hk & Hbad & H)|[(Hk & Hk16 & Hp & H)
                     |(Hk & Hk16 & Hm & Hne & Hr & H)]]].
  - rewrite H. split; [done|]. split; [split; [intros E; by apply Hinj in E|intros [? _]; congruence]|].
    split; [split; [intros E; by apply Hinj in E|intros [? _]; congruence]|].
    split; [split; [done|intros [? _]; congruence]|].
    intros msg E. rewrite Herr in E. congruence.
  - rewrite H. split; [split; [intros E; by apply Hinj in E|congruence]|].
    split; [done|].
    split; [split; [intros E; by apply Hinj in E|]|].
    { intros (_ & ? & Hp). rewrite Hp in Hbad. cbn in Hbad. by destruct Hbad. }
    split; [split; [done|]|].
    { intros (_ & ? & ? & _). by destruct Hbad. }
    intros msg E. rewrite Herr in E. congruence.
  - rewrite H. split; [split; [intros E; by apply Hinj in E|congruence]|].
    split; [split; [intros E; by apply Hinj in E|]|].
    { intros (_ & Hbad). rewrite Hp in Hbad. cbn in Hbad. by destruct Hbad. }
    split; [done|].
    split; [split; [done|]|].
    { intros (_ & _ & _ & Hlen). fold piccData in Hlen. rewrite Hp in Hlen.
      cbn in Hlen. lia. }
    intros msg E. rewrite Herr in E. congruence.
  - split; [split; [intros E; rewrite E in H; done|congruence]|].
    split; [split; [intros E; rewrite E in H; done|]|].
    { intros (_ & Hbad). by destruct Hbad. }
    split; [split; [intros E; rewrite E in H; done|]|].
    { intros (_ & _ & ?). done. }
    split; [done|].
    intros msg E. congruence.
Qed.

(** The verifier sees its key only through the resolved key. *)
Lemma verifySdmAuth_resolved env piccDataHex providedCmacHex sdmKeyHex :
  verifySdmAuth env piccDataHex providedCmacHex sdmKeyHex
  = verifySdmAuth None piccDataHex providedCmacHex (resolvedKey env sdmKeyHex).
Proof.
  destruct (truthy (resolvedKey env sdmKeyHex)) eqn:Ht.
  - assert (resolvedKey None (resolvedKey env sdmKeyHex) = resolvedKey env sdmKeyHex) as Hr
      by (unfold resolvedKey at 1; by rewrite Ht).
    unfold verifySdmAuth, verifySdmAuth_body.
    fold (resolvedKey env sdmKeyHex). fold (resolvedKey None (resolvedKey env sdmKeyHex)).
    by rewrite Hr.
  - assert (truthy (resolvedKey None (resolvedKey env sdmKeyHex)) = false) as Hr
      by (unfold resolvedKey at 1; by rewrite Ht).
    unfold verifySdmAuth, verifySdmAuth_body.
    fold (resolvedKey env sdmKeyHex). fold (resolvedKey None (resolvedKey env sdmKeyHex)).
    by rewrite Ht, Hr.
Qed.

(** X11.  Key resolution.  A non-empty key argument silences the
    environment variable altogether; an empty key argument counts as no
    argument; and a key taken from the environment is used exactly as if it
    had been passed as the argument. *)
Theorem verifySdmAuth_key_resolution
    (env : option string) (piccDataHex providedCmacHex keyHex : string) :
  (keyHex ≠ "" →
     verifySdmAuth env piccDataHex providedCmacHex (Some keyHex)
     = verifySdmAuth None piccDataHex providedCmacHex (Some keyHex))
  ∧ verifySdmAuth env piccDataHex providedCmacHex (Some "")
    = verifySdmAuth env piccDataHex providedCmacHex None
  ∧ verifySdmAuth (Some keyHex) piccDataHex providedCmacHex None
    = verifySdmAuth None piccDataHex providedCmacHex (Some keyHex).
Proof.
  split; [|split].
  - intros Hne. rewrite verifySdmAuth_resolved. f_equal.
    unfold resolvedKey. by destruct keyHex.
  - by rewrite (verifySdmAuth_resolved env _ _ (Some "")), (verifySdmAuth_resolved env _ _ None).
  - by rewrite verifySdmAuth_resolved.
Qed.

Lemma resolvedKey_toUpperCase env sdmKeyHex :
  resolvedKey (toUpperCase <$> env) (toUpperCase <$> sdmKeyHex)
  = toUpperCase <$> resolvedKey env sdmKeyHex.
Proof. unfold resolvedKey. rewrite truthy_toUpperCase. by destruct (truthy sdmKeyHex). Qed.

(** X12.  On ASCII text the verifier is insensitive to the letter case of
    all its hex inputs: upper-casing the PICC data, the provided CMAC, the
    key argument and the environment key changes nothing in the result.
    (Beyond ASCII the property is lost: upper-casing can turn a character
    whose low byte reads as a digit into one that does not.) *)
Theorem verifySdmAuth_case_insensitive
    (env : option string) (piccDataHex providedCmacHex : string)
    (sdmKeyHex : option string) :
  isAscii piccDataHex = true → isAscii providedCmacHex = true →
  from_option isAscii true sdmKeyHex = true → from_option isAscii true env = true →
  verifySdmAuth (toUpperCase <$> env) (toUpperCase piccDataHex)
    (toUpperCase providedCmacHex) (toUpperCase <$> sdmKeyHex)
  = verifySdmAuth env piccDataHex providedCmacHex sdmKeyHex.
Proof.
  intros _ _ _ _. unfold verifySdmAuth, verifySdmAuth_body.
  fold (resolvedKey env sdmKeyHex).
  fold (resolvedKey (toUpperCase <$> env) (toUpperCase <$> sdmKeyHex)).
  rewrite resolvedKey_toUpperCase, truthy_toUpperCase, hexDecode_toUpperCase,
    toUpperCase_idemp.
  assert (hexDecode (default "" (toUpperCase <$> resolvedKey env sdmKeyHex))
          = hexDecode (default "" (resolvedKey env sdmKeyHex))) as ->; [|done].
  destruct (resolvedKey env sdmKeyHex) as [k|]; [|done]. apply hexDecode_toUpperCase.
Qed.

(** X13.  Acceptance.  The verifier reports success only if the comparison
    was reached and the provided CMAC, upper-cased, is the calculated one:
    16 characters, all upper-case hexadecimal digits; a provided CMAC in
    ASCII then has 16 characters itself.  Then the verifier names the method
    and sets no error.  When the comparison is reached and fails, the method
    is null and the error stays unset as well. *)
Theorem verifySdmAuth_success
    (env : option string) (piccDataHex providedCmacHex : string)
    (sdmKeyHex : option string) :
  let result := verifySdmAuth env piccDataHex providedCmacHex sdmKeyHex in
  (SdmAuthResult.success result = true →
     comparisonReached env piccDataHex sdmKeyHex
     ∧ String.length (toUpperCase providedCmacHex) = 16%nat
     ∧ isUpperHex (toUpperCase providedCmacHex) = true
     ∧ (isAscii providedCmacHex = true → String.length providedCmacHex = 16%nat)
     ∧ SdmAuthResult.calculatedCmac result = Some (toUpperCase providedCmacHex)
     ∧ SdmAuthResult.method result = Some (Some "Full mirroring with empty data")
     ∧ SdmAuthResult.error result = None)
  ∧ (SdmAuthResult.success result = false →
     comparisonReached env piccDataHex sdmKeyHex →
     SdmAuthResult.calculatedCmac result ≠ Some (toUpperCase providedCmacHex)
     ∧ SdmAuthResult.method result = Some None
     ∧ SdmAuthResult.error result = None).
Proof.
  intros result.
  destruct (verifySdmAuth_cases env piccDataHex providedCmacHex sdmKeyHex)
    as [(Hno & msg & Hres & _)|(Hyes & u & n & calc & Hhex & Hlen & Hres)];
    fold result in Hres; rewrite Hres; cbv zeta.
  - split; [done|]. intros _ ?. done.
  - destruct (String.eqb_spec calc (toUpperCase providedCmacHex)) as [Heq|Hne].
    + split; [|done]. intros _. rewrite <- Heq. split; [done|].
      split; [done|]. split; [done|]. split; [|done].
      intros _. by rewrite <- (toUpperCase_length providedCmacHex), <- Heq.
    + split; [done|]. intros _ _. split; [cbn; congruence|done].
Qed.

End Verifier.

Lemma verifySdmAuth_key_resolution_witness :
  let env := Some "FFFFFFFFFFFFFFFFFFFFFFFFFFFFFFFF" in
  let keyHex := "00000000000000000000000000000000" in
  keyHex ≠ ""
  ∧ verifySdmAuth (cipher := aes128) env "1234567890ABCDEF1234567890ABCDEF"
      "1234567890ABCDEF" (Some keyHex)
    = verifySdmAuth (cipher := aes128) None "1234567890ABCDEF1234567890ABCDEF"
        "1234567890ABCDEF" (Some keyHex).
Proof.
  assert ("00000000000000000000000000000000" ≠ "") as Hne by discriminate.
  split; [exact Hne|].
  destruct (verifySdmAuth_key_resolution (cipher := aes128)
              (Some "FFFFFFFFFFFFFFFFFFFFFFFFFFFFFFFF") "1234567890ABCDEF1234567890ABCDEF"
              "1234567890ABCDEF" "00000000000000000000000000000000") as [Hignored _].
  exact (Hignored Hne).
Defined.

Lemma verifySdmAuth_case_insensitive_witness :
  verifySdmAuth (cipher := aes128)
    (toUpperCase <$> Some "000102030405060708090a0b0c0d0e0f")
    (toUpperCase "ef04c3a1b2d59e7786a5f0c41d2b3e6a") (toUpperCase "858749d6056c2dcc")
    (toUpperCase <$> None)
  = verifySdmAuth (cipher := aes128) (Some "000102030405060708090a0b0c0d0e0f")
      "ef04c3a1b2d59e7786a5f0c41d2b3e6a" "858749d6056c2dcc" None.
Proof.
  exact (verifySdmAuth_case_insensitive (cipher := aes128)
           (Some "000102030405060708090a0b0c0d0e0f")
           "ef04c3a1b2d59e7786a5f0c41d2b3e6a" "858749d6056c2dcc" None
           eq_refl eq_refl eq_refl eq_refl).
Defined.

Lemma verifySdmAuth_closed_form_witness :
  let env := Some "00000000000000000000000000000000" in
  let piccDataHex := "1234567890ABCDEF1234567890ABCDEF" in
  comparisonReached env piccDataHex None
  ∧ SdmAuthResult.error (verifySdmAuth (cipher := aes128) env piccDataHex "00" None) = None.
Proof.
  assert (comparisonReached (Some "00000000000000000000000000000000")
            "1234567890ABCDEF1234567890ABCDEF" None) as Hyes
    by (vm_compute; repeat split; lia).
  split; [exact Hyes|].
  destruct (verifySdmAuth_closed_form (cipher := aes128)
              (Some "00000000000000000000000000000000")
              "1234567890ABCDEF1234567890ABCDEF" "00" None Hyes) as [_ Hr].
  rewrite Hr. reflexivity.
Defined.

Lemma verifySdmAuth_success_witness :
  let env := Some "00000000000000000000000000000000" in
  let result :=
    verifySdmAuth (cipher := aes128) env "1234567890ABCDEF1234567890ABCDEF"
      "7c7266c2c41ffa1a" None in
  SdmAuthResult.success result = true
  ∧ SdmAuthResult.method result = Some (Some "Full mirroring with empty data").
Proof.
  assert (SdmAuthResult.success
            (verifySdmAuth (cipher := aes128) (Some "00000000000000000000000000000000")
               "1234567890ABCDEF1234567890ABCDEF" "7c7266c2c41ffa1a" None) = true) as Hok
    by (vm_compute; reflexivity).
  split; [exact Hok|].
  destruct (verifySdmAuth_success (cipher := aes128)
              (Some "00000000000000000000000000000000")
              "1234567890ABCDEF1234567890ABCDEF" "7c7266c2c41ffa1a" None) as [Hyes _].
  destruct (Hyes Hok) as (_ & _ & _ & _ & _ & Hmethod & _). exact Hmethod.
Defined.

Lemma verifySdmAuth_error_classes_witness :
  let result :=
    verifySdmAuth (cipher := aes128) None "1234567890ABCDEF1234567890ABCDEF"
      "1234567890ABCDEF" (Some "0011") in
  SdmAuthResult.error result = Some "PICC data decryption failed"
  ∧ result = failure "PICC data decryption failed".
Proof.
  assert (SdmAuthResult.error
            (verifySdmAuth (cipher := aes128) None "1234567890ABCDEF1234567890ABCDEF"
               "1234567890ABCDEF" (Some "0011")) = Some "PICC data decryption failed") as He
    by (vm_compute; reflexivity).
  split; [exact He|].
  destruct (verifySdmAuth_error_classes (cipher := aes128) None
              "1234567890ABCDEF1234567890ABCDEF" "1234567890ABCDEF" (Some "0011"))
    as (_ & _ & _ & _ & Hall).
  exact (Hall _ He).
Defined.

(** ** Session keys: errors and padding *)

Section SessionKeys.
Context `{cipher : BlockCipher}.

(** X14.  [generateSdmSessionKey] returns exactly when the counter is not
    a number below 0 or above 2^24 - 1 (so also for NaN, which the range
    check lets through) and the key has 16 bytes.  The counter is checked
    first: outside the range a RangeError is raised whatever the key;
    otherwise, with a key of another length, the cipher's "Invalid key
    length". *)
Theorem generateSdmSessionKey_outcome
    (fileReadKey purpose uid : Buffer) (readCtr : number)
    (options : option SdmSessionVectorOptions) :
  let call := generateSdmSessionKey fileReadKey purpose uid readCtr options in
  (returns call ↔ ¬ outsideCounterRange readCtr ∧ length fileReadKey = 16%nat)
  ∧ (outsideCounterRange readCtr → ∃ msg, call = Throw (RangeError msg))
  ∧ (¬ outsideCounterRange readCtr → length fileReadKey ≠ 16%nat →
     call = Throw (CryptoError "Invalid key length")).
Proof.
  intros call. subst call. rewrite generateSdmSessionKey_unfold.
  destruct (passesRangeCheck_outside readCtr) as [Hiff [Hr|Hr]].
  - assert (¬ outsideCounterRange readCtr) as Hin by (intros Hout; by apply Hiff in Hout).
    destruct (generateSdmSessionVector_passes purpose uid readCtr options Hr) as [v Hv].
    rewrite Hv. cbn [mbind outcome_bind].
    set (v' := if decide (length v < 16)%nat then _ else v).
    destruct (decide (length fileReadKey = 16%nat)) as [Hk|Hk].
    + destruct (calculateCmac_returns fileReadKey v' Hk) as (mac & Hmac & _).
      split; [|done]. split; [done|]. intros _. by exists mac.
    + destruct (calculateCmac_bad_key fileReadKey v' Hk) as [_ Hbad]. rewrite Hbad.
      split; [|done]. split; [intros [? ?]; done|intros [_ ?]; done].
  - rewrite generateSdmSessionVector_throws by (by apply Hiff).
    cbn [mbind outcome_bind].
    split; [|split; [by eexists|done]].
    split; [intros [? ?]; done|intros [? _]; done].
Qed.

(** X15.  Zero padding makes session vectors collide.  For a 7-byte UID,
    switching counter mirroring off gives the session key of counter 0, and
    switching both mirrorings off gives the session key of the all-zero UID
    with counter 0: the shorter vector, once padded to 16 bytes, is the
    longer one. *)
Theorem generateSdmSessionKey_padding_collision
    (fileReadKey uid : Buffer) (readCtr : number) :
  length uid = 7%nat → inCounterRange readCtr →
  generateSdmSessionKey fileReadKey [60; 195] uid readCtr
      (Some {| uidMirroring := Some true; readCounter := Some false |})
    = generateSdmSessionKey fileReadKey [60; 195] uid (inject_Z 0) None
  ∧ generateSdmSessionKey fileReadKey [60; 195] uid readCtr
      (Some {| uidMirroring := Some false; readCounter := Some false |})
    = generateSdmSessionKey fileReadKey [60; 195] (replicate 7 0) (inject_Z 0) None.
Proof.
  intros Hu Hr. rewrite !generateSdmSessionKey_unfold.
  unfold generateSdmSessionVector.
  rewrite (writeUIntBE3_in_range 0) by lia.
  rewrite writeUIntBE3_checks, decide_True by (by right).
  cbn [mbind outcome_bind mret outcome_ret default from_option id defaultOptions
       uidMirroring readCounter].
  rewrite bool_decide_eq_false_2 by discriminate.
  rewrite bool_decide_eq_true_2 by done.
  split.
  - rewrite decide_True by (rewrite !length_app, Hu; cbn; lia).
    rewrite decide_False by (rewrite !length_app, Hu; cbn; lia).
    rewrite !length_app, Hu. by rewrite <- !app_assoc.
  - rewrite decide_True by (cbn; lia).
    rewrite decide_False by (cbn; lia). done.
Qed.

End SessionKeys.

Lemma generateSdmSessionKey_outcome_witness :
  (∃ msg, generateSdmSessionKey (cipher := aes128) (replicate 15 0) [60; 195]
            (hexDecode "04AABBCCDDEEFF") (inject_Z (-1)) None
          = Throw (RangeError msg))
  ∧ returns (generateSdmSessionKey (cipher := aes128) (replicate 16 0) [60; 195]
               (hexDecode "04AABBCCDDEEFF") NaN None).
Proof.
  split.
  - destruct (generateSdmSessionKey_outcome (cipher := aes128) (replicate 15 0) [60; 195]
                (hexDecode "04AABBCCDDEEFF") (inject_Z (-1)) None) as (_ & Hrange & _).
    apply Hrange. left. reflexivity.
  - destruct (generateSdmSessionKey_outcome (cipher := aes128) (replicate 16 0) [60; 195]
                (hexDecode "04AABBCCDDEEFF") NaN None) as (Hreturns & _).
    apply Hreturns. split; [intros H; exact H|reflexivity].
Defined.

Lemma generateSdmSessionKey_padding_collision_witness :
  let key := replicate 16 0 in
  let uid := hexDecode "04AABBCCDDEEFF" in
  length uid = 7%nat ∧ inCounterRange (inject_Z 77)
  ∧ generateSdmSessionKey (cipher := aes128) key [60; 195] uid (inject_Z 77)
      (Some {| uidMirroring := Some true; readCounter := Some false |})
    = generateSdmSessionKey (cipher := aes128) key [60; 195] uid (inject_Z 0) None.
Proof.
  assert (inCounterRange (inject_Z 77)) as Hr by (apply inCounterRange_integer; lia).
  split; [reflexivity|]. split; [exact Hr|].
  destruct (generateSdmSessionKey_padding_collision (cipher := aes128) (replicate 16 0)
              (hexDecode "04AABBCCDDEEFF") (inject_Z 77) eq_refl Hr) as [Hsame _].
  exact Hsame.
Defined.

(** * The command-line tool *)

Ltac cli_step :=
  cbn [negb andb orb Cli.when mret Cli.proc_ret Cli.console_error Cli.console_log
       Cli.process_exit Cli.validateHexString Cli.showHelp Cli.stdout Cli.stderr].

(** ** Hexadecimal text accepted by the tool *)

Lemma isHexChar_unhex a :
  Cli.isHexChar a = true →
  ∃ d, unhex a = Some d ∧ 0 ≤ d < 16 ∧ upperChar (hexDigit d) = upperChar a.
Proof.
  intros Ha.
  assert (forallb
            (fun n =>
               let a := ascii_of_nat n in
               implb (Cli.isHexChar a)
                 match unhex a with
                 | Some d => (0 <=? d) && (d <? 16)
                             && Ascii.eqb (upperChar (hexDigit d)) (upperChar a)
                 | None => false
                 end) (seq 0 256) = true) as Hall by (vm_compute; reflexivity).
  rewrite List.forallb_forall in Hall. specialize (Hall (nat_of_ascii a)).
  cbv zeta in Hall. rewrite ascii_nat_embedding, Ha in Hall.
  cbn [implb] in Hall.
  destruct (unhex a) as [d|].
  - specialize (Hall ltac:(apply in_seq; pose proof (nat_ascii_bounded a); lia)).
    apply andb_true_iff in Hall as [Hall Heq]. apply andb_true_iff in Hall as [Hlo Hhi].
    exists d. split; [done|]. split; [lia|]. by apply Ascii.eqb_eq.
  - specialize (Hall ltac:(apply in_seq; pose proof (nat_ascii_bounded a); lia)). done.
Qed.

Lemma hex_digits_of_byte hi lo :
  0 ≤ hi < 16 → 0 ≤ lo < 16 →
  Z.shiftr (hi * 16 + lo) 4 = hi ∧ Z.land (hi * 16 + lo) 15 = lo.
Proof.
  intros Hhi Hlo. split.
  - rewrite Z.shiftr_div_pow2 by lia. change (2 ^ 4) with 16.
    rewrite Z.div_add_l by lia. rewrite Z.div_small; lia.
  - change 15 with (Z.ones 4). rewrite Z.land_ones by lia. change (2 ^ 4) with 16.
    rewrite Z.add_comm, Z.mod_add by lia. apply Z.mod_small. lia.
Qed.

Lemma allHexChars_decodes s :
  Cli.allHexChars s = true →
  (String.length s = 2 * length (hexDecode s) + Nat.b2n (Nat.odd (String.length s)))%nat
  ∧ (Nat.even (String.length s) = true →
     wellFormedHex s = true ∧ toUpperCase (hexEncode (hexDecode s)) = toUpperCase s).
Proof.
  induction s as [|a|a b s IH] using string_pair_ind; [done|done|].
  cbn [Cli.allHexChars]. intros Hall.
  apply andb_true_iff in Hall as [Ha Hall]. apply andb_true_iff in Hall as [Hb Hall].
  destruct (IH Hall) as [IHlen IHeven].
  destruct (isHexChar_unhex a Ha) as (hi & Hhi & Rhi & Uhi).
  destruct (isHexChar_unhex b Hb) as (lo & Hlo & Rlo & Ulo).
  destruct (hex_digits_of_byte hi lo Rhi Rlo) as [Hs Hl].
  cbn [hexDecode wellFormedHex]. rewrite Hhi, Hlo.
  cbn [length String.length hexEncode toUpperCase].
  change (Nat.odd (S (S (String.length s)))) with (Nat.odd (String.length s)).
  change (Nat.even (S (S (String.length s)))) with (Nat.even (String.length s)).
  split; [lia|]. intros Heven. destruct (IHeven Heven) as [Hwf Hrt].
  split; [done|]. by rewrite Hs, Hl, Uhi, Ulo, Hrt.
Qed.

(** ** Argument parsing *)

Lemma not_known_option arg :
  (String.eqb arg "--picc-data" || String.eqb arg "-p") = false →
  (String.eqb arg "--cmac" || String.eqb arg "-c") = false →
  (String.eqb arg "--sdm-key" || String.eqb arg "-k") = false →
  (String.eqb arg "--verbose" || String.eqb arg "-v") = false →
  (String.eqb arg "--help" || String.eqb arg "-h") = false →
  arg ∉ Cli.knownOptions.
Proof.
  intros E1 E2 E3 E4 E5 Hin. unfold Cli.knownOptions in Hin.
  repeat (apply elem_of_cons in Hin as [->|Hin]; [by vm_compute in E1, E2, E3, E4, E5|]).
  by apply elem_of_nil in Hin.
Qed.

(** The loop either goes through all arguments, writing nothing, or stops
    at an argument in option position that starts with a dash and is not an
    option. *)
Lemma parseArgs_loop_cases (n : nat) :
  ∀ args, (length args ≤ n)%nat → ∀ options c,
    (∃ options', Cli.parseArgs_loop options args c = (c, Cli.Next options'))
    ∨ (∃ arg, arg ∈ args ∧ String.prefix "-" arg = true ∧ (arg ∉ Cli.knownOptions)
              ∧ Cli.parseArgs_loop options args c
                = (Cli.complained c [("Unknown option: " ++ arg)%string], Cli.Exited 1)).
Proof.
  induction n as [|n IH]; intros args Hn options c.
  { destruct args; [left; by eexists|cbn in Hn; lia]. }
  destruct args as [|arg rest]; [left; by eexists|]. cbn [length] in Hn.
  assert (∀ options' rest',
            (length rest' ≤ n)%nat → (∀ a, a ∈ rest' → a ∈ arg :: rest) →
            (∃ o, Cli.parseArgs_loop options' rest' c = (c, Cli.Next o))
            ∨ (∃ a, a ∈ arg :: rest ∧ String.prefix "-" a = true ∧ (a ∉ Cli.knownOptions)
                    ∧ Cli.parseArgs_loop options' rest' c
                      = (Cli.complained c [("Unknown option: " ++ a)%string],
                         Cli.Exited 1))) as Hrec.
  { intros options' rest' Hlen Hsub.
    destruct (IH rest' Hlen options' c) as [?|(a & Ha & ?)]; [by left|].
    right. exists a. split; [by apply Hsub|done]. }
  assert (∀ a, a ∈ rest → a ∈ arg :: rest) as Hrest
    by (intros a Ha; by apply list_elem_of_further).
  assert (∀ value rest', rest = value :: rest' → ∀ a, a ∈ rest' → a ∈ arg :: rest) as Hrest'
    by (intros value rest' -> a Ha; by do 2 apply list_elem_of_further).
  cbn [Cli.parseArgs_loop].
  destruct (String.eqb arg "--picc-data" || String.eqb arg "-p") eqn:E1.
  { destruct rest as [|value rest'] eqn:Hr; [left; by eexists|].
    apply Hrec; [cbn in Hn; lia|by eapply Hrest']. }
  destruct (String.eqb arg "--cmac" || String.eqb arg "-c") eqn:E2.
  { destruct rest as [|value rest'] eqn:Hr; [left; by eexists|].
    apply Hrec; [cbn in Hn; lia|by eapply Hrest']. }
  destruct (String.eqb arg "--sdm-key" || String.eqb arg "-k") eqn:E3.
  { destruct rest as [|value rest'] eqn:Hr; [left; by eexists|].
    apply Hrec; [cbn in Hn; lia|by eapply Hrest']. }
  destruct (String.eqb arg "--verbose" || String.eqb arg "-v") eqn:E4.
  { apply Hrec; [lia|done]. }
  destruct (String.eqb arg "--help" || String.eqb arg "-h") eqn:E5.
  { apply Hrec; [lia|done]. }
  destruct (Cli.nonEmpty arg && String.prefix "-" arg) eqn:E6.
  - right. exists arg. apply andb_true_iff in E6 as [_ E6].
    split; [apply list_elem_of_here|]. split; [done|].
    split; [by apply not_known_option|done].
  - apply Hrec; [lia|done].
Qed.

(** X16.  [parseArgs] either returns the options, having written nothing,
    or writes the single line "Unknown option: a" to stderr and ends the
    process with exit code 1, for an argument [a] that starts with a dash
    and is none of the ten options.  When every argument that starts with a
    dash is one of the ten options, it returns. *)
Theorem parseArgs_outcome (args : list string) (c : Cli.Console) :
  ((∃ options, Cli.parseArgs args c = (c, Cli.Next options))
   ∨ (∃ arg, arg ∈ args ∧ String.prefix "-" arg = true ∧ (arg ∉ Cli.knownOptions)
             ∧ Cli.parseArgs args c
               = (Cli.complained c [("Unknown option: " ++ arg)%string], Cli.Exited 1)))
  ∧ ((∀ arg, arg ∈ args → String.prefix "-" arg = true → arg ∈ Cli.knownOptions) →
     ∃ options, Cli.parseArgs args c = (c, Cli.Next options)).
Proof.
  pose proof (parseArgs_loop_cases (length args) args (le_n _)
                {| Cli.piccData := ""; Cli.cmac := ""; Cli.sdmKey := None;
                   Cli.verbose := false; Cli.help := false |} c) as Hcases.
  fold (Cli.parseArgs args) in Hcases. split; [exact Hcases|].
  intros Hknown. destruct Hcases as [?|(arg & Hin & Hdash & Hunknown & _)]; [done|].
  destruct Hunknown. by apply Hknown.
Qed.

Lemma parseArgs_outcome_witness :
  ∃ options,
    Cli.parseArgs ["-p"; "1234"; "--verbose"; "file"] Cli.console0
    = (Cli.console0, Cli.Next options).
Proof.
  destruct (parseArgs_outcome ["-p"; "1234"; "--verbose"; "file"] Cli.console0)
    as [_ Hreturns].
  apply Hreturns. intros arg Hin Hdash.
  repeat (apply elem_of_cons in Hin as [->|Hin];
          [first [by vm_compute in Hdash
                 |unfold Cli.knownOptions; repeat constructor]|]).
  by apply elem_of_nil in Hin.
Defined.

(** ** Hexadecimal arguments *)

(** X17.  What [validateHexString] accepts decodes without loss: the text
    is left untouched on the console, [Buffer.from(value, 'hex')] yields one
    byte for every two characters, and a text of even length is well formed
    and is exactly the hexadecimal spelling of the decoded bytes, up to
    letter case.  (A text of odd length is accepted too; its last digit is
    dropped by the decoder.) *)
Theorem validateHexString_decodes (value name : string) (c c' : Cli.Console) :
  Cli.validateHexString value name c = (c', Cli.Next true) →
  c' = c
  ∧ value ≠ ""
  ∧ length (hexDecode value) = (String.length value / 2)%nat
  ∧ (Nat.even (String.length value) = true →
     wellFormedHex value = true
     ∧ toUpperCase (hexEncode (hexDecode value)) = toUpperCase value).
Proof.
  unfold Cli.validateHexString, Cli.isHexText.
  destruct (Cli.nonEmpty value) eqn:Hne; [|cli_step; intros [= _ ?]; done].
  destruct (Cli.allHexChars value) eqn:Hall; [|cli_step; intros [= _ ?]; done].
  cli_step. intros [= <-].
  destruct (allHexChars_decodes value Hall) as [Hlen Heven].
  split; [done|]. split; [by intros ->|]. split; [|done].
  apply (Nat.div_unique _ 2 _ (Nat.b2n (Nat.odd (String.length value)))).
  - destruct (Nat.odd _); cbn; lia.
  - lia.
Qed.

Lemma validateHexString_decodes_witness :
  Cli.validateHexString "04aaBBccDDeeFF" "PICC data" Cli.console0
    = (Cli.console0, Cli.Next true)
  ∧ toUpperCase (hexEncode (hexDecode "04aaBBccDDeeFF")) = "04AABBCCDDEEFF".
Proof.
  split; [reflexivity|].
  destruct (validateHexString_decodes "04aaBBccDDeeFF" "PICC data" Cli.console0
              Cli.console0 eq_refl) as (_ & _ & _ & Heven).
  destruct (Heven eq_refl) as [_ Hround]. exact Hround.
Defined.

(** ** The run of the tool *)

Section MainRun.
Context `{cipher : BlockCipher}.

(** The run of [main] after the arguments have been parsed: a decision
    table. *)
Lemma main_run env args c options :
  Cli.parseArgs args Cli.console0 = (c, Cli.Next options) →
  let result :=
    verifySdmAuth env (Cli.piccData options) (Cli.cmac options) (Cli.sdmKey options) in
  let keyInvalid :=
    match Cli.sdmKey options with
    | Some key => Cli.nonEmpty key && negb (Cli.isHexText key)
    | None => false
    end in
  if Cli.help options then
    Cli.run (Cli.main env args) = (Cli.logged c [Cli.helpText], 0)
  else if negb (Cli.nonEmpty (Cli.piccData options)) then
    Cli.run (Cli.main env args)
    = (Cli.complained c ["Error: --picc-data is required";
                         "Use --help for usage information"], 1)
  else if negb (Cli.nonEmpty (Cli.cmac options)) then
    Cli.run (Cli.main env args)
    = (Cli.complained c ["Error: --cmac is required";
                         "Use --help for usage information"], 1)
  else if negb (Cli.isHexText (Cli.piccData options)) then
    Cli.run (Cli.main env args)
    = (Cli.complained c ["Error: PICC data must be a valid hex string"], 1)
  else if negb (Cli.isHexText (Cli.cmac options)) then
    Cli.run (Cli.main env args)
    = (Cli.complained c ["Error: CMAC must be a valid hex string"], 1)
  else if keyInvalid then
    Cli.run (Cli.main env args)
    = (Cli.complained c ["Error: SDM key must be a valid hex string"], 1)
  else if negb (truthy (Cli.sdmKey options)) && negb (truthy env) then
    Cli.run (Cli.main env args)
    = (Cli.complained c
         ["Error: SDM key not provided and NTAG424_SDM_KEY environment variable not set";
          "Use --sdm-key option or set NTAG424_SDM_KEY environment variable"], 1)
  else
    ∃ texts,
      Cli.run (Cli.main env args)
      = (Cli.logged c texts, if SdmAuthResult.success result then 0 else 1)
      ∧ (Cli.verbose options = false →
         texts =
           if SdmAuthResult.success result then
             ["✓ Authentication successful";
              ("UID: " ++ Cli.showString (SdmAuthResult.uid result) ++ ", Counter: "
                 ++ Cli.showNumber (SdmAuthResult.counter result))%string]
           else
             ["✗ Authentication failed";
              ("Error: " ++ Cli.showString (SdmAuthResult.error result))%string])
      ∧ (Cli.verbose options = true →
         last texts =
           Some ("  Match:      " ++
                 Cli.showBool (bool_decide (SdmAuthResult.calculatedCmac result
                                            = SdmAuthResult.providedCmac result)))%string).
Proof.
  intros Hparse result keyInvalid.
  unfold Cli.run, Cli.main, Cli.validateHexString, Cli.showHelp.
  unfold mbind, Cli.proc_bind. rewrite Hparse.
  fold result. unfold Cli.logged, Cli.complained.
  destruct (Cli.help options); cli_step; [done|].
  destruct (Cli.nonEmpty (Cli.piccData options)) eqn:Hp; cli_step;
    [|by rewrite <- app_assoc].
  destruct (Cli.nonEmpty (Cli.cmac options)) eqn:Hc; cli_step;
    [|by rewrite <- app_assoc].
  destruct (Cli.isHexText (Cli.piccData options)) eqn:Hpx; cli_step; [|reflexivity].
  destruct (Cli.isHexText (Cli.cmac options)) eqn:Hcx; cli_step; [|reflexivity].
  assert (∀ texts : list string,
            texts = (if Cli.verbose options then texts else texts)) as Hsame
    by (by destruct (Cli.verbose options)).
  subst keyInvalid.
  destruct (Cli.sdmKey options) as [key|] eqn:Hk.
  - destruct (Cli.nonEmpty key) eqn:Hkn; cli_step.
    + destruct (Cli.isHexText key) eqn:Hkx; cli_step; [|reflexivity].
      assert (truthy (Some key) = true) as -> by exact Hkn. cli_step.
      destruct (Cli.verbose options); destruct (SdmAuthResult.success result); cli_step;
        rewrite <- ?app_assoc;
        (eexists; split; [reflexivity|]); split; intros; first [done|reflexivity].
    + assert (truthy (Some key) = false) as -> by exact Hkn.
      cli_step. destruct (truthy env); cli_step; [|by rewrite <- app_assoc].
      destruct (Cli.verbose options); destruct (SdmAuthResult.success result); cli_step;
        rewrite <- ?app_assoc;
        (eexists; split; [reflexivity|]); split; intros; first [done|reflexivity].
  - cbn [truthy]. cli_step. destruct (truthy env); cli_step; [|by rewrite <- app_assoc].
    destruct (Cli.verbose options); destruct (SdmAuthResult.success result); cli_step;
      rewrite <- ?app_assoc;
        (eexists; split; [reflexivity|]); split; intros; first [done|reflexivity].
Qed.

End MainRun.

Section MainTheorems.
Context `{cipher : BlockCipher}.

Lemma main_parse_exit env args c code :
  Cli.parseArgs args Cli.console0 = (c, Cli.Exited code) →
  Cli.run (Cli.main env args) = (c, code).
Proof.
  intros Hparse. unfold Cli.run, Cli.main. unfold mbind at 1, Cli.proc_bind at 1.
  by rewrite Hparse.
Qed.

Lemma parseArgs_cases args :
  (∃ options, Cli.parseArgs args Cli.console0 = (Cli.console0, Cli.Next options))
  ∨ (∃ c, Cli.parseArgs args Cli.console0 = (c, Cli.Exited 1)).
Proof.
  destruct (parseArgs_loop_cases (length args) args (le_n _)
              {| Cli.piccData := ""; Cli.cmac := ""; Cli.sdmKey := None;
                 Cli.verbose := false; Cli.help := false |} Cli.console0)
    as [[o H]|(a & _ & _ & _ & H)]; [left|right]; eexists; exact H.
Qed.

Lemma truthy_resolvedKey env sdmKeyHex :
  truthy (resolvedKey env sdmKeyHex) = truthy sdmKeyHex || truthy env.
Proof. unfold resolvedKey. destruct (truthy sdmKeyHex) eqn:H; [by rewrite H|done]. Qed.

Lemma verifySdmAuth_no_key env piccDataHex providedCmacHex sdmKeyHex :
  truthy sdmKeyHex || truthy env = false →
  SdmAuthResult.success (verifySdmAuth env piccDataHex providedCmacHex sdmKeyHex) = false.
Proof.
  intros Hno. rewrite <- truthy_resolvedKey in Hno.
  unfold verifySdmAuth, verifySdmAuth_body. fold (resolvedKey env sdmKeyHex).
  by rewrite Hno.
Qed.

(** X18.  The exit code of the tool is 0 or 1, and it is 0 exactly when the
    arguments parse and either help was asked for, or the PICC data and the
    CMAC are non-empty hexadecimal texts, a key given on the command line is
    one too, and the verifier reports success on these arguments. *)
Theorem main_exit_code (env : option string) (args : list string) :
  let code := (Cli.run (Cli.main env args)).2 in
  (code = 0 ∨ code = 1)
  ∧ (code = 0 ↔
     ∃ options,
       Cli.parseArgs args Cli.console0 = (Cli.console0, Cli.Next options)
       ∧ (Cli.help options = true
          ∨ (Cli.isHexText (Cli.piccData options) = true
             ∧ Cli.isHexText (Cli.cmac options) = true
             ∧ (∀ key, Cli.sdmKey options = Some key → key ≠ "" →
                       Cli.isHexText key = true)
             ∧ SdmAuthResult.success
                 (verifySdmAuth env (Cli.piccData options) (Cli.cmac options)
                    (Cli.sdmKey options)) = true))).
Proof.
  intros code. subst code.
  destruct (parseArgs_cases args) as [[options Hparse]|[c Hparse]].
  2:{ rewrite (main_parse_exit env args c 1 Hparse). cbn [snd].
      split; [by right|]. split; [done|]. intros (options & Hp & _). congruence. }
  pose proof (main_run env args _ options Hparse) as Hrun. cbv zeta in Hrun.
  set (result := verifySdmAuth env (Cli.piccData options) (Cli.cmac options)
                   (Cli.sdmKey options)) in *.
  assert (∀ Q : Cli.CliOptions → Prop,
            (∃ options', Cli.parseArgs args Cli.console0
                         = (Cli.console0, Cli.Next options') ∧ Q options')
            ↔ Q options) as Hex.
  { intros Q. split; [|by exists options].
    intros (options' & Hp & HQ). rewrite Hparse in Hp. by injection Hp as <-. }
  rewrite Hex. clear Hex. fold result.
  destruct (Cli.help options).
  { rewrite Hrun. cbn [snd]. split; [by left|]. split; [by left|done]. }
  assert (∀ P : Prop, (false = true ∨ P) ↔ P) as Hor
    by (intros P; split; [intros [?|?]; [discriminate|done]|by right]).
  rewrite Hor. clear Hor.
  unfold Cli.isHexText at 1 2. unfold Cli.isHexText at 1 2 in Hrun.
  destruct (Cli.nonEmpty (Cli.piccData options)); cbn [negb andb] in Hrun |- *.
  2:{ rewrite Hrun. cbn [snd]. split; [by right|]. split; [done|]. by intros [? _]. }
  destruct (Cli.nonEmpty (Cli.cmac options)); cbn [negb andb] in Hrun |- *.
  2:{ rewrite Hrun. cbn [snd]. split; [by right|]. split; [done|]. by intros (_ & ? & _). }
  destruct (Cli.allHexChars (Cli.piccData options)); cbn [negb] in Hrun.
  2:{ rewrite Hrun. cbn [snd]. split; [by right|]. split; [done|]. by intros [? _]. }
  destruct (Cli.allHexChars (Cli.cmac options)); cbn [negb] in Hrun.
  2:{ rewrite Hrun. cbn [snd]. split; [by right|]. split; [done|]. by intros (_ & ? & _). }
  destruct (Cli.sdmKey options) as [key|] eqn:Hkey.
  - destruct (Cli.nonEmpty key) eqn:Hkn; cbn [andb] in Hrun.
    + destruct (Cli.isHexText key) eqn:Hkx; cbn [negb] in Hrun.
      2:{ rewrite Hrun. cbn [snd]. split; [by right|]. split; [done|].
          intros (_ & _ & Hk & _). rewrite (Hk key eq_refl) in Hkx; [done|].
          intros ->. done. }
      assert (truthy (Some key) = true) as Ht by exact Hkn.
      rewrite Ht in Hrun. cbn [negb andb] in Hrun.
      destruct Hrun as (texts & Hrun & _ & _). rewrite Hrun. cbn [snd].
      destruct (SdmAuthResult.success result).
      * split; [by left|]. split; [|done]. intros _.
        split; [done|]. split; [done|]. split; [|done]. by intros ? [= <-] _.
      * split; [by right|]. split; [done|]. by intros (_ & _ & _ & ?).
    + assert (truthy (Some key) = false) as Ht by exact Hkn.
      rewrite Ht in Hrun. cbn [negb andb] in Hrun.
      destruct (truthy env) eqn:Henv; cbn [negb] in Hrun.
      * destruct Hrun as (texts & Hrun & _ & _). rewrite Hrun. cbn [snd].
        destruct (SdmAuthResult.success result).
        -- split; [by left|]. split; [|done]. intros _.
           split; [done|]. split; [done|]. split; [|done].
           intros ? [= <-] Hne. destruct key; [done|discriminate Hkn].
        -- split; [by right|]. split; [done|]. by intros (_ & _ & _ & ?).
      * rewrite Hrun. cbn [snd]. split; [by right|]. split; [done|].
        intros (_ & _ & _ & Hs). subst result.
        rewrite verifySdmAuth_no_key in Hs; [done|]. by rewrite Ht, Henv.
  - cbn [truthy negb andb] in Hrun.
    destruct (truthy env) eqn:Henv; cbn [negb] in Hrun.
    + destruct Hrun as (texts & Hrun & _ & _). rewrite Hrun. cbn [snd].
      destruct (SdmAuthResult.success result).
      * split; [by left|]. split; [|done]. intros _.
        split; [done|]. split; [done|]. split; [|done]. by intros ? [=].
      * split; [by right|]. split; [done|]. by intros (_ & _ & _ & ?).
    + rewrite Hrun. cbn [snd]. split; [by right|]. split; [done|].
      intros (_ & _ & _ & Hs). subst result.
      rewrite verifySdmAuth_no_key in Hs; [done|]. by rewrite Henv.
Qed.



End MainTheorems.


Lemma main_exit_code_witness :
  (Cli.run (Cli.main (cipher := aes128) None ["--help"; "-p"; "zz"])).2 = 0.
Proof.
  destruct (main_exit_code (cipher := aes128) None ["--help"; "-p"; "zz"]) as [_ Hzero].
  apply Hzero. eexists. split; [reflexivity|]. left. reflexivity.
Defined.


(** ** Decryption, block by block *)

Lemma ecb_app (f : Buffer → Buffer) (m n : nat) (a b : Buffer) :
  length a = (16 * m)%nat → ecb f (m + n) (a ++ b) = ecb f m a ++ ecb f n b.
Proof.
  revert a. induction m as [|m IH]; intros a Ha.
  - by destruct a.
  - cbn [Nat.add ecb]. rewrite take_app_le, drop_app_le by lia.
    rewrite IH by (rewrite length_drop; lia). by rewrite app_assoc.
Qed.

(** X21.  PICC data is decrypted block by block, each block on its own
    (ECB): when the first part is a whole number of blocks, decrypting a
    concatenation succeeds exactly when decrypting both parts does, and the
    plaintext is the concatenation of the two plaintexts. *)
Theorem decryptPiccData_blockwise `{cipher : BlockCipher} (a b sdmKey : Buffer) :
  (length a `mod` 16 = 0)%nat →
  decryptPiccData (a ++ b) sdmKey =
    match decryptPiccData a sdmKey, decryptPiccData b sdmKey with
    | Some plainA, Some plainB => Some (plainA ++ plainB)
    | _, _ => None
    end.
Proof.
  intros Ha.
  pose proof (Nat.div_mod_eq (length a) 16) as Hda.
  pose proof (Nat.div_mod_eq (length b) 16) as Hdb.
  destruct (decryptPiccData_cases (a ++ b) sdmKey)
    as [[Hk ->]|[(Hk & Hm & ->)|(Hk & Hm & ->)]];
    destruct (decryptPiccData_cases a sdmKey)
      as [[Hka ->]|[(Hka & Hma & ->)|(Hka & Hma & ->)]]; try done;
    destruct (decryptPiccData_cases b sdmKey)
      as [[Hkb ->]|[(Hkb & Hmb & ->)|(Hkb & Hmb & ->)]]; try done.
  - destruct Hm. rewrite length_app, <- Nat.Div0.add_mod_idemp_l, Ha. done.
  - rewrite length_app, <- Nat.Div0.add_mod_idemp_l, Ha in Hm. done.
  - f_equal. rewrite length_app.
    replace (length a + length b)%nat
      with (length b + (length a / 16) * 16)%nat by lia.
    rewrite Nat.div_add by lia.
    rewrite (Nat.add_comm (length b / 16)). apply ecb_app. lia.
Qed.

Lemma decryptPiccData_blockwise_witness :
  let key := replicate 16 0 in
  let a := hexDecode "1234567890ABCDEF1234567890ABCDEF" in
  let b := hexDecode "EF04C3A1B2D59E7786A5F0C41D2B3E6A" in
  (length a `mod` 16 = 0)%nat
  ∧ decryptPiccData (cipher := aes128) (a ++ b) key =
      match decryptPiccData (cipher := aes128) a key,
            decryptPiccData (cipher := aes128) b key with
      | Some plainA, Some plainB => Some (plainA ++ plainB)
      | _, _ => None
      end.
Proof.
  split; [reflexivity|].
  apply (decryptPiccData_blockwise (cipher := aes128)
           (hexDecode "1234567890ABCDEF1234567890ABCDEF")
           (hexDecode "EF04C3A1B2D59E7786A5F0C41D2B3E6A") (replicate 16 0)).
  reflexivity.
Defined.
